(** * Whack-A-Mole (wam.c): a shallow embedding of the actor table,
      the scorer, the controller, the input dispatcher and the
      animation runner, with the properties of the specification.

    The C program is multi-threaded.  Each function below models one
    critical section (or one thread body) of wam.c as a function on the
    data it touches.  Where the C code gives up the table lock inside a
    condition wait, what the other threads do meanwhile is an explicit
    argument: a list of wakeups, each carrying the writes made to the row
    and the value the wait returned. *)

From Stdlib Require Import String Ascii ZArith List Lia Bool.
Import ListNotations.
Local Open Scope Z_scope.

(* ================================================================== *)
(** * Part I: the program                                              *)
(* ================================================================== *)

(** ** C integers

    [int] is 32 bits, [long] and [time_t] are 64 bits (LP64 Linux, the
    platform of error.h and -lrt), [char] is 8 bits.  Arithmetic is done
    on [Z] and wrapped to the width of the C type; division and
    remainder truncate toward zero as in C99. *)

Definition wrap (bits z : Z) : Z :=
  (z + 2 ^ (bits - 1)) mod 2 ^ bits - 2 ^ (bits - 1).

Definition to_int (z : Z) : Z := wrap 32 z.
Definition to_long (z : Z) : Z := wrap 64 z.
Definition to_char (z : Z) : Z := wrap 8 z.

Definition INT_MIN : Z := -2147483648.
Definition INT_MAX : Z := 2147483647.
Definition LONG_MIN : Z := -9223372036854775808.
Definition LONG_MAX : Z := 9223372036854775807.

Definition in_int (z : Z) : Prop := INT_MIN <= z <= INT_MAX.
Definition in_long (z : Z) : Prop := LONG_MIN <= z <= LONG_MAX.

Definition int_add (a b : Z) : Z := to_int (a + b).
Definition int_sub (a b : Z) : Z := to_int (a - b).
Definition int_mul (a b : Z) : Z := to_int (a * b).
Definition int_neg (a : Z) : Z := to_int (- a).
Definition int_div (a b : Z) : Z := to_int (Z.quot a b).
Definition int_rem (a b : Z) : Z := to_int (Z.rem a b).

Definition long_add (a b : Z) : Z := to_long (a + b).
Definition long_sub (a b : Z) : Z := to_long (a - b).
Definition long_mul (a b : Z) : Z := to_long (a * b).
Definition long_div (a b : Z) : Z := to_long (Z.quot a b).
Definition long_rem (a b : Z) : Z := to_long (Z.rem a b).

(** ** #defines *)

Definition MOLEHOLES : Z := 9.
Definition CONCURRENTMOLES : Z := 3.
Definition GRACEPERIOD : Z := 500.
Definition SCAREDDURATION : Z := 2000.
Definition MSEC : Z := 1000000.
Definition MAXPOPUPCOUNT : Z := 100.
Definition MAXDURATION : Z := 15000.
Definition ETIMEDOUT : Z := 110.

(** ** enums *)

Inductive PlayResult := WHACK | ESCAPE | MISFIRE | TOOSOON | SCAREDOFF.

Inductive MoleStatus :=
  AVAILABLE | ASSIGNED | HIDING | UP | WHACKED | EXPIRED | SCARED
| TERMINATING | COMPLETE.

Inductive AnimationType :=
  ANIMHIDING | ANIMPOPUP | ANIMWHACKED | ANIMESCAPED | ANIMMISFIRE
| ANIMMISFIRESCARED | ANIMUPSCARED | SPLASHPOPUP | INSTRPOPUP | INSTRSCARED.

(** The integer value of each enumerator, as the C compiler numbers it. *)

Definition PlayResult_value (r : PlayResult) : Z :=
  match r with
  | WHACK => 0 | ESCAPE => 1 | MISFIRE => 2 | TOOSOON => 3 | SCAREDOFF => 4
  end.

Definition MoleStatus_value (s : MoleStatus) : Z :=
  match s with
  | AVAILABLE => 0 | ASSIGNED => 1 | HIDING => 2 | UP => 3 | WHACKED => 4
  | EXPIRED => 5 | SCARED => 6 | TERMINATING => 7 | COMPLETE => 8
  end.

Definition AnimationType_value (t : AnimationType) : Z :=
  match t with
  | ANIMHIDING => 0 | ANIMPOPUP => 1 | ANIMWHACKED => 2 | ANIMESCAPED => 3
  | ANIMMISFIRE => 4 | ANIMMISFIRESCARED => 5 | ANIMUPSCARED => 6
  | SPLASHPOPUP => 7 | INSTRPOPUP => 8 | INSTRSCARED => 9
  end.

Definition PlayResult_eqb (a b : PlayResult) : bool :=
  PlayResult_value a =? PlayResult_value b.
Definition MoleStatus_eqb (a b : MoleStatus) : bool :=
  MoleStatus_value a =? MoleStatus_value b.
Definition AnimationType_eqb (a b : AnimationType) : bool :=
  AnimationType_value a =? AnimationType_value b.

(** ** structs

    The three structs share field names ([mole], [hole]); each lives in a
    module of its own so that the fields keep the names of wam.c. *)

Module Score.
(** [struct ScoreSheetRecord].  [record_results] never stores
    [totaltime] and [remainingtime]: they stay as malloc left them,
    which is [None] here. *)
Record t := mk {
  totaltime : option Z;
  remainingtime : option Z;
  mole : Z;
  hole : Z;
  startscore : Z;
  missedscore : Z;
  whackedscore : Z;
  bonusscore : Z;
  penaltyscore : Z;
  endscore : Z;
  playresult : PlayResult;
  selection : Z
}.
End Score.
Abbreviation ScoreSheetRecord := Score.t.

Module Anim.
(** [struct AnimationSpec] (without the debug-only [threadsn]). *)
Record t := mk {
  animationtype : AnimationType;
  hole : Z;
  numholes : Z;
  duration : Z;
  score1 : Z;
  score2 : Z;
  syncpoints : Z;
  synccount : Z;
  mole : Z
}.

Definition set_hole (v : Z) (a : t) : t :=
  mk (animationtype a) v (numholes a) (duration a) (score1 a) (score2 a)
     (syncpoints a) (synccount a) (mole a).
Definition set_duration (v : Z) (a : t) : t :=
  mk (animationtype a) (hole a) (numholes a) v (score1 a) (score2 a)
     (syncpoints a) (synccount a) (mole a).
Definition set_score1 (v : Z) (a : t) : t :=
  mk (animationtype a) (hole a) (numholes a) (duration a) v (score2 a)
     (syncpoints a) (synccount a) (mole a).
Definition set_score2 (v : Z) (a : t) : t :=
  mk (animationtype a) (hole a) (numholes a) (duration a) (score1 a) v
     (syncpoints a) (synccount a) (mole a).
Definition set_synccount (v : Z) (a : t) : t :=
  mk (animationtype a) (hole a) (numholes a) (duration a) (score1 a)
     (score2 a) (syncpoints a) v (mole a).
Definition set_mole (v : Z) (a : t) : t :=
  mk (animationtype a) (hole a) (numholes a) (duration a) (score1 a)
     (score2 a) (syncpoints a) (synccount a) v.

(** [memset(&animspec, 0, sizeof animspec)] *)
Definition zero : t := mk ANIMHIDING 0 0 0 0 0 0 0 0.
End Anim.
Abbreviation AnimationSpec := Anim.t.

Record timespec := mk_timespec { tv_sec : Z; tv_nsec : Z }.

Module Mole.
(** [struct MoleCommRecord].  Thread ids and condition variables are
    opaque to the program; they are kept as the integer their bytes
    spell, so that [memset] has something to clear. *)
Record t := mk {
  molestatus : MoleStatus;
  displayack : MoleStatus;
  thread : Z;
  keycond : Z;
  dispcond : Z;
  threadslot : Z;
  mole : Z;
  duration : Z;
  uptime : Z;
  hole : Z;
  keystruck : Z;
  animthread : Z;
  animspec : AnimationSpec;
  animcancelled : Z;
  scoreidx : Z;
  scaredflag : Z;
  scaredtime : timespec
}.

Definition set_molestatus (v : MoleStatus) (p : t) : t :=
  mk v (displayack p) (thread p) (keycond p) (dispcond p) (threadslot p)
     (mole p) (duration p) (uptime p) (hole p) (keystruck p) (animthread p)
     (animspec p) (animcancelled p) (scoreidx p) (scaredflag p)
     (scaredtime p).
Definition set_displayack (v : MoleStatus) (p : t) : t :=
  mk (molestatus p) v (thread p) (keycond p) (dispcond p) (threadslot p)
     (mole p) (duration p) (uptime p) (hole p) (keystruck p) (animthread p)
     (animspec p) (animcancelled p) (scoreidx p) (scaredflag p)
     (scaredtime p).
Definition set_uptime (v : Z) (p : t) : t :=
  mk (molestatus p) (displayack p) (thread p) (keycond p) (dispcond p)
     (threadslot p) (mole p) (duration p) v (hole p) (keystruck p)
     (animthread p) (animspec p) (animcancelled p) (scoreidx p)
     (scaredflag p) (scaredtime p).
Definition set_hole (v : Z) (p : t) : t :=
  mk (molestatus p) (displayack p) (thread p) (keycond p) (dispcond p)
     (threadslot p) (mole p) (duration p) (uptime p) v (keystruck p)
     (animthread p) (animspec p) (animcancelled p) (scoreidx p)
     (scaredflag p) (scaredtime p).
Definition set_keystruck (v : Z) (p : t) : t :=
  mk (molestatus p) (displayack p) (thread p) (keycond p) (dispcond p)
     (threadslot p) (mole p) (duration p) (uptime p) (hole p) v
     (animthread p) (animspec p) (animcancelled p) (scoreidx p)
     (scaredflag p) (scaredtime p).
Definition set_animthread (v : Z) (p : t) : t :=
  mk (molestatus p) (displayack p) (thread p) (keycond p) (dispcond p)
     (threadslot p) (mole p) (duration p) (uptime p) (hole p) (keystruck p)
     v (animspec p) (animcancelled p) (scoreidx p) (scaredflag p)
     (scaredtime p).
Definition set_animspec (v : AnimationSpec) (p : t) : t :=
  mk (molestatus p) (displayack p) (thread p) (keycond p) (dispcond p)
     (threadslot p) (mole p) (duration p) (uptime p) (hole p) (keystruck p)
     (animthread p) v (animcancelled p) (scoreidx p) (scaredflag p)
     (scaredtime p).
Definition set_animcancelled (v : Z) (p : t) : t :=
  mk (molestatus p) (displayack p) (thread p) (keycond p) (dispcond p)
     (threadslot p) (mole p) (duration p) (uptime p) (hole p) (keystruck p)
     (animthread p) (animspec p) v (scoreidx p) (scaredflag p)
     (scaredtime p).
Definition set_scoreidx (v : Z) (p : t) : t :=
  mk (molestatus p) (displayack p) (thread p) (keycond p) (dispcond p)
     (threadslot p) (mole p) (duration p) (uptime p) (hole p) (keystruck p)
     (animthread p) (animspec p) (animcancelled p) v (scaredflag p)
     (scaredtime p).
Definition set_scaredflag (v : Z) (p : t) : t :=
  mk (molestatus p) (displayack p) (thread p) (keycond p) (dispcond p)
     (threadslot p) (mole p) (duration p) (uptime p) (hole p) (keystruck p)
     (animthread p) (animspec p) (animcancelled p) (scoreidx p) v
     (scaredtime p).
Definition set_scaredtime (v : timespec) (p : t) : t :=
  mk (molestatus p) (displayack p) (thread p) (keycond p) (dispcond p)
     (threadslot p) (mole p) (duration p) (uptime p) (hole p) (keystruck p)
     (animthread p) (animspec p) (animcancelled p) (scoreidx p)
     (scaredflag p) v.

(** [memset(p, 0, sizeof(struct MoleCommRecord))]: every field is the
    all-zero bit pattern; for the two enum fields that is the
    enumerator numbered 0. *)
Definition zero : t :=
  mk AVAILABLE AVAILABLE 0 0 0 0 0 0 0 0 0 0 Anim.zero 0 0 0
     (mk_timespec 0 0).

(** The scalar fields of a row in declaration order, enums by value. *)
Definition fields (p : t) : list Z :=
  [ MoleStatus_value (molestatus p); MoleStatus_value (displayack p);
    thread p; keycond p; dispcond p; threadslot p; mole p; duration p;
    uptime p; hole p; keystruck p; animthread p;
    AnimationType_value (Anim.animationtype (animspec p));
    Anim.hole (animspec p); Anim.numholes (animspec p);
    Anim.duration (animspec p); Anim.score1 (animspec p);
    Anim.score2 (animspec p); Anim.syncpoints (animspec p);
    Anim.synccount (animspec p); Anim.mole (animspec p);
    animcancelled p; scoreidx p; scaredflag p;
    tv_sec (scaredtime p); tv_nsec (scaredtime p) ].
End Mole.
Abbreviation MoleCommRecord := Mole.t.

(** ** Global variables *)

(** [molecomm[CONCURRENTMOLES]] has static storage: it starts all zero. *)
Definition molecomm_init : list MoleCommRecord :=
  repeat Mole.zero (Z.to_nat CONCURRENTMOLES).

(** [holekeys], as [assign_hole_keys] fills it; characters by code. *)
Definition char_code (c : ascii) : Z := Z.of_nat (nat_of_ascii c).
Definition holekeys : list Z :=
  map char_code (list_ascii_of_string "789456123").

(** [holekeys[h]].  Holes are claimed in [0, MOLEHOLES); outside that
    range the C read is undefined, and the model reads 0, which is no
    key. *)
Definition holekeys_at (h : Z) : Z :=
  if (0 <=? h) && (h <? MOLEHOLES) then nth (Z.to_nat h) holekeys 0 else 0.

(** The animation descriptors. The initialisers stop after [synccount];
    C zero-fills [mole]. *)
Definition WhackedAnim := Anim.mk ANIMWHACKED 0 MOLEHOLES 1500 0 0 3 0 0.
Definition EscapedAnim := Anim.mk ANIMESCAPED 0 MOLEHOLES 1500 0 0 3 0 0.
Definition HidingAnim := Anim.mk ANIMHIDING 0 MOLEHOLES 0 0 0 2 0 0.
Definition PopupAnim := Anim.mk ANIMPOPUP 0 MOLEHOLES 0 0 0 6 0 0.
Definition MisfireScaredAnim :=
  Anim.mk ANIMMISFIRESCARED 0 MOLEHOLES 2000 0 0 2 0 0.
Definition HideScaredAnim := Anim.mk ANIMUPSCARED 0 MOLEHOLES 2000 0 0 2 0 0.
Definition UpScaredAnim := Anim.mk ANIMUPSCARED 0 MOLEHOLES 2000 0 0 2 0 0.
Definition PopupSplash := Anim.mk SPLASHPOPUP 0 MOLEHOLES 0 0 0 2 0 0.
Definition PopupInstr := Anim.mk INSTRPOPUP 0 MOLEHOLES 0 0 0 2 0 0.
Definition ScaredInstr := Anim.mk INSTRSCARED 0 MOLEHOLES 0 0 0 2 0 0.

(** ** An outcome type for code that can stop the process or block

    [Returned a]: the C function returned.  [Aborted]: a failed
    [assert], or [error_at_line] with a non-zero status, ended the
    process.  [Blocked]: the thread is still inside a condition wait when
    the modelled wakeups are used up.  [Undefined]: the C code read
    outside an array. *)

Inductive outcome (A : Type) : Type :=
| Returned (a : A)
| Aborted
| Blocked
| Undefined.
Arguments Returned {A} a.
Arguments Aborted {A}.
Arguments Blocked {A}.
Arguments Undefined {A}.

Definition bind {A B : Type} (m : outcome A) (k : A -> outcome B)
  : outcome B :=
  match m with
  | Returned a => k a
  | Aborted => Aborted
  | Blocked => Blocked
  | Undefined => Undefined
  end.

Definition defined {A : Type} (o : option A) : outcome A :=
  match o with
  | Some a => Returned a
  | None => Undefined
  end.

Notation "x <- m ;; k" := (bind m (fun x => k))
  (at level 61, m at next level, right associativity).

(** ** The scorer: [compute_score] and [record_results] *)

Definition MISSEDMOLESCORE : Z := -10.
Definition MISSEDMOLEMULTIPLIER : Z := 1.
Definition MISSEDMOLECAP : Z := -50.
Definition WHACKEDMOLESCORE : Z := 20.
Definition BONUSSLICES : Z := 5.
Definition BONUSPOINTS : list Z := [25; 0; 0; 20; 80].

(** The scores buffer with [numscores] as its length, and the static
    local [missedcount] of [compute_score]. *)
Record ScoreState := mk_ScoreState {
  scores : list ScoreSheetRecord;
  missedcount : Z
}.

Definition score_init : ScoreState := mk_ScoreState [] 0.

Definition numscores (st : ScoreState) : Z := Z.of_nat (length (scores st)).

(** [record_results]: grow the buffer by one and fill the new last
    record; the index of that record is returned.  (A failing [malloc] or
    [realloc] ends the process and is left out.) *)
Definition record_results (st : ScoreState)
    (mole hole key startscore missedscore whackedscore bonusscore
     penaltyscore endscore : Z) (playresult : PlayResult)
  : ScoreState * Z :=
  let p := Score.mk None None mole hole startscore missedscore whackedscore
                    bonusscore penaltyscore endscore playresult key in
  let st' := mk_ScoreState (scores st ++ [p]) (missedcount st) in
  (st', numscores st' - 1).

(** [scores[numscores-1].endscore] when [numscores > 0], else 0. *)
Definition curscore (st : ScoreState) : Z :=
  if numscores st >? 0 then
    match nth_error (scores st) (Z.to_nat (numscores st - 1)) with
    | Some r => Score.endscore r
    | None => 0
    end
  else 0.

(** [compute_score].  [None] is the one undefined read of the function:
    [BONUSPOINTS[bonusstage]] outside the array. *)
Definition compute_score (st : ScoreState)
    (mole hole key bonusstage : Z) (playresult : PlayResult)
  : option (ScoreState * Z) :=
  let cur := curscore st in
  let finish (st1 : ScoreState) (missed whacked bonus penalty : Z) :=
    Some (record_results st1 mole hole key cur missed whacked bonus penalty
            (int_add (int_add (int_add (int_add cur missed) whacked) bonus)
                     penalty)
            playresult) in
  match playresult with
  | WHACK =>
      if (0 <=? bonusstage) && (bonusstage <? BONUSSLICES) then
        finish st 0 (int_add 0 WHACKEDMOLESCORE)
               (nth (Z.to_nat bonusstage) BONUSPOINTS 0) 0
      else None
  | ESCAPE | SCAREDOFF =>
      let count := int_add (missedcount st) 1 in
      let st1 := mk_ScoreState (scores st) count in
      let m0 := int_mul (int_mul count MISSEDMOLESCORE) MISSEDMOLEMULTIPLIER in
      let m1 := if m0 <? MISSEDMOLECAP then MISSEDMOLECAP else m0 in
      let m2 := if int_neg m1 >? cur then int_neg cur else m1 in
      finish st1 m2 0 0 0
  | MISFIRE | TOOSOON =>
      finish st 0 0 0 0
  end.

(** *** Histories of the scorer

    Every record of the log comes from a call of [compute_score]; a
    history is the list of those calls since the program started. *)

Record score_call := mk_score_call {
  call_mole : Z;
  call_hole : Z;
  call_key : Z;
  call_bonusstage : Z;
  call_result : PlayResult
}.

Definition do_call (st : ScoreState) (c : score_call)
  : option (ScoreState * Z) :=
  compute_score st (call_mole c) (call_hole c) (call_key c)
                (call_bonusstage c) (call_result c).

Fixpoint run_scores (cs : list score_call) (st : ScoreState)
  : option ScoreState :=
  match cs with
  | [] => Some st
  | c :: cs' =>
      match do_call st c with
      | Some (st', _) => run_scores cs' st'
      | None => None
      end
  end.

(** A miss outcome is ESCAPE or SCAREDOFF; a penalty outcome is MISFIRE
    or TOOSOON. *)
Definition is_miss (r : PlayResult) : bool :=
  match r with ESCAPE | SCAREDOFF => true | _ => false end.

Definition is_penalty (r : PlayResult) : bool :=
  match r with MISFIRE | TOOSOON => true | _ => false end.

Definition miss_count (l : list ScoreSheetRecord) : Z :=
  Z.of_nat (length (filter (fun r => is_miss (Score.playresult r)) l)).

(** The longest log for which no score can leave the range of [int]:
    a record adds at most 100 points. *)
Definition MAXLOG : Z := 21474836.

(** The invariant of the log: [missedcount] counts the miss records,
    and the running total is non-negative and at most 100 points per
    record. *)
Definition score_inv (st : ScoreState) : Prop :=
  missedcount st = miss_count (scores st) /\
  0 <= curscore st <= 100 * numscores st.

(** ** The shared actor table: what other threads write to a row

    While a controller sleeps inside [pthread_cond_wait] or
    [pthread_cond_timedwait] the table lock is free and the other threads
    write to its row.  These are all the writes wam.c makes to a row from
    outside [set_mole_status]; none of them stores to [molestatus], which
    only line 810 of wam.c does. *)

Inductive row_write :=
| W_displayack                     (* display_thread: displayack = molestatus *)
| W_animspec (a : AnimationSpec)   (* display_thread: animspec = ...Anim *)
| W_animthread (t : Z)             (* display_thread: pthread_create *)
| W_animcancelled (v : Z)          (* display_thread, input_thread *)
| W_synccount (n : Z)              (* animation_thread, display_thread *)
| W_keystruck (k : Z)              (* input_thread, display_thread *)
| W_scared (now : timespec).       (* input_thread: scaredflag, scaredtime *)

Definition apply_write (w : row_write) (p : MoleCommRecord) : MoleCommRecord :=
  match w with
  | W_displayack => Mole.set_displayack (Mole.molestatus p) p
  | W_animspec a => Mole.set_animspec a p
  | W_animthread t => Mole.set_animthread t p
  | W_animcancelled v => Mole.set_animcancelled v p
  | W_synccount n =>
      Mole.set_animspec (Anim.set_synccount n (Mole.animspec p)) p
  | W_keystruck k => Mole.set_keystruck k p
  | W_scared now => Mole.set_scaredtime now (Mole.set_scaredflag 1 p)
  end.

Definition apply_writes (ws : list row_write) (p : MoleCommRecord)
  : MoleCommRecord :=
  fold_left (fun q w => apply_write w q) ws p.

(** One return of a condition wait: the writes made to the row while the
    lock was released, and the value the wait returned. *)
Record wakeup := mk_wakeup {
  wk_writes : list row_write;
  wk_ret : Z
}.

(** ** [set_mole_status] *)

(** The [switch] of assertions at the head of [set_mole_status]. *)
Definition assert_predecessor (cur newstatus : MoleStatus) : bool :=
  match newstatus with
  | AVAILABLE => MoleStatus_eqb cur COMPLETE
  | ASSIGNED => MoleStatus_eqb cur AVAILABLE
  | HIDING => MoleStatus_eqb cur ASSIGNED
  | UP => MoleStatus_eqb cur HIDING
  | WHACKED => MoleStatus_eqb cur UP
  | EXPIRED => MoleStatus_eqb cur UP
  | SCARED => MoleStatus_eqb cur HIDING || MoleStatus_eqb cur UP
  | TERMINATING =>
      MoleStatus_eqb cur WHACKED || MoleStatus_eqb cur EXPIRED
      || MoleStatus_eqb cur SCARED
  | COMPLETE => MoleStatus_eqb cur TERMINATING
  end.

(** [newstatus==HIDING || newstatus==UP || newstatus==WHACKED ||
     newstatus==EXPIRED || newstatus==TERMINATING] *)
Definition waits_for_ack (newstatus : MoleStatus) : bool :=
  MoleStatus_eqb newstatus HIDING || MoleStatus_eqb newstatus UP
  || MoleStatus_eqb newstatus WHACKED || MoleStatus_eqb newstatus EXPIRED
  || MoleStatus_eqb newstatus TERMINATING.

(** [while (p->molestatus != p->displayack) pthread_cond_wait(...)];
    a wait that returns non-zero ends the process. *)
Fixpoint wait_displayack (p : MoleCommRecord) (env : list wakeup) {struct env}
  : outcome (MoleCommRecord * list wakeup) :=
  if negb (MoleStatus_eqb (Mole.molestatus p) (Mole.displayack p)) then
    match env with
    | [] => Blocked
    | w :: env' =>
        if wk_ret w =? 0
        then wait_displayack (apply_writes (wk_writes w) p) env'
        else Aborted
    end
  else Returned (p, env).

Definition set_mole_status (p : MoleCommRecord) (newstatus : MoleStatus)
    (env : list wakeup) : outcome (MoleCommRecord * list wakeup) :=
  if assert_predecessor (Mole.molestatus p) newstatus then
    let p1 := if MoleStatus_eqb newstatus AVAILABLE then Mole.zero else p in
    let p2 := Mole.set_molestatus newstatus p1 in
    if waits_for_ack newstatus then wait_displayack p2 env
    else Returned (p2, env)
  else Aborted.

(** *** The life of one row

    A row is touched by calls of [set_mole_status] and, in between, by
    the writes of the other threads.  [run_row] replays such a life and
    lists the status found in the row after each call; a call that
    blocks for ever has written its status already. *)

Inductive row_step :=
| Call (newstatus : MoleStatus) (env : list wakeup)
| Others (ws : list row_write).

Fixpoint run_row (p : MoleCommRecord) (steps : list row_step)
  : list MoleStatus * outcome MoleCommRecord :=
  match steps with
  | [] => ([], Returned p)
  | Others ws :: rest => run_row (apply_writes ws p) rest
  | Call newstatus env :: rest =>
      match set_mole_status p newstatus env with
      | Returned (q, _) =>
          let (tr, o) := run_row q rest in (Mole.molestatus q :: tr, o)
      | Blocked => ([newstatus], Blocked)
      | Aborted => ([], Aborted)
      | Undefined => ([], Undefined)
      end
  end.

(** The transition graph of the specification: UNASSIGNED -> ASSIGNED ->
    CONCEALED -> EXPOSED -> {DISMISSED | MISSED | FRIGHTENED} ->
    TERMINATING -> COMPLETE -> (recycled to UNASSIGNED), with FRIGHTENED
    reachable from CONCEALED as well. *)
Inductive graph_edge : MoleStatus -> MoleStatus -> Prop :=
| edge_assign : graph_edge AVAILABLE ASSIGNED
| edge_conceal : graph_edge ASSIGNED HIDING
| edge_expose : graph_edge HIDING UP
| edge_dismiss : graph_edge UP WHACKED
| edge_miss : graph_edge UP EXPIRED
| edge_frighten_hiding : graph_edge HIDING SCARED
| edge_frighten_up : graph_edge UP SCARED
| edge_terminate_whacked : graph_edge WHACKED TERMINATING
| edge_terminate_expired : graph_edge EXPIRED TERMINATING
| edge_terminate_scared : graph_edge SCARED TERMINATING
| edge_complete : graph_edge TERMINATING COMPLETE
| edge_recycle : graph_edge COMPLETE AVAILABLE.

Fixpoint is_path (s : MoleStatus) (l : list MoleStatus) : Prop :=
  match l with
  | [] => True
  | s' :: l' => graph_edge s s' /\ is_path s' l'
  end.

(** ** The actor controller: [mole_thread] *)

Definition MOLESTARTDELAYMIN : Z := 250.
Definition MOLESTARTDELAYMAX : Z := 3000.

(** The staggered start: [r] is the value [tsrandom()] returns. *)
Definition molestartdelay (mole r : Z) : Z :=
  if mole =? 1 then MOLESTARTDELAYMIN
  else long_add (long_rem r (MOLESTARTDELAYMAX - MOLESTARTDELAYMIN))
                MOLESTARTDELAYMIN.

(** [uptime = tsrandom();
     uptime = (uptime % 5000L + 3000L) * (long)p->duration / 10000L;] *)
Definition choose_uptime (r duration : Z) : Z :=
  long_div (long_mul (long_add (long_rem r 5000) 3000) duration) 10000.

(** [waituntil], from the clock sampled into [starttime]. *)
Definition key_deadline (starttime : timespec) (uptime : Z) : timespec :=
  let frac :=
    long_add (long_mul (long_rem uptime 1000) 1000000) (tv_nsec starttime) in
  mk_timespec
    (long_add (long_add (tv_sec starttime) (long_div frac 1000000000))
              (long_div uptime 1000))
    (long_rem frac 1000000000).

(** The instant a timespec denotes, in nanoseconds. *)
Definition timespec_ns (t : timespec) : Z := tv_sec t * 1000000000 + tv_nsec t.

(** [while (p->keystruck == '\0' && condretval == 0)
       condretval = pthread_cond_timedwait(&p->keycond, ...);] *)
Fixpoint key_wait (p : MoleCommRecord) (condretval : Z) (env : list wakeup)
  {struct env} : outcome (MoleCommRecord * Z * list wakeup) :=
  if (Mole.keystruck p =? 0) && (condretval =? 0) then
    match env with
    | [] => Blocked
    | w :: env' => key_wait (apply_writes (wk_writes w) p) (wk_ret w) env'
    end
  else Returned (p, condretval, env).

(** What the controller hands on after the exposure step. *)
Record exposed := mk_exposed {
  ex_row : MoleCommRecord;
  ex_scores : ScoreState;
  ex_molesremaining : Z;
  ex_waituntil : option timespec;
  ex_env : list wakeup
}.

(** The [switch (condretval)] after the key wait: score the outcome,
    store the index of its record in the row and set the status.
    [relock] holds what was written to the row while the ETIMEDOUT case
    had the table unlocked for its [compute_score]. *)
Definition mole_outcome (p : MoleCommRecord) (condretval : Z)
    (sc : ScoreState) (relock : list row_write) (env : list wakeup)
  : outcome (MoleCommRecord * ScoreState * list wakeup) :=
  if condretval =? 0 then
    if Mole.keystruck p =? holekeys_at (Mole.hole p) then
      x <- defined (compute_score sc (Mole.mole p) (Mole.hole p)
                      (to_char (to_char (Mole.hole p) + char_code "0"))
                      (int_sub (Anim.synccount (Mole.animspec p)) 1) WHACK) ;;
      y <- set_mole_status (Mole.set_scoreidx (snd x) p) WHACKED env ;;
      Returned (fst y, fst x, snd y)
    else
      x <- defined (compute_score sc (Mole.mole p) (Mole.hole p) 0 0
                      SCAREDOFF) ;;
      y <- set_mole_status (Mole.set_scoreidx (snd x) p) SCARED env ;;
      Returned (fst y, fst x, snd y)
  else if condretval =? ETIMEDOUT then
    x <- defined (compute_score sc (Mole.mole p) (Mole.hole p) 0 0 ESCAPE) ;;
    y <- set_mole_status
           (Mole.set_scoreidx (snd x) (apply_writes relock p)) EXPIRED env ;;
    Returned (fst y, fst x, snd y)
  else Aborted.

(** The table lock [molecomm_mtx], a default mutex
    ([PTHREAD_MUTEX_INITIALIZER]), as the controller sees it: [held]
    tells whether the calling thread holds it.  Locking a default mutex
    the thread already holds and unlocking one it does not hold are
    undefined; the wait for another thread to release it is left out. *)
Definition lock_molecomm (held : bool) : outcome bool :=
  if held then Undefined else Returned true.

Definition unlock_molecomm (held : bool) : outcome bool :=
  if held then Returned false else Undefined.

(** The exposure step of [mole_thread], from [if (! p->scaredflag)] to
    the status that ends it (the sleeps and the polls for the end of the
    animation are left out).  [held] is the state of the table lock on
    entry: [mole_thread] arrives with the lock free, having given it
    back after its poll for the end of the concealment.  The branch that
    exposes the mole takes the lock first and every case of its [switch]
    ends by giving it back; the branch for a frightened mole calls
    [set_mole_status] and then [unlock_molecomm] without taking it. *)
Definition mole_thread_exposed (held : bool) (p : MoleCommRecord)
    (sc : ScoreState) (molesremaining : Z) (starttime : timespec)
    (uptime : Z) (relock : list row_write) (env : list wakeup)
  : outcome exposed :=
  if negb (Mole.scaredflag p =? 0) then
    x <- defined (compute_score sc (Mole.mole p) (Mole.hole p) 0 0
                    SCAREDOFF) ;;
    y <- set_mole_status p SCARED env ;;
    h <- unlock_molecomm held ;;
    Returned (mk_exposed (fst y) (fst x) (int_sub molesremaining 1) None
                         (snd y))
  else
    let waituntil := key_deadline starttime uptime in
    h <- lock_molecomm held ;;
    y <- set_mole_status p UP env ;;
    w <- key_wait (Mole.set_keystruck 0 (fst y)) 0 (snd y) ;;
    z <- mole_outcome (fst (fst w)) (snd (fst w)) sc relock (snd w) ;;
    h' <- unlock_molecomm h ;;
    Returned (mk_exposed (fst (fst z)) (snd (fst z))
                         (int_sub molesremaining 1) (Some waituntil) (snd z)).

(** [control_moles] forces its arguments to sane values. *)
Definition clamp_duration (duration : Z) : Z :=
  let d := if duration <? 1000 then 1000 else duration in
  if d >? MAXDURATION then MAXDURATION else d.

(** ** The input dispatcher: [input_thread] *)

(** The pthread calls the dispatcher makes on a row's handles. *)
Inductive sys_call :=
| pthread_cancel (thread : Z)
| pthread_cond_signal (cond : Z).

(** The condition of the first [if] of the scan: the mole is UP, the
    display thread agrees, the key is the key of its hole and was not
    struck before, and its animation has started, is not ending and was
    not cancelled. *)
Definition eligible (inputkey : Z) (r : MoleCommRecord) : bool :=
  MoleStatus_eqb (Mole.molestatus r) UP
  && MoleStatus_eqb (Mole.displayack r) UP
  && (holekeys_at (Mole.hole r) =? inputkey)
  && negb (Mole.keystruck r =? inputkey)
  && (Anim.synccount (Mole.animspec r) >? 0)
  && (Anim.synccount (Mole.animspec r) <? Anim.syncpoints (Mole.animspec r))
  && (Mole.animcancelled r =? 0).

(** The condition of the [else if]: a near miss, absorbed without score
    or penalty. *)
Definition near_miss (inputkey : Z) (r : MoleCommRecord) : bool :=
  (MoleStatus_eqb (Mole.molestatus r) EXPIRED
   || MoleStatus_eqb (Mole.molestatus r) WHACKED
   || (MoleStatus_eqb (Mole.molestatus r) UP
       && (Anim.synccount (Mole.animspec r)
           =? Anim.syncpoints (Mole.animspec r))))
  && (holekeys_at (Mole.hole r) =? inputkey).

(** The body of the first loop for one row: the row afterwards, the
    pthread calls made, and whether [whackflag] was set. *)
Definition scan_row (inputkey : Z) (r : MoleCommRecord)
  : MoleCommRecord * list sys_call * bool :=
  if eligible inputkey r then
    (Mole.set_keystruck inputkey (Mole.set_animcancelled 1 r),
     [pthread_cancel (Mole.animthread r);
      pthread_cond_signal (Mole.keycond r)],
     true)
  else if near_miss inputkey r then (r, [], true)
  else (r, [], false).

Fixpoint input_scan (inputkey : Z) (tbl : list MoleCommRecord)
    (whackflag : bool) : list MoleCommRecord * list sys_call * bool :=
  match tbl with
  | [] => ([], [], whackflag)
  | r :: rest =>
      let '(r', calls, hit) := scan_row inputkey r in
      let '(rest', calls', flag) :=
        input_scan inputkey rest (whackflag || hit) in
      (r' :: rest', calls ++ calls', flag)
  end.

Definition hiding_or_up (r : MoleCommRecord) : bool :=
  MoleStatus_eqb (Mole.molestatus r) HIDING
  || MoleStatus_eqb (Mole.molestatus r) UP.

Definition hiding_at_key (inputkey : Z) (r : MoleCommRecord) : bool :=
  MoleStatus_eqb (Mole.molestatus r) HIDING
  && (inputkey =? holekeys_at (Mole.hole r)).

(** The misfire loop.  [clock n] is what the n-th call of
    [clock_gettime(CLOCK_MONOTONIC, ...)] in this loop stores. *)
Fixpoint input_scare (inputkey : Z) (clock : nat -> timespec) (n : nat)
    (tbl : list MoleCommRecord) (misfiretype : PlayResult)
  : list MoleCommRecord * PlayResult :=
  match tbl with
  | [] => ([], misfiretype)
  | r :: rest =>
      let r' := if hiding_or_up r
                then Mole.set_scaredtime (clock n) (Mole.set_scaredflag 1 r)
                else r in
      let n' := if hiding_or_up r then S n else n in
      let misfiretype' :=
        if hiding_at_key inputkey r then TOOSOON else misfiretype in
      let '(rest', result) :=
        input_scare inputkey clock n' rest misfiretype' in
      (r' :: rest', result)
  end.

(** [for (i=0; i<MOLEHOLES; i++) if (inputkey == holekeys[i]) break;] *)
Fixpoint find_holekey (inputkey : Z) (keys : list Z) (i : Z) : Z :=
  match keys with
  | [] => i
  | k :: keys' =>
      if inputkey =? k then i else find_holekey inputkey keys' (i + 1)
  end.

Definition misfirehole (inputkey : Z) : Z := find_holekey inputkey holekeys 0.

(** [memchr(holekeys, inputkey, sizeof(holekeys)) != NULL] *)
Definition recognized (inputkey : Z) : bool :=
  existsb (Z.eqb inputkey) holekeys.

(** One turn of the loop of [input_thread] for the key [waitforkey]
    returned.  The table lock is given up between the scan and the
    misfire loop: [relock] maps the table as the scan left it to the
    table found when the lock is taken again. *)
Definition input_thread_key (inputkey : Z) (tbl : list MoleCommRecord)
    (sc : ScoreState)
    (relock : list MoleCommRecord -> list MoleCommRecord)
    (clock : nat -> timespec)
  : outcome (list MoleCommRecord * ScoreState * list sys_call) :=
  if inputkey =? 0 then Returned (tbl, sc, [])
  else if negb (recognized inputkey) then Returned (tbl, sc, [])
  else
    let '(tbl1, calls, whackflag) := input_scan inputkey tbl false in
    if negb whackflag then
      let '(tbl2, misfiretype) :=
        input_scare inputkey clock 0 (relock tbl1) MISFIRE in
      x <- defined (compute_score sc (-1) (misfirehole inputkey) inputkey 0
                      misfiretype) ;;
      Returned (tbl2, fst x, calls)
    else Returned (tbl1, sc, calls).

(** ** The animation runner: [animation_thread]

    A run is the list of what the thread does that others can see: the
    values it stores in [aspec->synccount] (always under the table lock),
    the frames it draws and its sleeps.  The locks, [refresh()] and the
    switching of the cancel state are not recorded. *)

Inductive anim_event :=
| Sync (n : Z)
| ShowMole (hole numholes level : Z)
| ShowResult (hole numholes : Z) (result : option PlayResult)
             (score1 score2 : Z) (txt : option string)
| Nanosleep (sec nsec : Z).

(** [tv_sec = ms / 1000; tv_nsec = (ms % 1000) * MSEC; nanosleep(...)] *)
Definition sleep_msec (ms : Z) : anim_event :=
  Nanosleep (int_div ms 1000) (long_mul (int_rem ms 1000) MSEC).

(** [tsrandom()%3?0:1] *)
Definition bounce (r : Z) : Z := if long_rem r 3 =? 0 then 1 else 0.

(** The [while] loop of ANIMHIDING.  [rnd k] is the k-th value returned
    by [tsrandom()]; [fuel] bounds the number of turns, and the flag
    tells whether the loop was left within them. *)
Fixpoint hiding_loop (fuel : nat) (rnd : nat -> Z) (k : nat)
    (aspec : AnimationSpec) (timeremaining : Z) : list anim_event * bool :=
  match fuel with
  | O => ([], false)
  | S fuel' =>
      let forever := Anim.duration aspec =? -1 in
      if (timeremaining >? 0) || forever then
        if (timeremaining <? 600) && negb forever then
          ([Nanosleep 0 (long_mul timeremaining MSEC)], true)
        else
          let h := Anim.hole aspec in
          let n := Anim.numholes aspec in
          let left := int_sub timeremaining 600 in
          let target0 := long_add (long_rem (rnd (2 + k)%nat) 1200) 800 in
          let targettime :=
            if (target0 >? left) && negb forever then left else target0 in
          let '(evs, finished) :=
            hiding_loop fuel' rnd (3 + k) aspec
                        (to_int (left - targettime)) in
          ([ShowMole h n 1; Nanosleep 0 (200 * MSEC);
            ShowMole h n (bounce (rnd k)); Nanosleep 0 (200 * MSEC);
            ShowMole h n (bounce (rnd (1 + k)%nat));
            Nanosleep 0 (200 * MSEC);
            ShowMole h n 0;
            Nanosleep (long_div targettime 1000)
                      (long_mul (long_rem targettime 1000) MSEC)]
             ++ evs,
           finished)
      else ([], true)
  end.

(** The mole going back down: [for (i=4; i>=1; i--)], one checkpoint per
    level; the local counter [synccount] is threaded through. *)
Fixpoint popup_descend (aspec : AnimationSpec) (leveltime : Z)
    (levels : list Z) (synccount : Z) : list anim_event * Z :=
  match levels with
  | [] => ([], synccount)
  | i :: levels' =>
      let synccount' := int_add synccount 1 in
      let '(evs, final) :=
        popup_descend aspec leveltime levels' synccount' in
      (ShowMole (Anim.hole aspec) (Anim.numholes aspec) i
         :: Sync synccount' :: sleep_msec leveltime :: evs,
       final)
  end.

(** One turn of the [do ... while] of the pop-up kinds. *)
Definition popup_once (aspec : AnimationSpec) : list anim_event :=
  let h := Anim.hole aspec in
  let n := Anim.numholes aspec in
  let synccount := int_add 0 1 in
  let rise :=
    flat_map (fun i => [ShowMole h n i; Nanosleep 0 (30 * MSEC)])
             [1; 2; 3; 4; 5] in
  let drop :=
    if AnimationType_eqb (Anim.animationtype aspec) ANIMPOPUP
       || AnimationType_eqb (Anim.animationtype aspec) INSTRPOPUP
    then
      let leveltime := int_div (Anim.duration aspec) 5 in
      let '(evs, synccount') :=
        popup_descend aspec leveltime [4; 3; 2; 1] synccount in
      sleep_msec (int_sub leveltime 150) :: evs
        ++ [Sync (int_add synccount' 1); ShowMole h n 0]
        ++ (if AnimationType_eqb (Anim.animationtype aspec) INSTRPOPUP
            then [Nanosleep 0 (500 * MSEC)] else [])
    else [] in
  Sync synccount :: rise ++ drop.

Fixpoint popup_loop (fuel : nat) (aspec : AnimationSpec)
  : list anim_event * bool :=
  match fuel with
  | O => ([], false)
  | S fuel' =>
      if AnimationType_eqb (Anim.animationtype aspec) INSTRPOPUP then
        let '(evs, finished) := popup_loop fuel' aspec in
        (popup_once aspec ++ evs, finished)
      else (popup_once aspec, true)
  end.

(** The three blinks of "!SCARED!" shared by the scared kinds. *)
Definition scared_blinks (aspec : AnimationSpec) (frametime : Z)
  : list anim_event :=
  let h := Anim.hole aspec in
  let n := Anim.numholes aspec in
  flat_map (fun _ : Z =>
              [ShowResult h n None 0 0 (Some "!SCARED!"%string);
               sleep_msec frametime;
               ShowResult h n None 0 0 (Some ""%string);
               sleep_msec frametime])
           [0; 1; 2].

(** One turn of the [do ... while] of ANIMUPSCARED and INSTRSCARED. *)
Definition upscared_once (aspec : AnimationSpec) : list anim_event :=
  let h := Anim.hole aspec in
  let n := Anim.numholes aspec in
  let d := Anim.duration aspec in
  let instr := AnimationType_eqb (Anim.animationtype aspec) INSTRSCARED in
  (if instr
   then [ShowMole h n 5; Nanosleep 3 0;
         ShowResult h n (Some SCAREDOFF) 0 0 None; Nanosleep 0 750000000]
   else [])
  ++ scared_blinks aspec (int_div d 20)
  ++ [ShowResult h n (Some SCAREDOFF) 0 0 None;
      sleep_msec (int_div (int_mul d 5) 10);
      ShowResult h n None 0 0 (Some "!SCARED!"%string);
      sleep_msec (int_div (int_mul d 2) 10);
      ShowResult h n None 0 0 (Some ""%string)]
  ++ (if instr then [Nanosleep 2 500000000] else []).

Fixpoint upscared_loop (fuel : nat) (aspec : AnimationSpec)
  : list anim_event * bool :=
  match fuel with
  | O => ([], false)
  | S fuel' =>
      if AnimationType_eqb (Anim.animationtype aspec) INSTRSCARED then
        let '(evs, finished) := upscared_loop fuel' aspec in
        (upscared_once aspec ++ evs, finished)
      else (upscared_once aspec, true)
  end.

(** [animation_thread]: the events of the run and whether the thread
    returned within [fuel] turns of its loop. *)
Definition animation_thread (fuel : nat) (rnd : nat -> Z)
    (aspec : AnimationSpec) : list anim_event * bool :=
  let h := Anim.hole aspec in
  let n := Anim.numholes aspec in
  let d := Anim.duration aspec in
  match Anim.animationtype aspec with
  | ANIMHIDING =>
      let '(evs, finished) := hiding_loop fuel rnd 0 aspec d in
      (Sync 1 :: evs ++ (if finished then [Sync 2] else []), finished)
  | ANIMPOPUP | INSTRPOPUP | SPLASHPOPUP => popup_loop fuel aspec
  | ANIMWHACKED =>
      ([Sync 1;
        ShowResult h n (Some WHACK) 0 0 None; Nanosleep 0 (500 * MSEC);
        ShowResult h n (Some WHACK) (Anim.score1 aspec) (Anim.score2 aspec)
                   None;
        Sync 2; sleep_msec (int_sub d 500);
        ShowResult h n None 0 0 (Some ""%string);
        Sync 3], true)
  | ANIMESCAPED =>
      ([Sync 1;
        ShowResult h n None 0 0 (Some ""%string); Nanosleep 0 (250 * MSEC);
        ShowResult h n (Some ESCAPE) 0 0 None; Nanosleep 0 (500 * MSEC);
        ShowResult h n (Some ESCAPE) (Anim.score1 aspec) (Anim.score2 aspec)
                   None;
        Sync 2; sleep_msec (int_sub (int_sub d 500) 250);
        ShowResult h n None 0 0 (Some ""%string);
        Sync 3], true)
  | ANIMMISFIRE => ([], true)
  | ANIMMISFIRESCARED =>
      (Sync 1
         :: ShowResult h n (Some MISFIRE) 0 0 None
         :: sleep_msec (int_div d 4)
         :: scared_blinks aspec (int_div d 20)
         ++ [ShowResult h n (Some SCAREDOFF) 0 0 None;
             sleep_msec (int_div d 4);
             ShowResult h n None 0 0 (Some "!SCARED!"%string);
             sleep_msec (int_div (int_mul d 2) 10);
             ShowResult h n None 0 0 (Some ""%string);
             Sync 2], true)
  | INSTRSCARED | ANIMUPSCARED =>
      let '(evs, finished) := upscared_loop fuel aspec in
      (Sync 1 :: evs ++ (if finished then [Sync 2] else []), finished)
  end.

(** The values stored in [synccount] during a run, in order. *)
Fixpoint sync_writes (evs : list anim_event) : list Z :=
  match evs with
  | [] => []
  | Sync n :: evs' => n :: sync_writes evs'
  | _ :: evs' => sync_writes evs'
  end.

Fixpoint increasing (l : list Z) : Prop :=
  match l with
  | [] => True
  | a :: l' =>
      match l' with
      | [] => True
      | b :: _ => a < b /\ increasing l'
      end
  end.

(** The checkpoint protocol for a finished run: the first visible act of
    the thread stores 1, the stored values increase strictly, none
    exceeds the declared total, and the last one is the total. *)
Definition sync_protocol (aspec : AnimationSpec) (evs : list anim_event)
  : Prop :=
  hd_error evs = Some (Sync 1) /\
  increasing (sync_writes evs) /\
  Forall (fun n => n <= Anim.syncpoints aspec) (sync_writes evs) /\
  last (sync_writes evs) 0 = Anim.syncpoints aspec.

(** ** The display bridge: [display_thread] *)

(** The descriptor the bridge installs before it starts the animation
    thread for a row whose status changed: [pnew] is the snapshot of the
    row, [live] the row in the table.  [None]: no thread is started. *)
Definition launch_descriptor (pnew live : MoleCommRecord) (sc : ScoreState)
  : outcome (option AnimationSpec) :=
  let dress (a : AnimationSpec) :=
    Anim.set_mole (Mole.mole pnew) (Anim.set_hole (Mole.hole pnew) a) in
  match Mole.molestatus pnew with
  | HIDING =>
      Returned (Some (dress (Anim.set_duration
                               (to_int (long_sub (Mole.duration pnew)
                                                 (Mole.uptime pnew)))
                               HidingAnim)))
  | UP =>
      Returned (Some (dress (Anim.set_duration (to_int (Mole.uptime pnew))
                                               PopupAnim)))
  | WHACKED =>
      if (0 <=? Mole.scoreidx live) && (Mole.scoreidx live <? numscores sc)
      then
        match nth_error (scores sc) (Z.to_nat (Mole.scoreidx live)) with
        | Some s =>
            Returned (Some (dress (Anim.set_score2 (Score.bonusscore s)
                                     (Anim.set_score1 (Score.whackedscore s)
                                                      WhackedAnim))))
        | None => Undefined
        end
      else Undefined
  | EXPIRED =>
      if (0 <=? Mole.scoreidx live) && (Mole.scoreidx live <? numscores sc)
      then
        match nth_error (scores sc) (Z.to_nat (Mole.scoreidx live)) with
        | Some s =>
            Returned (Some (dress (Anim.set_score2 0
                                     (Anim.set_score1 (Score.missedscore s)
                                                      EscapedAnim))))
        | None => Undefined
        end
      else Undefined
  | SCARED =>
      if MoleStatus_eqb (Mole.displayack live) UP then
        Returned (Some (dress UpScaredAnim))
      else if MoleStatus_eqb (Mole.displayack live) HIDING then
        if Mole.keystruck live =? holekeys_at (Mole.hole live)
        then Returned (Some (dress MisfireScaredAnim))
        else Returned (Some (dress HideScaredAnim))
      else Returned None
  | _ => Returned None
  end.

(** The first step after a penalty record: cancel the concealment or
    exposure animation of a row if it has started, is not ending and was
    not cancelled, and flag it as finished. *)
Definition cancel_active (r : MoleCommRecord)
  : MoleCommRecord * list sys_call :=
  let a := Mole.animspec r in
  if (AnimationType_eqb (Anim.animationtype a) ANIMHIDING
      || AnimationType_eqb (Anim.animationtype a) ANIMPOPUP)
     && (Anim.synccount a >? 0)
     && (Anim.synccount a <? Anim.syncpoints a)
     && (Mole.animcancelled r =? 0)
  then
    (Mole.set_animspec (Anim.set_synccount (Anim.syncpoints a) a)
                       (Mole.set_animcancelled 1 r),
     [pthread_cancel (Mole.animthread r)])
  else (r, []).

(** What the misfire loop does to one row: [r] before, [r'] after. *)
Definition scared_by (clock : nat -> timespec) (r r' : MoleCommRecord)
  : Prop :=
  if hiding_or_up r
  then Mole.scaredflag r' = 1 /\
       exists n, Mole.scaredtime r' = clock n /\
                 r' = Mole.set_scaredtime (clock n) (Mole.set_scaredflag 1 r)
  else r' = r.

(** ** Sample rows

    A mole that is up in [hole] with [count] checkpoints of its pop-up
    passed and [key] struck last, and a mole hiding in [hole]. *)

Definition row_up (hole key : Z) (count : Z) : MoleCommRecord :=
  Mole.mk UP UP 1 2 3 0 1 6500 3000 hole key 4
          (Anim.set_synccount count (Anim.set_hole hole PopupAnim)) 0 0 0
          (mk_timespec 0 0).

Definition row_hiding (hole : Z) : MoleCommRecord :=
  Mole.mk HIDING HIDING 5 6 7 1 2 6500 3000 hole 0 8
          (Anim.set_synccount 1 (Anim.set_hole hole HidingAnim)) 0 0 0
          (mk_timespec 0 0).

(** ** The score sheet

    [display_score_sheet] prints, in its last column,
    [p->startscore + p->missedscore + p->whackedscore + p->bonusscore +
     p->penaltyscore] for each record. *)
Definition running_total_shown (p : ScoreSheetRecord) : Z :=
  int_add (int_add (int_add (int_add (Score.startscore p)
                                     (Score.missedscore p))
                            (Score.whackedscore p))
                   (Score.bonusscore p))
          (Score.penaltyscore p).

(** A log whose records follow on from one another: each starts at the
    total the one before ended with ([prev] for the first), ends at the
    total the score sheet prints for it, and never below zero. *)
Fixpoint chain_from (prev : Z) (l : list ScoreSheetRecord) : Prop :=
  match l with
  | [] => True
  | r :: l' =>
      Score.startscore r = prev /\
      running_total_shown r = Score.endscore r /\
      Score.endscore r =
        Score.startscore r + Score.missedscore r + Score.whackedscore r
        + Score.bonusscore r + Score.penaltyscore r /\
      0 <= Score.endscore r /\
      chain_from (Score.endscore r) l'
  end.

(** The score components a record can hold. *)
Definition record_in_range (r : ScoreSheetRecord) : Prop :=
  -50 <= Score.missedscore r <= 0 /\
  (Score.whackedscore r = 0 \/ Score.whackedscore r = WHACKEDMOLESCORE) /\
  0 <= Score.bonusscore r <= 80 /\
  Score.penaltyscore r = 0 /\
  (Score.playresult r = WHACK <->
   Score.whackedscore r = WHACKEDMOLESCORE) /\
  (is_miss (Score.playresult r) = false -> Score.missedscore r = 0).

(** ** The slot lock manager: [hole_mtx] and its three functions

    [hole_mtx[MOLEHOLES]] is a list of flags, [true] for a locked mutex.
    The mutexes are default ones: unlocking one that is not locked, and
    indexing outside the array, are undefined. *)

Definition EBUSY : Z := 16.

Definition hole_mtx_init : list bool := repeat false (Z.to_nat MOLEHOLES).

Fixpoint set_lock (locks : list bool) (n : nat) (v : bool) : list bool :=
  match locks, n with
  | [], _ => []
  | _ :: rest, O => v :: rest
  | b :: rest, S n' => b :: set_lock rest n' v
  end.

(** The state of [hole_mtx[h]]; [None] outside the array. *)
Definition hole_locked (locks : list bool) (h : Z) : option bool :=
  if (0 <=? h) && (h <? MOLEHOLES) then nth_error locks (Z.to_nat h)
  else None.

(** [pthread_mutex_trylock(&hole_mtx[h])]: the error code and the new
    state. *)
Definition pthread_mutex_trylock (locks : list bool) (h : Z)
  : option (Z * list bool) :=
  match hole_locked locks h with
  | Some false => Some (0, set_lock locks (Z.to_nat h) true)
  | Some true => Some (EBUSY, locks)
  | None => None
  end.

(** [pthread_mutex_unlock(&hole_mtx[h])] *)
Definition pthread_mutex_unlock (locks : list bool) (h : Z)
  : option (list bool) :=
  match hole_locked locks h with
  | Some true => Some (set_lock locks (Z.to_nat h) false)
  | _ => None
  end.

(** What the other threads do to the locks while this one sleeps or
    waits: one function per sleep. *)
Definition lock_moves : Type := list (list bool -> list bool).

(** The [for (;;)] of [claim_mole_hole(-1)]: draw a hole, try its lock,
    sleep 10 ms and draw again when it is busy.  [rnd k] is the k-th
    value of [tsrandom()]. *)
Fixpoint claim_any (rnd : nat -> Z) (k : nat) (locks : list bool)
    (others : lock_moves) {struct others}
  : outcome (Z * list bool * lock_moves) :=
  let molehole := to_int (long_rem (rnd k) MOLEHOLES) in
  match pthread_mutex_trylock locks molehole with
  | None => Undefined
  | Some (err, locks') =>
      if err =? 0 then Returned (molehole, locks', others)
      else
        match others with
        | [] => Blocked
        | f :: rest => claim_any rnd (S k) (f locks) rest
        end
  end.

(** [pthread_mutex_lock(&hole_mtx[h])]: wait until the lock is free. *)
Fixpoint pthread_mutex_lock (locks : list bool) (h : Z) (others : lock_moves)
    {struct others} : outcome (list bool * lock_moves) :=
  match pthread_mutex_trylock locks h with
  | None => Undefined
  | Some (err, locks') =>
      if err =? 0 then Returned (locks', others)
      else
        match others with
        | [] => Blocked
        | f :: rest => pthread_mutex_lock (f locks) h rest
        end
  end.

Definition claim_mole_hole (molehole : Z) (rnd : nat -> Z)
    (locks : list bool) (others : lock_moves)
  : outcome (Z * list bool * lock_moves) :=
  if (molehole <? -1) || (molehole >=? MOLEHOLES) then Aborted
  else if molehole =? -1 then claim_any rnd 0 locks others
  else
    x <- pthread_mutex_lock locks molehole others ;;
    Returned (molehole, fst x, snd x).

(** [check_mole_hole]: 1 = already claimed, 0 = available. *)
Definition check_mole_hole (molehole : Z) (locks : list bool)
  : outcome (Z * list bool) :=
  if (molehole <? 0) || (molehole >=? MOLEHOLES) then Aborted
  else
    match pthread_mutex_trylock locks molehole with
    | None => Undefined
    | Some (err, locks') =>
        if err =? 0 then
          x <- defined (pthread_mutex_unlock locks' molehole) ;;
          Returned (0, x)
        else Returned (1, locks)
    end.

Definition release_mole_hole (molehole : Z) (locks : list bool)
  : outcome (list bool) :=
  defined (pthread_mutex_unlock locks molehole).

(** The lock state after the first [n] sleeps. *)
Definition after_moves (moves : lock_moves) (locks : list bool)
  : list bool :=
  fold_left (fun l f => f l) moves locks.

(** ** Timers

    The scheduler and the display thread both turn "this moment plus a
    fixed number of milliseconds" into a timespec with the same five
    lines: [tsexp.tv_nsec += (msec % 1000) * MSEC;
    tsexp.tv_sec += msec / 1000;
    if (tsexp.tv_nsec >= 1000000000L) { tsexp.tv_nsec -= 1000000000L;
    tsexp.tv_sec++; }] *)
Definition timer_expiry (msec : Z) (ts : timespec) : timespec :=
  let nsec := long_add (tv_nsec ts) (long_mul (Z.rem msec 1000) MSEC) in
  let sec := long_add (tv_sec ts) (Z.quot msec 1000) in
  if nsec >=? 1000000000
  then mk_timespec (long_add sec 1) (long_sub nsec 1000000000)
  else mk_timespec sec nsec.

(** [control_moles]: the end of a row's scared cooldown. *)
Definition scared_expiry (scaredtime : timespec) : timespec :=
  timer_expiry SCAREDDURATION scaredtime.

(** [display_thread]: [MisfireDisplayTime] after a penalty. *)
Definition MisfireDisplayTime : Z := 1500.
Definition misfire_expiry (tsnow : timespec) : timespec :=
  timer_expiry MisfireDisplayTime tsnow.

(** [a.tv_sec > b.tv_sec || (a.tv_sec == b.tv_sec && a.tv_nsec > b.tv_nsec)] *)
Definition timespec_after (a b : timespec) : bool :=
  (tv_sec a >? tv_sec b)
  || ((tv_sec a =? tv_sec b) && (tv_nsec a >? tv_nsec b)).

Definition normalized (t : timespec) : Prop := 0 <= tv_nsec t < 1000000000.

(** ** The lifecycle scheduler: [control_moles] *)

Definition clamp_count (count : Z) : Z :=
  let c := if count <? 1 then 1 else count in
  if c >? MAXPOPUPCOUNT then MAXPOPUPCOUNT else c.

(** [p->mole = ...; p->threadslot = idx; p->duration = duration;] *)
Definition row_assign (mole threadslot duration : Z) (p : MoleCommRecord)
  : MoleCommRecord :=
  Mole.mk (Mole.molestatus p) (Mole.displayack p) (Mole.thread p)
          (Mole.keycond p) (Mole.dispcond p) threadslot mole duration
          (Mole.uptime p) (Mole.hole p) (Mole.keystruck p)
          (Mole.animthread p) (Mole.animspec p) (Mole.animcancelled p)
          (Mole.scoreidx p) (Mole.scaredflag p) (Mole.scaredtime p).

(** What [pthread_cond_init] (twice) and [pthread_create] store. *)
Definition row_handles (thread keycond dispcond : Z) (p : MoleCommRecord)
  : MoleCommRecord :=
  Mole.mk (Mole.molestatus p) (Mole.displayack p) thread keycond dispcond
          (Mole.threadslot p) (Mole.mole p) (Mole.duration p)
          (Mole.uptime p) (Mole.hole p) (Mole.keystruck p)
          (Mole.animthread p) (Mole.animspec p) (Mole.animcancelled p)
          (Mole.scoreidx p) (Mole.scaredflag p) (Mole.scaredtime p).

Fixpoint set_row (tbl : list MoleCommRecord) (n : nat) (p : MoleCommRecord)
  : list MoleCommRecord :=
  match tbl, n with
  | [], _ => []
  | _ :: rest, O => p :: rest
  | r :: rest, S n' => r :: set_row rest n' p
  end.

(** The local variables of [control_moles] with the table. *)
Record scheduler := mk_scheduler {
  sch_table : list MoleCommRecord;
  molesstarted : Z;
  molescompleted : Z;
  sch_idx : Z
}.

Definition scheduler_init : scheduler := mk_scheduler molecomm_init 0 0 0.

(** One turn of the [while (molescompleted < count)] loop, for the row
    at [idx]: [tsnow] is the monotonic clock, the three handles are what
    the pthread library hands out when a controller is started. *)
Definition control_moles_turn (count duration : Z) (tsnow : timespec)
    (thread keycond dispcond : Z) (s : scheduler) : outcome scheduler :=
  let idx := sch_idx s in
  let next := if int_add idx 1 =? CONCURRENTMOLES then 0 else int_add idx 1 in
  match nth_error (sch_table s) (Z.to_nat idx) with
  | None => Undefined
  | Some p =>
      if timespec_after tsnow (scared_expiry (Mole.scaredtime p)) then
        match Mole.molestatus p with
        | AVAILABLE =>
            if molesstarted s <? count then
              x <- set_mole_status
                     (row_assign (int_add (molesstarted s) 1) idx duration p)
                     ASSIGNED [] ;;
              Returned
                (mk_scheduler
                   (set_row (sch_table s) (Z.to_nat idx)
                            (row_handles thread keycond dispcond (fst x)))
                   (int_add (molesstarted s) 1) (molescompleted s) next)
            else
              Returned (mk_scheduler (sch_table s) (molesstarted s)
                                     (molescompleted s) next)
        | COMPLETE =>
            x <- set_mole_status p AVAILABLE [] ;;
            Returned
              (mk_scheduler (set_row (sch_table s) (Z.to_nat idx) (fst x))
                            (molesstarted s)
                            (int_add (molescompleted s) 1) next)
        | _ =>
            Returned (mk_scheduler (sch_table s) (molesstarted s)
                                   (molescompleted s) next)
        end
      else
        Returned (mk_scheduler (sch_table s) (molesstarted s)
                               (molescompleted s) next)
  end.

Definition is_available (r : MoleCommRecord) : bool :=
  MoleStatus_eqb (Mole.molestatus r) AVAILABLE.

(** The rows a controller owns: those not AVAILABLE. *)
Fixpoint count_active (tbl : list MoleCommRecord) : Z :=
  match tbl with
  | [] => 0
  | r :: rest => (if is_available r then 0 else 1) + count_active rest
  end.

(** What the scheduler can reach: it starts from the zeroed table, takes
    turns while [molescompleted < count], and between its turns the
    controllers move their rows through statuses other than AVAILABLE
    (no controller sets AVAILABLE or leaves it: only [control_moles]
    calls [set_mole_status] with ASSIGNED and AVAILABLE). *)
Inductive scheduler_reaches (count duration : Z) : scheduler -> Prop :=
| reach_start : scheduler_reaches count duration scheduler_init
| reach_turn (s s' : scheduler) (tsnow : timespec)
             (thread keycond dispcond : Z) :
    scheduler_reaches count duration s ->
    molescompleted s < count ->
    control_moles_turn count duration tsnow thread keycond dispcond s
    = Returned s' ->
    scheduler_reaches count duration s'
| reach_moles (s : scheduler) (tbl' : list MoleCommRecord) :
    scheduler_reaches count duration s ->
    Forall2 (fun r r' => is_available r = is_available r')
            (sch_table s) tbl' ->
    scheduler_reaches count duration
      (mk_scheduler tbl' (molesstarted s) (molescompleted s) (sch_idx s)).

(** The invariant of the scheduler: three rows, and the controllers
    started and not yet reaped are the rows that are not AVAILABLE. *)
Definition scheduler_inv (count : Z) (s : scheduler) : Prop :=
  length (sch_table s) = Z.to_nat CONCURRENTMOLES /\
  0 <= molescompleted s /\
  molesstarted s = molescompleted s + count_active (sch_table s) /\
  molesstarted s <= count /\
  0 <= sch_idx s < CONCURRENTMOLES.

(** ** The display bridge: acknowledging a changed row

    For a row whose status differs from the one seen on the previous
    pass, the bridge clears the old descriptor (except when the row has
    just gone HIDING), installs the new one, resets the cancel flag,
    starts the animation thread ([tid] is the id [pthread_create]
    stores) and copies the status into [displayack].  The writes are
    listed in the order of the code; the [pthread_join] of the previous
    animation thread writes nothing to the row and is not recorded. *)
Definition bridge_writes (pnew live : MoleCommRecord) (sc : ScoreState)
    (tid : Z) : outcome (list row_write) :=
  let start (a : option AnimationSpec) : list row_write :=
    match a with
    | Some a => [W_animspec a; W_animcancelled 0; W_animthread tid]
    | None => []
    end in
  match Mole.molestatus pnew with
  | HIDING =>
      a <- launch_descriptor pnew live sc ;;
      Returned (start a ++ [W_displayack])
  | UP | WHACKED | EXPIRED | SCARED =>
      a <- launch_descriptor pnew live sc ;;
      Returned (W_animspec Anim.zero :: start a ++ [W_displayack])
  | TERMINATING => Returned [W_animspec Anim.zero; W_displayack]
  | _ => Returned [W_displayack]
  end.

(** [if (pnew->molestatus == pold->molestatus) continue;] *)
Definition bridge_row (pold pnew live : MoleCommRecord) (sc : ScoreState)
    (tid : Z) : outcome (list row_write) :=
  if MoleStatus_eqb (Mole.molestatus pnew) (Mole.molestatus pold)
  then Returned []
  else bridge_writes pnew live sc tid.

(** ** The display bridge: a new record in the log

    When the new record is a penalty, every active concealment or
    exposure animation is cancelled and flagged as finished, then every
    row gets the offending key in [keystruck] and its key condition is
    signalled. *)
Definition penalty_broadcast (selection : Z) (tbl : list MoleCommRecord)
  : list MoleCommRecord * list sys_call :=
  let cancelled := map cancel_active tbl in
  (map (fun x => Mole.set_keystruck selection (fst x)) cancelled,
   flat_map snd cancelled
   ++ map (fun x => pthread_cond_signal (Mole.keycond (fst x))) cancelled).

Definition bridge_new_score (tscore : ScoreSheetRecord)
    (tbl : list MoleCommRecord) : list MoleCommRecord * list sys_call :=
  if PlayResult_eqb (Score.playresult tscore) MISFIRE
     || PlayResult_eqb (Score.playresult tscore) TOOSOON
  then penalty_broadcast (Score.selection tscore) tbl
  else (tbl, []).

(** The test the controller polls for the end of an animation:
    [syncpoints > 0 && synccount == syncpoints]. *)
Definition animation_done (r : MoleCommRecord) : bool :=
  (Anim.syncpoints (Mole.animspec r) >? 0)
  && (Anim.synccount (Mole.animspec r) =? Anim.syncpoints (Mole.animspec r)).

(** ** The display bridge: the misfire panel of one hole

    [misfires[i]] holds a flag (1 = panel shown) and the time the panel
    is due to go.  While the time has not come the bridge shows the panel
    and takes the lock of the hole, unless a mole has it; afterwards it
    takes the panel down and gives the lock back.  [between] is what the
    other threads do to the locks between the probe and the claim,
    [others] what they do while the claim waits. *)
Record misfire_slot := mk_misfire_slot {
  mf_status : Z;
  mf_timer : timespec
}.

Definition misfire_turn (now : timespec) (i : Z) (m : misfire_slot)
    (locks : list bool) (between : list bool -> list bool)
    (others : lock_moves)
  : outcome (misfire_slot * list bool * list anim_event) :=
  if timespec_after (mf_timer m) now then
    if mf_status m =? 0 then
      c <- check_mole_hole i locks ;;
      if fst c =? 0 then
        x <- claim_mole_hole i (fun _ => 0) (between (snd c)) others ;;
        Returned (mk_misfire_slot 1 (mf_timer m), snd (fst x),
                  [ShowResult i MOLEHOLES (Some MISFIRE) 0 0 None])
      else Returned (m, snd c, [])
    else Returned (m, locks, [])
  else
    if mf_status m =? 1 then
      l <- release_mole_hole i locks ;;
      Returned (mk_misfire_slot 0 (mf_timer m), l,
                [ShowResult i MOLEHOLES None 0 0 (Some ""%string)])
    else Returned (m, locks, []).

(** ** Time spent asleep

    [nanosleep] with a negative field or with [tv_nsec] of a second or
    more fails with EINVAL and returns at once; the animation thread does
    not look at its result. *)
Definition nanosleep_ns (sec nsec : Z) : Z :=
  if (0 <=? sec) && (0 <=? nsec) && (nsec <? 1000000000)
  then sec * 1000000000 + nsec
  else 0.

(** The time a run spends in [nanosleep], in nanoseconds. *)
Fixpoint sleep_ns (evs : list anim_event) : Z :=
  match evs with
  | [] => 0
  | Nanosleep sec nsec :: evs' => nanosleep_ns sec nsec + sleep_ns evs'
  | _ :: evs' => sleep_ns evs'
  end.

(** ** The playfield: [holescreencoords] and [show_mole] *)

Record HoleScreenCoords := mk_HoleScreenCoords {
  hsc_top : list Z;
  hsc_height : list Z;
  hsc_left : Z
}.

Definition holescreencoords : list HoleScreenCoords :=
  [mk_HoleScreenCoords [6; 5; 4; 3; 2] [1; 2; 3; 4; 5] 4;
   mk_HoleScreenCoords [6; 5; 4; 3; 2] [1; 2; 3; 4; 5] 18;
   mk_HoleScreenCoords [6; 5; 4; 3; 2] [1; 2; 3; 4; 5] 32;
   mk_HoleScreenCoords [13; 12; 11; 10; 9] [1; 2; 3; 4; 5] 4;
   mk_HoleScreenCoords [13; 12; 11; 10; 9] [1; 2; 3; 4; 5] 18;
   mk_HoleScreenCoords [13; 12; 11; 10; 9] [1; 2; 3; 4; 5] 32;
   mk_HoleScreenCoords [20; 19; 18; 17; 16] [1; 2; 3; 4; 5] 4;
   mk_HoleScreenCoords [20; 19; 18; 17; 16] [1; 2; 3; 4; 5] 18;
   mk_HoleScreenCoords [20; 19; 18; 17; 16] [1; 2; 3; 4; 5] 32].

(** [sizeof(asciimole) / sizeof(char* )]: the five lines of the mole,
    each eight characters wide. *)
Definition moleheight : Z := 5.
Definition molewidth : Z := 8.

(** What one [mvprintw] of [show_mole] writes: eight blanks, or line
    [i] of [asciimole]. *)
Inductive mole_text :=
| Blank8
| MoleLine (i : Z).

Record mvprintw_call := mk_mvprintw {
  pr_row : Z;
  pr_col : Z;
  pr_text : mole_text
}.

(** An array read; an index outside the array is undefined. *)
Definition array_at {A : Type} (l : list A) (i : Z) : option A :=
  if 0 <=? i then nth_error l (Z.to_nat i) else None.

(** [for (i = ...; i < n; i++) mvprintw(top + i, left, text[i]);] with
    [n] turns left to go. *)
Fixpoint paint_lines (n : nat) (i top left : Z) (text : Z -> mole_text)
  : list mvprintw_call :=
  match n with
  | O => []
  | S n' =>
      mk_mvprintw (int_add top i) left (text i)
        :: paint_lines n' (int_add i 1) top left text
  end.

Definition show_mole (hole maxholes level : Z)
  : outcome (list mvprintw_call) :=
  if maxholes =? MOLEHOLES then
    hsc <- defined (array_at holescreencoords hole) ;;
    t0 <- defined (array_at (hsc_top hsc) (int_sub moleheight 1)) ;;
    let blank :=
      paint_lines (Z.to_nat moleheight) 0 t0 (hsc_left hsc)
                  (fun _ => Blank8) in
    if level >? 0 then
      h <- defined (array_at (hsc_height hsc) (int_sub level 1)) ;;
      t <- defined (array_at (hsc_top hsc) (int_sub level 1)) ;;
      Returned (blank ++ paint_lines (Z.to_nat h) 0 t (hsc_left hsc) MoleLine)
    else Returned blank
  else Aborted.

(** The frames of a run, as calls of [show_mole]. *)
Fixpoint frames (evs : list anim_event) : list (Z * Z * Z) :=
  match evs with
  | [] => []
  | ShowMole hole numholes level :: evs' =>
      (hole, numholes, level) :: frames evs'
  | _ :: evs' => frames evs'
  end.

(** The character cells of the box of a hole: five rows from
    [top[moleheight - 1]], eight columns from [left]. *)
Definition in_box (hsc : HoleScreenCoords) (row col : Z) : Prop :=
  nth 4 (hsc_top hsc) 0 <= row < nth 4 (hsc_top hsc) 0 + moleheight /\
  hsc_left hsc <= col < hsc_left hsc + molewidth.

(** ** The score sheet: [display_score_sheet] *)

Definition score_set_mole (v : Z) (r : ScoreSheetRecord) : ScoreSheetRecord :=
  Score.mk (Score.totaltime r) (Score.remainingtime r) v (Score.hole r)
           (Score.startscore r) (Score.missedscore r) (Score.whackedscore r)
           (Score.bonusscore r) (Score.penaltyscore r) (Score.endscore r)
           (Score.playresult r) (Score.selection r).

(** [for (i=0; i<numscores; i++)
       if (scores[i].mole > 0) scores[i].mole = molenum++;] *)
Fixpoint renumber_moles (l : list ScoreSheetRecord) (molenum : Z)
  : list ScoreSheetRecord :=
  match l with
  | [] => []
  | r :: rest =>
      if Score.mole r >? 0
      then score_set_mole molenum r :: renumber_moles rest (int_add molenum 1)
      else r :: renumber_moles rest molenum
  end.

Definition EXTRALINES : Z := 12.

(** [int pagesize = (LINES - EXTRALINES);] *)
Definition sheet_pagesize (LINES : Z) : Z := int_sub LINES EXTRALINES.

(** [int pages = (numscores + (pagesize -1))/ (LINES - EXTRALINES);]
    A division by zero is undefined. *)
Definition sheet_pages (numscores LINES : Z) : option Z :=
  if int_sub LINES EXTRALINES =? 0 then None
  else Some (int_div (int_add numscores (int_sub (sheet_pagesize LINES) 1))
                     (int_sub LINES EXTRALINES)).

(** [toupper] in the C locale. *)
Definition toupper (c : Z) : Z :=
  if (char_code "a" <=? c) && (c <=? char_code "z") then c - 32 else c.

(** The [switch (cmd)] of the score sheet. *)
Definition page_command (cmd pages currentpage : Z) : Z :=
  if cmd =? char_code "1" then 0
  else if cmd =? char_code "P" then
    if int_sub currentpage 1 <? 0 then 0 else int_sub currentpage 1
  else if cmd =? char_code "N" then
    if int_add currentpage 1 >=? pages then int_sub pages 1
    else int_add currentpage 1
  else if cmd =? char_code "L" then int_sub pages 1
  else currentpage.

(** The indices of the records a page prints:
    [for (i=startat; i<numscores && i<startat+pagesize; i++)], with
    [fuel] turns; the flag tells whether the loop ended within them. *)
Fixpoint page_rows_from (fuel : nat) (i numscores stop : Z)
  : list Z * bool :=
  if (i <? numscores) && (i <? stop) then
    match fuel with
    | O => ([], false)
    | S fuel' =>
        let '(rows, ended) :=
          page_rows_from fuel' (int_add i 1) numscores stop in
        (i :: rows, ended)
    end
  else ([], true).

Definition page_rows (fuel : nat) (numscores pagesize currentpage : Z)
  : list Z * bool :=
  let startat := int_mul currentpage pagesize in
  page_rows_from fuel startat numscores (int_add startat pagesize).

(** The pages the [while (toupper(cmd) != 'Q')] loop displays, one per
    turn, for the keys [waitforkey] returns. *)
Fixpoint sheet_loop (keys : list Z) (pages currentpage : Z) : list Z :=
  currentpage ::
  match keys with
  | [] => []
  | key :: keys' =>
      let cmd := toupper key in
      if cmd =? char_code "Q" then []
      else sheet_loop keys' pages (page_command cmd pages currentpage)
  end.

(** What identifies a row to the other threads: its status, hole, mole
    number and record index. *)
Definition row_identity (r : MoleCommRecord) : MoleStatus * Z * Z * Z :=
  (Mole.molestatus r, Mole.hole r, Mole.mole r, Mole.scoreidx r).

(* ================================================================== *)
(** * Part II: properties                                              *)
(* ================================================================== *)

(** ** Machine arithmetic *)

Lemma to_int_id (z : Z) : in_int z -> to_int z = z.
Proof.
  unfold in_int, INT_MIN, INT_MAX, to_int, wrap. intros H.
  change (2 ^ (32 - 1)) with 2147483648.
  change (2 ^ 32) with 4294967296.
  rewrite Z.mod_small; lia.
Qed.

Lemma to_int_range (z : Z) : in_int (to_int z).
Proof.
  unfold in_int, INT_MIN, INT_MAX, to_int, wrap.
  change (2 ^ (32 - 1)) with 2147483648.
  change (2 ^ 32) with 4294967296.
  pose proof (Z.mod_pos_bound (z + 2147483648) 4294967296). lia.
Qed.

Lemma to_long_id (z : Z) : in_long z -> to_long z = z.
Proof.
  unfold in_long, LONG_MIN, LONG_MAX, to_long, wrap. intros H.
  change (2 ^ (64 - 1)) with 9223372036854775808.
  change (2 ^ 64) with 18446744073709551616.
  rewrite Z.mod_small; lia.
Qed.

(** Remove the conversions to [int] that cannot overflow. *)
Ltac int_simpl :=
  repeat match goal with
         | |- context [to_int ?z] =>
             rewrite (to_int_id z) by (unfold in_int, INT_MIN, INT_MAX; lia)
         end.

(** ** The scorer *)

Example compute_score_first_miss :
  option_map (fun x => map Score.endscore (scores (fst x)))
             (compute_score score_init 1 4 0 0 ESCAPE) = Some [0].
Proof. reflexivity. Qed.

Example compute_score_whack_then_misses :
  option_map (fun st => map Score.endscore (scores st))
    (run_scores [mk_score_call 1 4 52 4 WHACK; mk_score_call 2 0 0 0 ESCAPE;
                 mk_score_call 3 1 0 0 SCAREDOFF;
                 mk_score_call (-1) 2 57 0 MISFIRE]
       score_init) = Some [100; 90; 70; 70].
Proof. reflexivity. Qed.

Lemma numscores_snoc (st st' : ScoreState) (r : ScoreSheetRecord) :
  scores st' = scores st ++ [r] -> numscores st' = numscores st + 1.
Proof. unfold numscores. intros ->. rewrite length_app; simpl. lia. Qed.

Lemma curscore_snoc (st st' : ScoreState) (r : ScoreSheetRecord) :
  scores st' = scores st ++ [r] -> curscore st' = Score.endscore r.
Proof.
  intros H. unfold curscore, numscores. rewrite H, length_app.
  cbn [length].
  replace (Z.of_nat (length (scores st) + 1) >? 0) with true
    by (symmetry; apply Z.gtb_lt; lia).
  replace (Z.to_nat (Z.of_nat (length (scores st) + 1) - 1))
    with (length (scores st)) by lia.
  rewrite nth_error_app2 by lia. rewrite Nat.sub_diag. reflexivity.
Qed.

Lemma miss_count_app (l : list ScoreSheetRecord) (r : ScoreSheetRecord) :
  miss_count (l ++ [r]) =
  miss_count l + (if is_miss (Score.playresult r) then 1 else 0).
Proof.
  unfold miss_count. rewrite filter_app, length_app, Nat2Z.inj_add.
  cbn [filter]. destruct (is_miss (Score.playresult r)); reflexivity.
Qed.

Lemma miss_count_bounds (l : list ScoreSheetRecord) :
  0 <= miss_count l <= Z.of_nat (length l).
Proof.
  unfold miss_count.
  pose proof (filter_length_le (fun r => is_miss (Score.playresult r)) l).
  lia.
Qed.

Lemma BONUSPOINTS_bounds (i : Z) :
  0 <= nth (Z.to_nat i) BONUSPOINTS 0 <= 80.
Proof.
  destruct (Z.to_nat i) as [|[|[|[|[|[|n]]]]]]; simpl; lia.
Qed.

(** Every score stored in the log has been converted to [int]. *)
Lemma curscore_step_in_int (st st' : ScoreState) (c : score_call) (i : Z) :
  do_call st c = Some (st', i) -> in_int (curscore st').
Proof.
  unfold do_call, compute_score, record_results.
  destruct (call_result c);
    try destruct (_ && _); intros H; inversion H; subst; clear H;
    (erewrite curscore_snoc by (cbn [scores]; reflexivity));
    cbn [Score.endscore]; unfold int_add; apply to_int_range.
Qed.

Lemma curscore_init_in_int : in_int (curscore score_init).
Proof.
  change (curscore score_init) with 0. unfold in_int, INT_MIN, INT_MAX. lia.
Qed.

Lemma run_scores_in_int (cs : list score_call) :
  forall st st',
    in_int (curscore st) -> run_scores cs st = Some st' ->
    in_int (curscore st').
Proof.
  induction cs as [|c cs IH]; simpl; intros st st' Hin Hrun.
  - inversion Hrun; subst; assumption.
  - destruct (do_call st c) as [[st1 i]|] eqn:Hc; [|discriminate].
    eapply IH; [|eassumption]. eapply curscore_step_in_int; eassumption.
Qed.


Lemma score_inv_init : score_inv score_init.
Proof.
  unfold score_inv. change (curscore score_init) with 0.
  change (numscores score_init) with 0. split; [reflexivity | lia].
Qed.

(** What a miss does to a log that satisfies the invariant. *)
Lemma compute_score_miss (st : ScoreState) (mole hole key bonusstage : Z)
      (pr : PlayResult) :
  score_inv st -> numscores st < MAXLOG -> is_miss pr = true ->
  exists st' idx rec,
    compute_score st mole hole key bonusstage pr = Some (st', idx) /\
    scores st' = scores st ++ [rec] /\
    missedcount st' = missedcount st + 1 /\
    Score.playresult rec = pr /\
    Score.startscore rec = curscore st /\
    Score.missedscore rec =
      - Z.min (curscore st) (Z.min 50 (10 * (missedcount st + 1))) /\
    Score.endscore rec =
      Z.max 0 (curscore st - Z.min 50 (10 * (missedcount st + 1))).
Proof.
  intros [Hmc [Hlo Hhi]] Hlen Hmiss.
  pose proof (miss_count_bounds (scores st)) as Hb.
  unfold numscores, MAXLOG in *.
  assert (Hcount : int_add (missedcount st) 1 = missedcount st + 1).
  { unfold int_add. apply to_int_id. unfold in_int, INT_MIN, INT_MAX. lia. }
  assert (Hm0 : int_mul (int_mul (missedcount st + 1) MISSEDMOLESCORE)
                        MISSEDMOLEMULTIPLIER = -10 * (missedcount st + 1)).
  { unfold int_mul, MISSEDMOLESCORE, MISSEDMOLEMULTIPLIER.
    rewrite (to_int_id ((missedcount st + 1) * -10))
      by (unfold in_int, INT_MIN, INT_MAX; lia).
    rewrite to_int_id by (unfold in_int, INT_MIN, INT_MAX; lia). lia. }
  set (m1 := if -10 * (missedcount st + 1) <? MISSEDMOLECAP
             then MISSEDMOLECAP else -10 * (missedcount st + 1)).
  assert (Hm1 : m1 = - Z.min 50 (10 * (missedcount st + 1))).
  { unfold m1, MISSEDMOLECAP.
    destruct (Z.ltb_spec (-10 * (missedcount st + 1)) (-50)); lia. }
  assert (Hneg1 : int_neg m1 = - m1).
  { unfold int_neg. apply to_int_id. unfold in_int, INT_MIN, INT_MAX. lia. }
  assert (Hnegc : int_neg (curscore st) = - curscore st).
  { unfold int_neg. apply to_int_id. unfold in_int, INT_MIN, INT_MAX. lia. }
  set (m2 := if int_neg m1 >? curscore st then int_neg (curscore st) else m1).
  assert (Hm2 : m2 = - Z.min (curscore st)
                         (Z.min 50 (10 * (missedcount st + 1)))).
  { unfold m2. rewrite Hneg1, Hnegc.
    destruct (Z.gtb_spec (- m1) (curscore st)); lia. }
  assert (Hend : int_add (int_add (int_add (int_add (curscore st) m2) 0) 0) 0
                 = curscore st + m2).
  { unfold int_add. rewrite !Z.add_0_r.
    repeat rewrite (to_int_id (curscore st + m2))
      by (unfold in_int, INT_MIN, INT_MAX; lia).
    reflexivity. }
  assert (Hcs : compute_score st mole hole key bonusstage pr =
                Some (record_results
                        (mk_ScoreState (scores st) (missedcount st + 1))
                        mole hole key (curscore st) m2 0 0 0
                        (curscore st + m2) pr)).
  { unfold compute_score.
    destruct pr; try discriminate Hmiss;
      rewrite Hcount, Hm0; fold m1; fold m2; rewrite Hend; reflexivity. }
  rewrite Hcs. unfold record_results. cbn [scores missedcount].
  eexists _, _, _. split; [reflexivity|].
  cbn [scores missedcount Score.playresult Score.startscore
       Score.missedscore Score.endscore].
  repeat split; try reflexivity; try assumption.
  cbn [Score.endscore]. clearbody m1 m2. lia.
Qed.

(** What a penalty does to the log. *)
Lemma compute_score_penalty (st : ScoreState) (mole hole key bonusstage : Z)
      (pr : PlayResult) :
  in_int (curscore st) -> is_penalty pr = true ->
  exists st' idx rec,
    compute_score st mole hole key bonusstage pr = Some (st', idx) /\
    scores st' = scores st ++ [rec] /\
    missedcount st' = missedcount st /\
    idx = numscores st /\
    rec = Score.mk None None mole hole (curscore st) 0 0 0 0 (curscore st)
                   pr key.
Proof.
  intros Hin Hp.
  assert (Hend : int_add (int_add (int_add (int_add (curscore st) 0) 0) 0) 0
                 = curscore st).
  { unfold int_add. rewrite !Z.add_0_r.
    repeat rewrite (to_int_id (curscore st)) by assumption. reflexivity. }
  unfold compute_score, record_results.
  destruct pr; try discriminate Hp; rewrite Hend;
    (eexists _, _, _; split; [reflexivity|]); cbn [scores missedcount];
    repeat split; unfold numscores; cbn [scores];
    rewrite length_app; simpl; lia.
Qed.

Lemma score_inv_step (st st' : ScoreState) (c : score_call) (i : Z) :
  score_inv st -> numscores st < MAXLOG -> do_call st c = Some (st', i) ->
  score_inv st' /\ numscores st' = numscores st + 1.
Proof.
  intros Hinv Hlen Hc.
  assert (Hgen : forall rec,
             scores st' = scores st ++ [rec] ->
             missedcount st' =
               missedcount st + (if is_miss (Score.playresult rec)
                                 then 1 else 0) ->
             0 <= Score.endscore rec <= curscore st + 100 ->
             score_inv st' /\ numscores st' = numscores st + 1).
  { intros rec Hsc Hmc Hend. destruct Hinv as [H1 [H2 H3]].
    pose proof (numscores_snoc st st' rec Hsc) as Hn.
    split; [|assumption]. split.
    - rewrite Hmc, Hsc, miss_count_app, H1. reflexivity.
    - rewrite (curscore_snoc st st' rec Hsc), Hn. lia. }
  destruct (is_miss (call_result c)) eqn:Hm.
  - destruct (compute_score_miss st (call_mole c) (call_hole c) (call_key c)
                (call_bonusstage c) (call_result c) Hinv Hlen Hm)
      as (st1 & idx & rec & Hcs & Hsc & Hmc & Hpr & _ & _ & Hend).
    unfold do_call in Hc. rewrite Hcs in Hc. inversion Hc; subst st1 idx.
    apply (Hgen rec Hsc).
    + rewrite Hpr, Hm. assumption.
    + destruct Hinv as [H1 [H2 _]].
      pose proof (miss_count_bounds (scores st)). lia.
  - destruct Hinv as [H1 [H2 H3]]. unfold MAXLOG in Hlen.
    unfold do_call, compute_score, record_results in Hc.
    destruct (call_result c) eqn:Hr; try discriminate Hm.
    + destruct (_ && _); [|discriminate].
      pose proof (BONUSPOINTS_bounds (call_bonusstage c)) as Hb.
      set (b := nth (Z.to_nat (call_bonusstage c)) BONUSPOINTS 0) in *.
      clearbody b.
      inversion Hc; subst st' i; clear Hc.
      eapply Hgen; [cbn [scores]; reflexivity | cbn; lia |].
      cbn [Score.endscore].
      change (int_add 0 WHACKEDMOLESCORE) with 20.
      unfold int_add. rewrite !Z.add_0_r. int_simpl. lia.
    + inversion Hc; subst st' i; clear Hc.
      eapply Hgen; [cbn [scores]; reflexivity | cbn; lia |].
      cbn [Score.endscore].
      unfold int_add. rewrite !Z.add_0_r. int_simpl. lia.
    + inversion Hc; subst st' i; clear Hc.
      eapply Hgen; [cbn [scores]; reflexivity | cbn; lia |].
      cbn [Score.endscore].
      unfold int_add. rewrite !Z.add_0_r. int_simpl. lia.
Qed.

Lemma run_scores_inv (cs : list score_call) :
  forall st st',
    score_inv st -> numscores st + Z.of_nat (length cs) <= MAXLOG ->
    run_scores cs st = Some st' ->
    score_inv st' /\ numscores st' = numscores st + Z.of_nat (length cs).
Proof.
  induction cs as [|c cs IH]; intros st st' Hinv Hlen Hrun.
  - simpl in Hrun. inversion Hrun; subst. simpl. split; [assumption | lia].
  - cbn [run_scores] in Hrun. cbn [length] in Hlen |- *.
    destruct (do_call st c) as [[st1 i]|] eqn:Hc; [|discriminate].
    destruct (score_inv_step st st1 c i Hinv ltac:(lia) Hc) as [Hinv1 Hn1].
    destruct (IH st1 st' Hinv1 ltac:(lia) Hrun) as [Hinv' Hn'].
    split; [assumption | lia].
Qed.

(** C3: after any history of fewer than MAXLOG scorer calls, a miss
    outcome (ESCAPE or SCAREDOFF) appends one record whose endscore is
    max(0, previousTotal - min(50, 10 * missCount)), where previousTotal
    is the running total before the call and missCount counts the miss
    records of the log including the new one; the new running total is
    that endscore and is not negative. *)
Theorem miss_endscore_formula
    (cs : list score_call) (st : ScoreState)
    (mole hole key bonusstage : Z) (pr : PlayResult) :
  run_scores cs score_init = Some st ->
  Z.of_nat (length cs) < MAXLOG ->
  is_miss pr = true ->
  exists st' idx rec,
    compute_score st mole hole key bonusstage pr = Some (st', idx) /\
    scores st' = scores st ++ [rec] /\
    Score.playresult rec = pr /\
    Score.endscore rec =
      Z.max 0 (curscore st - Z.min 50 (10 * miss_count (scores st'))) /\
    curscore st' = Score.endscore rec /\
    0 <= curscore st'.
Proof.
  intros Hrun Hlen Hmiss.
  destruct (run_scores_inv cs score_init st score_inv_init
              ltac:(change (numscores score_init) with 0; lia) Hrun)
    as [Hinv Hn].
  change (numscores score_init) with 0 in Hn.
  destruct (compute_score_miss st mole hole key bonusstage pr Hinv
              ltac:(lia) Hmiss)
    as (st' & idx & rec & Hcs & Hsc & Hmc & Hpr & _ & _ & Hend).
  exists st', idx, rec.
  pose proof (curscore_snoc st st' rec Hsc) as Hcur.
  destruct Hinv as [H1 _].
  assert (Hcount : miss_count (scores st') = missedcount st + 1).
  { rewrite Hsc, miss_count_app, Hpr, Hmiss, H1. reflexivity. }
  rewrite Hcount, Hcur.
  repeat split; try assumption. rewrite Hend. lia.
Qed.

Lemma miss_endscore_formula_witness :
  exists st' idx rec,
    compute_score
      (mk_ScoreState
         [Score.mk None None 1 4 0 0 20 80 0 100 WHACK 52] 0)
      2 3 0 0 ESCAPE = Some (st', idx) /\
    scores st' =
      [Score.mk None None 1 4 0 0 20 80 0 100 WHACK 52] ++ [rec] /\
    Score.playresult rec = ESCAPE /\
    Score.endscore rec =
      Z.max 0 (100 - Z.min 50 (10 * miss_count (scores st'))) /\
    curscore st' = Score.endscore rec /\
    0 <= curscore st'.
Proof.
  apply (miss_endscore_formula [mk_score_call 1 4 52 4 WHACK]
           (mk_ScoreState
              [Score.mk None None 1 4 0 0 20 80 0 100 WHACK 52] 0)
           2 3 0 0 ESCAPE).
  - reflexivity.
  - unfold MAXLOG; simpl; lia.
  - reflexivity.
Defined.

(** C10: after any history of scorer calls, a MISFIRE or TOOSOON
    outcome appends one record whose missedscore, whackedscore,
    bonusscore and penaltyscore are all zero and whose endscore is the
    running total before the outcome, so the running total is unchanged. *)
Theorem penalty_keeps_score
    (cs : list score_call) (st : ScoreState)
    (mole hole key bonusstage : Z) (pr : PlayResult) :
  run_scores cs score_init = Some st ->
  is_penalty pr = true ->
  exists st' idx rec,
    compute_score st mole hole key bonusstage pr = Some (st', idx) /\
    scores st' = scores st ++ [rec] /\
    Score.playresult rec = pr /\
    Score.missedscore rec = 0 /\ Score.whackedscore rec = 0 /\
    Score.bonusscore rec = 0 /\ Score.penaltyscore rec = 0 /\
    Score.startscore rec = curscore st /\
    Score.endscore rec = curscore st /\
    curscore st' = curscore st.
Proof.
  intros Hrun Hp.
  pose proof (run_scores_in_int cs score_init st curscore_init_in_int Hrun)
    as Hin.
  destruct (compute_score_penalty st mole hole key bonusstage pr Hin Hp)
    as (st' & idx & rec & Hcs & Hsc & _ & _ & Hrec).
  exists st', idx, rec.
  pose proof (curscore_snoc st st' rec Hsc) as Hcur.
  rewrite Hcur. subst rec. cbn. repeat split; assumption.
Qed.

Lemma penalty_keeps_score_witness :
  exists st' idx rec,
    compute_score
      (mk_ScoreState
         [Score.mk None None 1 4 0 0 20 80 0 100 WHACK 52] 0)
      (-1) 2 57 0 MISFIRE = Some (st', idx) /\
    scores st' =
      [Score.mk None None 1 4 0 0 20 80 0 100 WHACK 52] ++ [rec] /\
    Score.playresult rec = MISFIRE /\
    Score.missedscore rec = 0 /\ Score.whackedscore rec = 0 /\
    Score.bonusscore rec = 0 /\ Score.penaltyscore rec = 0 /\
    Score.startscore rec = 100 /\
    Score.endscore rec = 100 /\
    curscore st' = 100.
Proof.
  apply (penalty_keeps_score [mk_score_call 1 4 52 4 WHACK]
           (mk_ScoreState
              [Score.mk None None 1 4 0 0 20 80 0 100 WHACK 52] 0)
           (-1) 2 57 0 MISFIRE).
  - reflexivity.
  - reflexivity.
Defined.

(** ** [set_mole_status] and the transition graph *)

Lemma MoleStatus_eqb_eq (a b : MoleStatus) :
  MoleStatus_eqb a b = true <-> a = b.
Proof.
  unfold MoleStatus_eqb. rewrite Z.eqb_eq.
  split; [|intros ->; reflexivity].
  destruct a, b; simpl; intros H; try reflexivity; discriminate H.
Qed.

Lemma MoleStatus_eqb_refl (a : MoleStatus) : MoleStatus_eqb a a = true.
Proof. apply MoleStatus_eqb_eq. reflexivity. Qed.

(** The assertions of the code are the edges of the graph. *)
Lemma assert_predecessor_graph (cur newstatus : MoleStatus) :
  assert_predecessor cur newstatus = true <-> graph_edge cur newstatus.
Proof.
  split.
  - destruct cur, newstatus; simpl; intros H;
      try discriminate H; constructor.
  - intros H; destruct H; reflexivity.
Qed.

Lemma apply_write_molestatus (w : row_write) (p : MoleCommRecord) :
  Mole.molestatus (apply_write w p) = Mole.molestatus p.
Proof. destruct w; reflexivity. Qed.

Lemma apply_writes_molestatus (ws : list row_write) :
  forall p, Mole.molestatus (apply_writes ws p) = Mole.molestatus p.
Proof.
  unfold apply_writes.
  induction ws as [|w ws IH]; intros p; simpl; [reflexivity|].
  rewrite IH. apply apply_write_molestatus.
Qed.

(** The acknowledgment loop returns only with the mirror equal to the
    status, and never changes the status. *)
Lemma wait_displayack_returned (env : list wakeup) :
  forall p q env',
    wait_displayack p env = Returned (q, env') ->
    Mole.displayack q = Mole.molestatus q /\
    Mole.molestatus q = Mole.molestatus p.
Proof.
  induction env as [|w env IH]; intros p q env' H; simpl in H;
    destruct (MoleStatus_eqb (Mole.molestatus p) (Mole.displayack p)) eqn:E;
    simpl in H; try discriminate H.
  - inversion H; subst. apply MoleStatus_eqb_eq in E. auto.
  - inversion H; subst. apply MoleStatus_eqb_eq in E. auto.
  - destruct (wk_ret w =? 0); [|discriminate H].
    destruct (IH _ _ _ H) as [H1 H2]. split; [assumption|].
    rewrite H2. apply apply_writes_molestatus.
Qed.

Lemma set_mole_status_returned (p q : MoleCommRecord) (newstatus : MoleStatus)
      (env env' : list wakeup) :
  set_mole_status p newstatus env = Returned (q, env') ->
  graph_edge (Mole.molestatus p) newstatus /\ Mole.molestatus q = newstatus.
Proof.
  unfold set_mole_status.
  destruct (assert_predecessor (Mole.molestatus p) newstatus) eqn:Ha;
    [|discriminate].
  apply assert_predecessor_graph in Ha. intros H. split; [assumption|].
  destruct (waits_for_ack newstatus).
  - apply wait_displayack_returned in H. destruct H as [_ H].
    rewrite H. reflexivity.
  - inversion H; subst. reflexivity.
Qed.

Lemma set_mole_status_blocked (p : MoleCommRecord) (newstatus : MoleStatus)
      (env : list wakeup) :
  set_mole_status p newstatus env = Blocked ->
  graph_edge (Mole.molestatus p) newstatus.
Proof.
  unfold set_mole_status.
  destruct (assert_predecessor (Mole.molestatus p) newstatus) eqn:Ha;
    [|discriminate].
  intros _. apply assert_predecessor_graph. assumption.
Qed.

Lemma run_row_is_path (steps : list row_step) :
  forall p, is_path (Mole.molestatus p) (fst (run_row p steps)).
Proof.
  induction steps as [|[newstatus env|ws] rest IH]; intros p; simpl.
  - exact I.
  - destruct (set_mole_status p newstatus env) as [[q env']| | |] eqn:E.
    + destruct (set_mole_status_returned _ _ _ _ _ E) as [He Hq].
      specialize (IH q). destruct (run_row q rest) as [tr o]. simpl in *.
      rewrite Hq in *. split; assumption.
    + simpl. exact I.
    + simpl. split; [|exact I].
      eapply set_mole_status_blocked; eassumption.
    + simpl. exact I.
  - rewrite <- (apply_writes_molestatus ws p). apply IH.
Qed.

Example run_row_full_cycle :
  run_row Mole.zero
    [Call ASSIGNED []; Call HIDING [mk_wakeup [W_displayack] 0];
     Others [W_scared (mk_timespec 5 0)];
     Call SCARED []; Call TERMINATING [mk_wakeup [W_displayack] 0];
     Call COMPLETE []; Call AVAILABLE []]
  = ([ASSIGNED; HIDING; SCARED; TERMINATING; COMPLETE; AVAILABLE],
     Returned Mole.zero).
Proof. reflexivity. Qed.

Example set_mole_status_skip_aborts :
  set_mole_status (Mole.set_molestatus ASSIGNED Mole.zero) UP
                  [mk_wakeup [W_displayack] 0] = Aborted.
Proof. reflexivity. Qed.

(** C1: [set_mole_status] goes through only when the current status is
    a predecessor of the new one in the transition graph (AVAILABLE needs
    COMPLETE, ASSIGNED needs AVAILABLE, HIDING needs ASSIGNED, UP needs
    HIDING, WHACKED and EXPIRED need UP, SCARED needs HIDING or UP,
    TERMINATING needs WHACKED, EXPIRED or SCARED, COMPLETE needs
    TERMINATING); otherwise the assertion ends the process.  A call that
    returns leaves the new status in the row, so the statuses a row passes
    through, whatever the other threads write in between, form a path of
    the graph; out of HIDING the only edges go to UP and SCARED, out of UP
    to WHACKED, EXPIRED and SCARED. *)
Theorem set_mole_status_follows_graph :
  (forall cur newstatus,
      assert_predecessor cur newstatus = true <->
      match newstatus with
      | AVAILABLE => cur = COMPLETE
      | ASSIGNED => cur = AVAILABLE
      | HIDING => cur = ASSIGNED
      | UP => cur = HIDING
      | WHACKED | EXPIRED => cur = UP
      | SCARED => cur = HIDING \/ cur = UP
      | TERMINATING => cur = WHACKED \/ cur = EXPIRED \/ cur = SCARED
      | COMPLETE => cur = TERMINATING
      end) /\
  (forall cur newstatus,
      assert_predecessor cur newstatus = true <-> graph_edge cur newstatus) /\
  (forall p newstatus env,
      ~ graph_edge (Mole.molestatus p) newstatus ->
      set_mole_status p newstatus env = Aborted) /\
  (forall p newstatus env q env',
      set_mole_status p newstatus env = Returned (q, env') ->
      graph_edge (Mole.molestatus p) newstatus /\
      Mole.molestatus q = newstatus) /\
  (forall p steps, is_path (Mole.molestatus p) (fst (run_row p steps))) /\
  (forall s, graph_edge HIDING s <-> s = UP \/ s = SCARED) /\
  (forall s, graph_edge UP s <-> s = WHACKED \/ s = EXPIRED \/ s = SCARED).
Proof.
  split; [|split; [|split; [|split; [|split; [|split]]]]].
  - intros cur newstatus.
    destruct cur, newstatus; simpl; split; intros H;
      try reflexivity; try discriminate H; auto;
      repeat (destruct H as [H|H]); discriminate H.
  - apply assert_predecessor_graph.
  - intros p newstatus env Hne. unfold set_mole_status.
    destruct (assert_predecessor (Mole.molestatus p) newstatus) eqn:Ha;
      [|reflexivity].
    apply assert_predecessor_graph in Ha. contradiction.
  - intros p newstatus env q env'. apply set_mole_status_returned.
  - intros p steps. apply run_row_is_path.
  - intros s; split.
    + intros H; inversion H; auto.
    + intros [->| ->]; constructor.
  - intros s; split.
    + intros H; inversion H; auto.
    + intros [->|[->| ->]]; constructor.
Qed.

Lemma set_mole_status_follows_graph_witness :
  graph_edge (Mole.molestatus (row_hiding 4)) UP /\
  Mole.molestatus
    (Mole.set_displayack UP (Mole.set_molestatus UP (row_hiding 4))) = UP.
Proof.
  destruct set_mole_status_follows_graph as (_ & _ & _ & H & _).
  apply (H (row_hiding 4) UP [mk_wakeup [W_displayack] 0] _ []).
  reflexivity.
Defined.

(** ** The acknowledgment handshake *)

Lemma wait_displayack_acked (p : MoleCommRecord) (env : list wakeup) :
  Mole.displayack p = Mole.molestatus p ->
  wait_displayack p env = Returned (p, env).
Proof.
  intros H. destruct env; simpl; rewrite H, MoleStatus_eqb_refl; reflexivity.
Qed.

Lemma wait_displayack_unacked (p : MoleCommRecord) (w : wakeup)
      (env : list wakeup) :
  Mole.displayack p <> Mole.molestatus p -> wk_ret w = 0 ->
  wait_displayack p (w :: env) =
  wait_displayack (apply_writes (wk_writes w) p) env.
Proof.
  intros H Hr. simpl.
  destruct (MoleStatus_eqb (Mole.molestatus p) (Mole.displayack p)) eqn:E.
  - apply MoleStatus_eqb_eq in E. congruence.
  - simpl. rewrite Hr. reflexivity.
Qed.

(** Wakeups that all return 0, followed by the acknowledgment of the
    display thread, always end the wait. *)
Lemma wait_displayack_progress (pre : list wakeup) :
  forall p post,
    Forall (fun w => wk_ret w = 0) pre ->
    exists q env',
      wait_displayack p (pre ++ mk_wakeup [W_displayack] 0 :: post)
      = Returned (q, env').
Proof.
  induction pre as [|w pre IH]; intros p post Hpre.
  - destruct (MoleStatus_eqb (Mole.molestatus p) (Mole.displayack p)) eqn:E.
    + apply MoleStatus_eqb_eq in E. eexists _, _.
      apply wait_displayack_acked. congruence.
    + eexists _, _. cbn [app]. rewrite wait_displayack_unacked;
        [|intros Hc; rewrite Hc, MoleStatus_eqb_refl in E; discriminate E
         |reflexivity].
      apply wait_displayack_acked. reflexivity.
  - inversion Hpre as [|w' pre' Hw Hpre']; subst.
    destruct (MoleStatus_eqb (Mole.molestatus p) (Mole.displayack p)) eqn:E.
    + apply MoleStatus_eqb_eq in E. eexists _, _.
      apply wait_displayack_acked. congruence.
    + cbn [app]. rewrite wait_displayack_unacked;
        [|intros Hc; rewrite Hc, MoleStatus_eqb_refl in E; discriminate E
         |assumption].
      apply IH. assumption.
Qed.

Example set_mole_status_spurious_wakeup :
  set_mole_status (Mole.set_molestatus HIDING Mole.zero) UP
    [mk_wakeup [W_keystruck 55] 0; mk_wakeup [W_displayack] 0;
     mk_wakeup [] 0]
  = Returned
      (Mole.set_displayack UP
         (Mole.set_keystruck 55 (Mole.set_molestatus UP Mole.zero)),
       [mk_wakeup [] 0]).
Proof. reflexivity. Qed.

(** C2: when the new status is HIDING, UP, WHACKED, EXPIRED or
    TERMINATING, [set_mole_status] returns only with [displayack] equal
    to the status just written: it stays blocked while no wakeup has
    made them equal, takes up the wait again after a wakeup that left
    them different, and does return once the display thread has
    acknowledged.  For AVAILABLE, ASSIGNED, SCARED and COMPLETE it returns
    at once, whatever [displayack] holds, without using a wakeup. *)
Theorem set_mole_status_ack_handshake :
  (forall newstatus,
      waits_for_ack newstatus = true <->
      newstatus = HIDING \/ newstatus = UP \/ newstatus = WHACKED \/
      newstatus = EXPIRED \/ newstatus = TERMINATING) /\
  (forall p newstatus env q env',
      waits_for_ack newstatus = true ->
      set_mole_status p newstatus env = Returned (q, env') ->
      Mole.displayack q = newstatus /\ Mole.molestatus q = newstatus) /\
  (forall p newstatus,
      waits_for_ack newstatus = true ->
      graph_edge (Mole.molestatus p) newstatus ->
      Mole.displayack p <> newstatus ->
      set_mole_status p newstatus [] = Blocked) /\
  (forall p newstatus w env,
      waits_for_ack newstatus = true ->
      graph_edge (Mole.molestatus p) newstatus ->
      Mole.displayack p <> newstatus -> wk_ret w = 0 ->
      set_mole_status p newstatus (w :: env) =
      wait_displayack
        (apply_writes (wk_writes w) (Mole.set_molestatus newstatus p)) env) /\
  (forall p newstatus pre post,
      waits_for_ack newstatus = true ->
      graph_edge (Mole.molestatus p) newstatus ->
      Forall (fun w => wk_ret w = 0) pre ->
      exists q env',
        set_mole_status p newstatus
          (pre ++ mk_wakeup [W_displayack] 0 :: post) = Returned (q, env')) /\
  (forall p newstatus env,
      waits_for_ack newstatus = false ->
      graph_edge (Mole.molestatus p) newstatus ->
      set_mole_status p newstatus env =
      Returned
        (Mole.set_molestatus newstatus
           (if MoleStatus_eqb newstatus AVAILABLE then Mole.zero else p),
         env)).
Proof.
  split; [|split; [|split; [|split; [|split]]]].
  - intros newstatus.
    destruct newstatus; simpl; split; intros H;
      try reflexivity; try discriminate H; auto;
      repeat (destruct H as [H|H]); discriminate H.
  - intros p newstatus env q env' Hw H.
    destruct (set_mole_status_returned _ _ _ _ _ H) as [_ Hq].
    split; [|assumption]. unfold set_mole_status in H.
    destruct (assert_predecessor (Mole.molestatus p) newstatus);
      [|discriminate H].
    rewrite Hw in H. apply wait_displayack_returned in H.
    destruct H as [H _]. congruence.
  - intros p newstatus Hw He Hd. unfold set_mole_status.
    apply assert_predecessor_graph in He. rewrite He, Hw.
    assert (Hna : MoleStatus_eqb newstatus AVAILABLE = false)
      by (destruct newstatus; try reflexivity; discriminate Hw).
    rewrite Hna. simpl.
    destruct (MoleStatus_eqb newstatus (Mole.displayack p)) eqn:E;
      [|reflexivity].
    apply MoleStatus_eqb_eq in E. congruence.
  - intros p newstatus w env Hw He Hd Hr. unfold set_mole_status.
    apply assert_predecessor_graph in He. rewrite He, Hw.
    assert (Hna : MoleStatus_eqb newstatus AVAILABLE = false)
      by (destruct newstatus; try reflexivity; discriminate Hw).
    rewrite Hna. apply wait_displayack_unacked; [|assumption].
    simpl. congruence.
  - intros p newstatus pre post Hw He Hpre. unfold set_mole_status.
    apply assert_predecessor_graph in He. rewrite He, Hw.
    apply wait_displayack_progress. assumption.
  - intros p newstatus env Hw He. unfold set_mole_status.
    apply assert_predecessor_graph in He. rewrite He, Hw. reflexivity.
Qed.

Lemma set_mole_status_ack_handshake_witness :
  Mole.displayack
    (Mole.set_displayack UP (Mole.set_molestatus UP (row_hiding 4))) = UP /\
  Mole.molestatus
    (Mole.set_displayack UP (Mole.set_molestatus UP (row_hiding 4))) = UP.
Proof.
  destruct set_mole_status_ack_handshake as (_ & H & _).
  apply (H (row_hiding 4) UP [mk_wakeup [W_displayack] 0] _ []);
    reflexivity.
Defined.

(** ** Recycling a row *)

(** C9: setting a row to AVAILABLE is refused (the assertion ends the
    process) unless its status is COMPLETE, and from COMPLETE it returns
    at once with every field of the row zero -- status and
    acknowledgment mirror (AVAILABLE is enumerator 0), thread and
    condition handles, slot, mole number, durations, hole, struck key,
    animation descriptor, cancel flag, score index, scared flag and
    timestamp -- which is the row the table starts with. *)
Theorem recycle_resets_row (p : MoleCommRecord) (env : list wakeup) :
  (Mole.molestatus p <> COMPLETE ->
   set_mole_status p AVAILABLE env = Aborted) /\
  (Mole.molestatus p = COMPLETE ->
   set_mole_status p AVAILABLE env = Returned (Mole.zero, env)) /\
  (forall q env',
      set_mole_status p AVAILABLE env = Returned (q, env') ->
      Mole.molestatus p = COMPLETE /\
      Forall (fun v => v = 0) (Mole.fields q) /\
      q = Mole.zero /\
      Forall (fun fresh => q = fresh) molecomm_init /\
      Mole.scoreidx q = 0 /\ Mole.animspec q = Anim.zero /\
      Mole.scaredflag q = 0 /\ Mole.scaredtime q = mk_timespec 0 0 /\
      Mole.keystruck q = 0 /\ Mole.hole q = 0 /\
      Mole.displayack q = AVAILABLE).
Proof.
  assert (Hzero : Forall (fun v => v = 0) (Mole.fields Mole.zero))
    by (repeat constructor).
  assert (Hinit : Forall (fun fresh => Mole.zero = fresh) molecomm_init)
    by (repeat constructor).
  unfold set_mole_status. simpl.
  destruct (MoleStatus_eqb (Mole.molestatus p) COMPLETE) eqn:E.
  - apply MoleStatus_eqb_eq in E. split; [congruence|].
    split; [reflexivity|].
    intros q env' H. inversion H; subst.
    repeat split; try assumption; reflexivity.
  - split; [reflexivity|]. split.
    + intros Hc. rewrite Hc in E. discriminate E.
    + intros q env' H. discriminate H.
Qed.

Lemma recycle_resets_row_witness :
  set_mole_status (Mole.mk COMPLETE TERMINATING 7 8 9 2 5 6500 3000 4 52 11
                           (Anim.set_synccount 3 EscapedAnim) 1 3 1
                           (mk_timespec 100 5)) AVAILABLE []
  = Returned (Mole.zero, []).
Proof.
  apply (recycle_resets_row
           (Mole.mk COMPLETE TERMINATING 7 8 9 2 5 6500 3000 4 52 11
                    (Anim.set_synccount 3 EscapedAnim) 1 3 1
                    (mk_timespec 100 5)) []).
  reflexivity.
Defined.

(** ** The timing of the controller *)

Ltac long_simpl :=
  repeat match goal with
         | |- context [to_long ?z] =>
             rewrite (to_long_id z)
               by (unfold in_long, LONG_MIN, LONG_MAX; lia)
         end.

Example choose_uptime_main_low : choose_uptime 0 6500 = 1950.
Proof. reflexivity. Qed.

Example choose_uptime_main_high : choose_uptime 4999 6500 = 5199.
Proof. reflexivity. Qed.

Lemma choose_uptime_value (r d : Z) :
  0 <= r <= LONG_MAX -> 0 <= d <= INT_MAX ->
  choose_uptime r d = (r mod 5000 + 3000) * d / 10000.
Proof.
  unfold LONG_MAX, INT_MAX. intros Hr Hd.
  unfold choose_uptime, long_div, long_mul, long_add, long_rem.
  rewrite Z.rem_mod_nonneg by lia.
  pose proof (Z.mod_pos_bound r 5000 ltac:(lia)) as Hm.
  rewrite (to_long_id (r mod 5000))
    by (unfold in_long, LONG_MIN, LONG_MAX; lia).
  rewrite (to_long_id (r mod 5000 + 3000))
    by (unfold in_long, LONG_MIN, LONG_MAX; lia).
  assert (Hp : 0 <= (r mod 5000 + 3000) * d <= 7999 * 2147483647) by nia.
  rewrite (to_long_id ((r mod 5000 + 3000) * d))
    by (unfold in_long, LONG_MIN, LONG_MAX; lia).
  rewrite Z.quot_div_nonneg by lia.
  apply to_long_id.
  pose proof (Z.div_pos ((r mod 5000 + 3000) * d) 10000 ltac:(lia) ltac:(lia)).
  pose proof (Z.div_le_upper_bound ((r mod 5000 + 3000) * d) 10000
                (7999 * 2147483647) ltac:(lia) ltac:(lia)).
  unfold in_long, LONG_MIN, LONG_MAX. lia.
Qed.

(** C7: for every draw r >= 0 and every cycle duration d >= 0 that fits
    an [int], the up time the controller chooses is
    ((r mod 5000) + 3000) * d / 10000 under integer division, and it lies
    between 30% and 80% of d, both taken in whole milliseconds
    (3*d/10 and 8*d/10); exactly, 3*d - 9 <= 10*uptime <= 8*d. *)
Theorem uptime_within_duty_cycle (r d : Z) :
  0 <= r <= LONG_MAX -> 0 <= d <= INT_MAX ->
  choose_uptime r d = (r mod 5000 + 3000) * d / 10000 /\
  3 * d / 10 <= choose_uptime r d <= 8 * d / 10 /\
  3 * d - 9 <= 10 * choose_uptime r d <= 8 * d.
Proof.
  intros Hr Hd. rewrite (choose_uptime_value r d Hr Hd).
  split; [reflexivity|].
  pose proof (Z.mod_pos_bound r 5000 ltac:(lia)) as Hm.
  set (k := r mod 5000 + 3000) in *.
  assert (Hk : 3000 <= k <= 7999) by (unfold k; lia).
  clearbody k. destruct Hd as [Hd _].
  assert (Hlo : 3 * d / 10 <= k * d / 10000).
  { apply Z.div_le_lower_bound; [lia|].
    pose proof (Z.mul_div_le (3 * d) 10 ltac:(lia)). nia. }
  assert (Hhi : k * d / 10000 <= 8 * d / 10).
  { apply Z.div_le_lower_bound; [lia|].
    pose proof (Z.mul_div_le (k * d) 10000 ltac:(lia)). nia. }
  split; [split; assumption|].
  pose proof (Z.mul_div_le (8 * d) 10 ltac:(lia)).
  pose proof (Z.mul_succ_div_gt (3 * d) 10 ltac:(lia)).
  lia.
Qed.

Lemma uptime_within_duty_cycle_witness :
  choose_uptime 1234567 6500 = (1234567 mod 5000 + 3000) * 6500 / 10000 /\
  3 * 6500 / 10 <= choose_uptime 1234567 6500 <= 8 * 6500 / 10 /\
  3 * 6500 - 9 <= 10 * choose_uptime 1234567 6500 <= 8 * 6500.
Proof.
  apply (uptime_within_duty_cycle 1234567 6500).
  - unfold LONG_MAX; lia.
  - unfold INT_MAX; lia.
Defined.

Example key_deadline_carries :
  key_deadline (mk_timespec 1700000000 999000000) 2001
  = mk_timespec 1700000003 0.
Proof. reflexivity. Qed.

(** C8: for every start time with tv_nsec in [0, 10^9) and every
    uptime >= 0 (both within the range of the 64-bit types, the deadline
    too), [waituntil] is a normalized timespec, tv_nsec in [0, 10^9),
    that denotes the start time plus exactly uptime milliseconds:
    its value in nanoseconds is starttime + uptime * 10^6. *)
Theorem key_deadline_is_start_plus_uptime (starttime : timespec) (uptime : Z) :
  0 <= tv_nsec starttime < 1000000000 ->
  0 <= uptime <= LONG_MAX ->
  LONG_MIN <= tv_sec starttime ->
  tv_sec starttime + uptime / 1000 + 1 <= LONG_MAX ->
  0 <= tv_nsec (key_deadline starttime uptime) < 1000000000 /\
  timespec_ns (key_deadline starttime uptime)
  = timespec_ns starttime + uptime * 1000000.
Proof.
  destruct starttime as [sec nsec]. cbn [tv_sec tv_nsec].
  unfold LONG_MAX, LONG_MIN. intros Hn Hu Hs Hd.
  unfold key_deadline, timespec_ns. cbn [tv_sec tv_nsec].
  unfold long_add, long_mul, long_div, long_rem.
  pose proof (Z.mod_pos_bound uptime 1000 ltac:(lia)) as Hm.
  pose proof (Z.div_pos uptime 1000 ltac:(lia) ltac:(lia)) as Hq.
  pose proof (Z.div_mod uptime 1000 ltac:(lia)) as Hum.
  rewrite !(Z.rem_mod_nonneg uptime 1000) by lia.
  rewrite !(Z.quot_div_nonneg uptime 1000) by lia.
  long_simpl.
  set (frac := uptime mod 1000 * 1000000 + nsec) in *.
  assert (Hf : 0 <= frac < 2000000000) by (unfold frac; lia).
  rewrite (Z.rem_mod_nonneg frac) by lia.
  rewrite (Z.quot_div_nonneg frac) by lia.
  pose proof (Z.mod_pos_bound frac 1000000000 ltac:(lia)) as Hfm.
  pose proof (Z.div_pos frac 1000000000 ltac:(lia) ltac:(lia)) as Hfq.
  assert (Hfq1 : frac / 1000000000 <= 1)
    by (apply Z.lt_succ_r, Z.div_lt_upper_bound; lia).
  long_simpl.
  split; [assumption|].
  pose proof (Z.div_mod frac 1000000000 ltac:(lia)) as Hdm.
  unfold frac in *. lia.
Qed.

Lemma key_deadline_is_start_plus_uptime_witness :
  0 <= tv_nsec (key_deadline (mk_timespec 1700000000 999000000) 2001)
    < 1000000000 /\
  timespec_ns (key_deadline (mk_timespec 1700000000 999000000) 2001)
  = timespec_ns (mk_timespec 1700000000 999000000) + 2001 * 1000000.
Proof.
  apply (key_deadline_is_start_plus_uptime
           (mk_timespec 1700000000 999000000) 2001).
  - simpl; lia.
  - unfold LONG_MAX; lia.
  - unfold LONG_MIN; simpl; lia.
  - unfold LONG_MAX; simpl; lia.
Defined.

Example mole_thread_exposed_timeout :
  match mole_thread_exposed false (row_hiding 4) score_init 20
          (mk_timespec 1700000000 999000000) 2001 []
          [mk_wakeup [W_animspec (Anim.set_hole 4 PopupAnim); W_displayack] 0;
           mk_wakeup [W_synccount 6] ETIMEDOUT;
           mk_wakeup [W_displayack] 0]
  with
  | Returned x =>
      Some (Mole.molestatus (ex_row x), Mole.displayack (ex_row x),
            Mole.scoreidx (ex_row x), ex_molesremaining x, ex_waituntil x,
            map Score.playresult (scores (ex_scores x)))
  | _ => None
  end
  = Some (EXPIRED, EXPIRED, 0, 19, Some (mk_timespec 1700000003 0),
          [ESCAPE]).
Proof. reflexivity. Qed.

Example mole_thread_exposed_scared_while_hiding :
  mole_thread_exposed false
    (apply_writes [W_scared (mk_timespec 9 0)] (row_hiding 4))
    score_init 20 (mk_timespec 0 0) 2001 [] []
  = Undefined /\
  match mole_thread_exposed true
          (apply_writes [W_scared (mk_timespec 9 0)] (row_hiding 4))
          score_init 20 (mk_timespec 0 0) 2001 [] []
  with
  | Returned x =>
      Some (Mole.molestatus (ex_row x), ex_waituntil x,
            map Score.playresult (scores (ex_scores x)))
  | _ => None
  end
  = Some (SCARED, None, [SCAREDOFF]).
Proof. split; reflexivity. Qed.

Lemma clamp_duration_range (duration : Z) :
  1000 <= clamp_duration duration <= MAXDURATION.
Proof.
  unfold clamp_duration, MAXDURATION.
  destruct (Z.ltb_spec duration 1000);
    [|destruct (Z.gtb_spec duration 15000)]; simpl; lia.
Qed.

Example molestartdelay_first : molestartdelay 1 123456 = 250.
Proof. reflexivity. Qed.

Example molestartdelay_later : molestartdelay 2 123456 = 2706.
Proof. reflexivity. Qed.

(** ** The input dispatcher *)

Example input_thread_key_whack :
  input_thread_key 55 [row_up 0 0 2; row_hiding 4; Mole.zero] score_init
                   (fun t => t) (fun n => mk_timespec (Z.of_nat n) 0)
  = Returned ([Mole.set_keystruck 55 (Mole.set_animcancelled 1 (row_up 0 0 2));
               row_hiding 4; Mole.zero],
              score_init,
              [pthread_cancel 4; pthread_cond_signal 2]).
Proof. reflexivity. Qed.

Example input_thread_key_toosoon :
  option_map
    (fun x => (map Mole.scaredflag (fst (fst x)),
               map Score.playresult (scores (snd (fst x)))))
    (match input_thread_key 53 [row_up 0 0 2; row_hiding 4; Mole.zero]
             score_init (fun t => t) (fun n => mk_timespec (Z.of_nat n) 0)
     with Returned x => Some x | _ => None end)
  = Some ([1; 1; 0], [TOOSOON]).
Proof. reflexivity. Qed.

Lemma input_scan_none (inputkey : Z) (tbl : list MoleCommRecord) :
  forall whackflag,
    Forall (fun r => eligible inputkey r = false /\
                     near_miss inputkey r = false) tbl ->
    input_scan inputkey tbl whackflag = (tbl, [], whackflag).
Proof.
  induction tbl as [|r rest IH]; intros whackflag H; [reflexivity|].
  inversion H as [|r' rest' [He Hn] Hrest]; subst.
  cbn [input_scan]. unfold scan_row. rewrite He, Hn.
  rewrite (IH _ Hrest). rewrite orb_false_r. reflexivity.
Qed.


Lemma input_scare_spec (inputkey : Z) (clock : nat -> timespec)
      (tbl : list MoleCommRecord) :
  forall n misfiretype,
    Forall2 (scared_by clock) tbl
            (fst (input_scare inputkey clock n tbl misfiretype)) /\
    snd (input_scare inputkey clock n tbl misfiretype) =
      if existsb (hiding_at_key inputkey) tbl then TOOSOON else misfiretype.
Proof.
  induction tbl as [|r rest IH]; intros n misfiretype.
  - split; [constructor | reflexivity].
  - cbn [input_scare existsb].
    specialize (IH (if hiding_or_up r then S n else n)
                   (if hiding_at_key inputkey r then TOOSOON
                    else misfiretype)).
    destruct (input_scare inputkey clock (if hiding_or_up r then S n else n)
                rest (if hiding_at_key inputkey r then TOOSOON
                      else misfiretype)) as [rest' result].
    cbn [fst snd] in *. destruct IH as [IH1 IH2]. split.
    + constructor; [|assumption]. unfold scared_by.
      destruct (hiding_or_up r); [|reflexivity].
      split; [reflexivity|]. exists n. split; reflexivity.
    + rewrite IH2. destruct (hiding_at_key inputkey r); simpl;
        [destruct (existsb _ rest)|]; reflexivity.
Qed.

Lemma recognized_In (inputkey : Z) :
  recognized inputkey = true <-> In inputkey holekeys.
Proof.
  unfold recognized. rewrite existsb_exists. split.
  - intros [k [Hin Hk]]. apply Z.eqb_eq in Hk. subst. assumption.
  - intros H. exists inputkey. split; [assumption | apply Z.eqb_refl].
Qed.

Lemma holekeys_nonzero (inputkey : Z) : In inputkey holekeys -> inputkey <> 0.
Proof.
  intros H Hz. subst. vm_compute in H.
  repeat (destruct H as [H|H]; [discriminate H|]). exact H.
Qed.

(** C4: a recognized key that no row accepts (no row is eligible, no
    row is a near miss) makes the dispatcher set the scared flag and a
    scared timestamp on every row that is HIDING or UP when the table is
    locked again, leave the other rows alone, make no pthread call, and
    append exactly one record to the log: a penalty, TOOSOON if some
    HIDING row sits in the hole of the pressed key, MISFIRE otherwise. *)
Theorem misfire_scares_and_penalizes
    (inputkey : Z) (tbl : list MoleCommRecord) (sc : ScoreState)
    (relock : list MoleCommRecord -> list MoleCommRecord)
    (clock : nat -> timespec) :
  In inputkey holekeys ->
  Forall (fun r => eligible inputkey r = false /\
                   near_miss inputkey r = false) tbl ->
  exists tbl' sc' rec,
    input_thread_key inputkey tbl sc relock clock
    = Returned (tbl', sc', []) /\
    Forall2 (scared_by clock) (relock tbl) tbl' /\
    scores sc' = scores sc ++ [rec] /\
    is_penalty (Score.playresult rec) = true /\
    Score.playresult rec =
      (if existsb (hiding_at_key inputkey) (relock tbl)
       then TOOSOON else MISFIRE) /\
    Score.selection rec = inputkey /\
    Score.hole rec = misfirehole inputkey /\
    Score.mole rec = -1.
Proof.
  intros Hkey Hnone.
  pose proof (holekeys_nonzero inputkey Hkey) as Hnz.
  apply recognized_In in Hkey.
  unfold input_thread_key.
  destruct (Z.eqb_spec inputkey 0) as [|_]; [contradiction|].
  rewrite Hkey. cbn [negb].
  rewrite (input_scan_none inputkey tbl false Hnone). cbn [negb].
  destruct (input_scare_spec inputkey clock (relock tbl) 0%nat MISFIRE)
    as [Htbl Hkind].
  destruct (input_scare inputkey clock 0 (relock tbl) MISFIRE)
    as [tbl2 misfiretype].
  cbn [fst snd] in *.
  assert (Hp : is_penalty misfiretype = true)
    by (rewrite Hkind; destruct (existsb _ _); reflexivity).
  unfold compute_score, record_results.
  destruct misfiretype; try discriminate Hp;
    (eexists _, _, _; split; [reflexivity|]);
    cbn [fst scores Score.playresult Score.selection Score.hole Score.mole];
    repeat split; try assumption; reflexivity.
Qed.

Lemma misfire_scares_and_penalizes_witness :
  exists tbl' sc' rec,
    input_thread_key 53 [row_up 0 0 2; row_hiding 4; Mole.zero] score_init
                     (fun t => t) (fun n => mk_timespec (Z.of_nat n) 0)
    = Returned (tbl', sc', []) /\
    Forall2 (scared_by (fun n => mk_timespec (Z.of_nat n) 0))
            [row_up 0 0 2; row_hiding 4; Mole.zero] tbl' /\
    scores sc' = scores score_init ++ [rec] /\
    is_penalty (Score.playresult rec) = true /\
    Score.playresult rec =
      (if existsb (hiding_at_key 53) [row_up 0 0 2; row_hiding 4; Mole.zero]
       then TOOSOON else MISFIRE) /\
    Score.selection rec = 53 /\
    Score.hole rec = misfirehole 53 /\
    Score.mole rec = -1.
Proof.
  apply (misfire_scares_and_penalizes 53
           [row_up 0 0 2; row_hiding 4; Mole.zero] score_init
           (fun t => t) (fun n => mk_timespec (Z.of_nat n) 0)).
  - vm_compute. tauto.
  - repeat constructor.
Defined.
Lemma input_scan_ineligible (inputkey : Z) (tbl : list MoleCommRecord) :
  forall whackflag,
    Forall (fun r => eligible inputkey r = false) tbl ->
    input_scan inputkey tbl whackflag
    = (tbl, [], whackflag || existsb (near_miss inputkey) tbl).
Proof.
  induction tbl as [|r rest IH]; intros whackflag H.
  - simpl. rewrite orb_false_r. reflexivity.
  - inversion H as [|r' rest' He Hrest]; subst.
    cbn [input_scan existsb]. unfold scan_row. rewrite He.
    destruct (near_miss inputkey r), whackflag; rewrite (IH _ Hrest);
      reflexivity.
Qed.


Example mole_outcome_after_whack :
  match mole_outcome
          (Mole.set_keystruck 55 (Mole.set_animcancelled 1 (row_up 0 0 2)))
          0 score_init [] [mk_wakeup [W_displayack] 0]
  with
  | Returned (q, sc, _) =>
      Some (Mole.molestatus q, Mole.displayack q,
            map (fun x => (Score.playresult x, Score.endscore x)) (scores sc))
  | _ => None
  end = Some (WHACKED, WHACKED, [(WHACK, 20)]).
Proof. reflexivity. Qed.





(** ** The checkpoints of the animation runner *)

Example whacked_run_checkpoints :
  sync_writes (fst (animation_thread 0 (fun _ => 0) WhackedAnim)) = [1; 2; 3].
Proof. reflexivity. Qed.

Example popup_run_checkpoints :
  sync_writes (fst (animation_thread 1 (fun _ => 0)
                      (Anim.set_duration 3000 PopupAnim)))
  = [1; 2; 3; 4; 5; 6].
Proof. reflexivity. Qed.

Example hiding_run :
  animation_thread 3 (fun _ => 7) (Anim.set_duration 1500 HidingAnim)
  = ([Sync 1;
      ShowMole 0 9 1; Nanosleep 0 200000000;
      ShowMole 0 9 0; Nanosleep 0 200000000;
      ShowMole 0 9 0; Nanosleep 0 200000000;
      ShowMole 0 9 0; Nanosleep 0 807000000;
      Nanosleep 0 93000000;
      Sync 2], true).
Proof. reflexivity. Qed.

Example instr_popup_second_turn :
  sync_writes (fst (animation_thread 2 (fun _ => 0)
                      (Anim.set_duration 3000 PopupInstr)))
  = [1; 2; 3; 4; 5; 6; 1; 2; 3; 4; 5; 6].
Proof. reflexivity. Qed.

Lemma sync_writes_app (a b : list anim_event) :
  sync_writes (a ++ b) = sync_writes a ++ sync_writes b.
Proof.
  induction a as [|e a IH]; [reflexivity|].
  destruct e; simpl; rewrite IH; reflexivity.
Qed.

Lemma hiding_loop_no_sync (rnd : nat -> Z) (aspec : AnimationSpec) :
  forall fuel k timeremaining,
    sync_writes (fst (hiding_loop fuel rnd k aspec timeremaining)) = [].
Proof.
  induction fuel as [|fuel IH]; intros k timeremaining; [reflexivity|].
  cbn [hiding_loop].
  destruct ((timeremaining >? 0) || (Anim.duration aspec =? -1));
    [|reflexivity].
  destruct ((timeremaining <? 600) && negb (Anim.duration aspec =? -1));
    [reflexivity|].
  match goal with
  | |- context [hiding_loop fuel rnd ?k' aspec ?t] =>
      specialize (IH k' t);
      destruct (hiding_loop fuel rnd k' aspec t) as [evs finished]
  end.
  cbn [fst] in *. cbn [app sync_writes]. exact IH.
Qed.

(** The concealment loop ends: each full turn takes at least 600 ms off
    the time that remains. *)
Lemma hiding_loop_finishes (rnd : nat -> Z) (aspec : AnimationSpec) :
  Anim.duration aspec <> -1 ->
  (forall k, 0 <= rnd k <= INT_MAX) ->
  forall fuel k timeremaining,
    timeremaining <= INT_MAX ->
    timeremaining <= 600 * Z.of_nat fuel ->
    snd (hiding_loop (S fuel) rnd k aspec timeremaining) = true.
Proof.
  intros Hd Hrnd. apply Z.eqb_neq in Hd. unfold INT_MAX in *.
  induction fuel as [|fuel IH]; intros k timeremaining Hmax Hle.
  - cbn [hiding_loop]. rewrite Hd.
    destruct (Z.gtb_spec timeremaining 0); [lia | reflexivity].
  - remember (S fuel) as fuel1 eqn:Hf. cbn [hiding_loop]. rewrite Hd.
    cbn [negb]. rewrite orb_false_r, !andb_true_r.
    destruct (Z.gtb_spec timeremaining 0) as [Hpos|Hneg]; [|reflexivity].
    destruct (Z.ltb_spec timeremaining 600) as [Hlt|Hge]; [reflexivity|].
    assert (Hleft : int_sub timeremaining 600 = timeremaining - 600).
    { unfold int_sub. apply to_int_id. unfold in_int, INT_MIN, INT_MAX. lia. }
    rewrite Hleft.
    set (target0 := long_add (long_rem (rnd (2 + k)%nat) 1200) 800).
    assert (Ht0 : 800 <= target0 <= 1999).
    { unfold target0, long_add, long_rem. specialize (Hrnd (2 + k)%nat).
      rewrite Z.rem_mod_nonneg by lia.
      pose proof (Z.mod_pos_bound (rnd (2 + k)%nat) 1200 ltac:(lia)).
      rewrite (to_long_id (rnd (2 + k)%nat mod 1200))
        by (unfold in_long, LONG_MIN, LONG_MAX; lia).
      rewrite to_long_id by (unfold in_long, LONG_MIN, LONG_MAX; lia).
      lia. }
    clearbody target0.
    set (targettime := if target0 >? timeremaining - 600
                       then timeremaining - 600 else target0).
    assert (Htt : 0 <= targettime <= timeremaining - 600).
    { unfold targettime.
      destruct (Z.gtb_spec target0 (timeremaining - 600)); lia. }
    clearbody targettime.
    rewrite (to_int_id (timeremaining - 600 - targettime))
      by (unfold in_int, INT_MIN, INT_MAX; lia).
    subst fuel1.
    specialize (IH (3 + k)%nat (timeremaining - 600 - targettime)
                   ltac:(lia) ltac:(lia)).
    destruct (hiding_loop (S fuel) rnd (3 + k) aspec
                (timeremaining - 600 - targettime)) as [evs finished].
    exact IH.
Qed.

Lemma scared_blinks_no_sync (aspec : AnimationSpec) (frametime : Z) :
  sync_writes (scared_blinks aspec frametime) = [].
Proof. reflexivity. Qed.

Lemma upscared_once_no_sync (aspec : AnimationSpec) :
  sync_writes (upscared_once aspec) = [].
Proof.
  unfold upscared_once.
  destruct (AnimationType_eqb (Anim.animationtype aspec) INSTRSCARED);
    reflexivity.
Qed.

(** The descriptors the display thread installs: kind and declared
    total are those of one of the six constants used during play. *)
Lemma launch_descriptor_kinds (pnew live : MoleCommRecord) (sc : ScoreState)
      (aspec : AnimationSpec) :
  launch_descriptor pnew live sc = Returned (Some aspec) ->
  In (Anim.animationtype aspec, Anim.syncpoints aspec)
     [(ANIMHIDING, 2); (ANIMPOPUP, 6); (ANIMWHACKED, 3); (ANIMESCAPED, 3);
      (ANIMMISFIRESCARED, 2); (ANIMUPSCARED, 2)].
Proof.
  unfold launch_descriptor. intros H.
  destruct (Mole.molestatus pnew); try discriminate H.
  - inversion H; subst. simpl. tauto.
  - inversion H; subst. simpl. tauto.
  - destruct (_ && _); [|discriminate H].
    destruct (nth_error _ _); [|discriminate H].
    inversion H; subst. simpl. tauto.
  - destruct (_ && _); [|discriminate H].
    destruct (nth_error _ _); [|discriminate H].
    inversion H; subst. simpl. tauto.
  - destruct (MoleStatus_eqb (Mole.displayack live) UP).
    + inversion H; subst. simpl. tauto.
    + destruct (MoleStatus_eqb (Mole.displayack live) HIDING);
        [|discriminate H].
      destruct (_ =? _); inversion H; subst; simpl; tauto.
Qed.

Lemma play_run_follows_protocol (rnd : nat -> Z) (aspec : AnimationSpec) :
  In (Anim.animationtype aspec, Anim.syncpoints aspec)
     [(ANIMHIDING, 2); (ANIMPOPUP, 6); (ANIMWHACKED, 3); (ANIMESCAPED, 3);
      (ANIMMISFIRESCARED, 2); (ANIMUPSCARED, 2)] ->
  (forall k, 0 <= rnd k <= INT_MAX) ->
  in_int (Anim.duration aspec) ->
  Anim.duration aspec <> -1 ->
  exists fuel evs,
    animation_thread fuel rnd aspec = (evs, true) /\ sync_protocol aspec evs.
Proof.
  intros Hkind Hrnd Hint Hd.
  destruct aspec as [ty h n d s1 s2 total count m].
  cbn [Anim.animationtype Anim.syncpoints Anim.duration] in *.
  unfold sync_protocol. cbn [Anim.syncpoints].
  simpl in Hkind.
  destruct Hkind as [E|[E|[E|[E|[E|[E|[]]]]]]]; inversion E; subst;
    clear E.
  - (* ANIMHIDING *)
    exists (S (Z.to_nat d)).
    set (aspec := Anim.mk ANIMHIDING h n d s1 s2 2 count m).
    pose proof (hiding_loop_finishes rnd aspec Hd Hrnd (Z.to_nat d) 0%nat d
                  ltac:(unfold in_int in Hint; lia) ltac:(lia)) as Hfin.
    pose proof (hiding_loop_no_sync rnd aspec (S (Z.to_nat d)) 0%nat d)
      as Hno.
    unfold animation_thread. cbn [Anim.animationtype aspec Anim.duration].
    fold aspec.
    destruct (hiding_loop (S (Z.to_nat d)) rnd 0 aspec d) as [evs finished].
    cbn [fst snd] in *. subst finished.
    eexists. split; [reflexivity|].
    cbn [hd_error sync_writes]. rewrite sync_writes_app, Hno.
    cbn. repeat split; try lia. repeat constructor; lia.
  - (* ANIMPOPUP *)
    exists 1%nat. eexists. split; [reflexivity|].
    vm_compute. repeat split; try discriminate.
    repeat constructor; discriminate.
  - (* ANIMWHACKED *)
    exists 0%nat. eexists. split; [reflexivity|].
    cbn [hd_error sync_writes last]. repeat split; try lia.
    repeat constructor; lia.
  - (* ANIMESCAPED *)
    exists 0%nat. eexists. split; [reflexivity|].
    cbn [hd_error sync_writes last]. repeat split; try lia.
    repeat constructor; lia.
  - (* ANIMMISFIRESCARED *)
    exists 0%nat. eexists. split; [reflexivity|].
    cbn [hd_error]. split; [reflexivity|].
    cbn [sync_writes]. rewrite sync_writes_app, scared_blinks_no_sync.
    cbn. repeat split; try lia. repeat constructor; lia.
  - (* ANIMUPSCARED *)
    exists 1%nat. eexists. split; [reflexivity|].
    cbn [hd_error]. split; [reflexivity|].
    cbn [sync_writes]. rewrite sync_writes_app.
    change (sync_writes (upscared_once _)) with (@nil Z).
    cbn. repeat split; try lia. repeat constructor; lia.
Qed.

Lemma launch_descriptor_duration (pnew live : MoleCommRecord)
      (sc : ScoreState) (aspec : AnimationSpec) :
  launch_descriptor pnew live sc = Returned (Some aspec) ->
  in_int (Anim.duration aspec).
Proof.
  assert (Hc : forall z, INT_MIN <= z <= INT_MAX -> in_int z)
    by (intros z Hz; exact Hz).
  unfold launch_descriptor. intros H.
  destruct (Mole.molestatus pnew); try discriminate H.
  - inversion H; subst. apply to_int_range.
  - inversion H; subst. apply to_int_range.
  - destruct (_ && _); [|discriminate H].
    destruct (nth_error _ _); [|discriminate H].
    inversion H; subst. apply Hc. unfold INT_MIN, INT_MAX. simpl. lia.
  - destruct (_ && _); [|discriminate H].
    destruct (nth_error _ _); [|discriminate H].
    inversion H; subst. apply Hc. unfold INT_MIN, INT_MAX. simpl. lia.
  - destruct (MoleStatus_eqb (Mole.displayack live) UP).
    + inversion H; subst. apply Hc. unfold INT_MIN, INT_MAX. simpl. lia.
    + destruct (MoleStatus_eqb (Mole.displayack live) HIDING);
        [|discriminate H].
      destruct (_ =? _); inversion H; subst; apply Hc;
        unfold INT_MIN, INT_MAX; simpl; lia.
Qed.

(** Force-marking never lowers the checkpoint count. *)
Lemma cancel_active_monotone (r : MoleCommRecord) :
  let r' := fst (cancel_active r) in
  Anim.synccount (Mole.animspec r) <= Anim.synccount (Mole.animspec r') /\
  Anim.syncpoints (Mole.animspec r') = Anim.syncpoints (Mole.animspec r) /\
  (snd (cancel_active r) <> [] ->
   0 < Anim.synccount (Mole.animspec r)
     < Anim.syncpoints (Mole.animspec r) /\
   Anim.synccount (Mole.animspec r') = Anim.syncpoints (Mole.animspec r) /\
   Mole.animcancelled r' = 1).
Proof.
  unfold cancel_active.
  destruct (_ && _) eqn:E; cbn [fst snd].
  - rewrite !andb_true_iff in E. destruct E as [[[_ Hgt] Hlt] _].
    apply Z.gtb_lt in Hgt. apply Z.ltb_lt in Hlt.
    cbn. repeat split; lia.
  - split; [lia|]. split; [reflexivity|]. intros H. contradiction.
Qed.

Example cancel_active_popup :
  cancel_active (row_up 0 0 2)
  = (Mole.set_animspec (Anim.set_synccount 6 (Mole.animspec (row_up 0 0 2)))
                       (Mole.set_animcancelled 1 (row_up 0 0 2)),
     [pthread_cancel 4]).
Proof. reflexivity. Qed.

(** C6, as the code has it: for every presentation the display thread
    launches during play (ANIMHIDING, ANIMPOPUP, ANIMWHACKED, ANIMESCAPED,
    ANIMMISFIRESCARED, ANIMUPSCARED, with the descriptor the display
    thread builds and a duration other than the run-for-ever value -1),
    [animation_thread], left alone, returns, and the values it stores in
    synccount start at 1 before any frame, increase strictly, never
    exceed the declared syncpoints and end with syncpoints.  Force-marking
    by the display thread is done only while 0 < synccount < syncpoints
    and sets synccount to syncpoints, so it never lowers the count. *)
Theorem play_animation_checkpoints
    (pnew live : MoleCommRecord) (sc : ScoreState) (aspec : AnimationSpec)
    (rnd : nat -> Z) :
  launch_descriptor pnew live sc = Returned (Some aspec) ->
  (forall k, 0 <= rnd k <= INT_MAX) ->
  Anim.duration aspec <> -1 ->
  (exists fuel evs,
      animation_thread fuel rnd aspec = (evs, true) /\
      hd_error evs = Some (Sync 1) /\
      increasing (sync_writes evs) /\
      Forall (fun n => n <= Anim.syncpoints aspec) (sync_writes evs) /\
      last (sync_writes evs) 0 = Anim.syncpoints aspec) /\
  (forall r,
      let r' := fst (cancel_active r) in
      Anim.synccount (Mole.animspec r) <= Anim.synccount (Mole.animspec r') /\
      Anim.syncpoints (Mole.animspec r') = Anim.syncpoints (Mole.animspec r) /\
      (snd (cancel_active r) <> [] ->
       0 < Anim.synccount (Mole.animspec r)
         < Anim.syncpoints (Mole.animspec r) /\
       Anim.synccount (Mole.animspec r')
       = Anim.syncpoints (Mole.animspec r) /\
       Mole.animcancelled r' = 1)).
Proof.
  intros Hlaunch Hrnd Hd. split.
  - destruct (play_run_follows_protocol rnd aspec
                (launch_descriptor_kinds _ _ _ _ Hlaunch) Hrnd
                (launch_descriptor_duration _ _ _ _ Hlaunch) Hd)
      as (fuel & evs & Hrun & Hproto).
    exists fuel, evs. split; [assumption | exact Hproto].
  - intros r. apply cancel_active_monotone.
Qed.

Lemma play_animation_checkpoints_witness :
  exists fuel evs,
    animation_thread fuel (fun _ => 7)
      (Anim.set_mole 2 (Anim.set_hole 4 (Anim.set_duration 3500 HidingAnim)))
    = (evs, true) /\
    hd_error evs = Some (Sync 1) /\
    increasing (sync_writes evs) /\
    Forall (fun n => n <= 2) (sync_writes evs) /\
    last (sync_writes evs) 0 = 2.
Proof.
  apply (play_animation_checkpoints (row_hiding 4) (row_hiding 4) score_init
           (Anim.set_mole 2
              (Anim.set_hole 4 (Anim.set_duration 3500 HidingAnim)))
           (fun _ => 7)).
  - reflexivity.
  - intros k. unfold INT_MAX. lia.
  - discriminate.
Defined.

(** The protocol does not hold for every kind [animation_thread] runs:
    the splash-screen pop-up, whose descriptor declares two checkpoints,
    returns after storing only the first. *)
Lemma splash_run_stops_at_one :
  ~ (forall (aspec : AnimationSpec) (fuel : nat) (rnd : nat -> Z)
            (evs : list anim_event),
        animation_thread fuel rnd aspec = (evs, true) ->
        sync_protocol aspec evs).
Proof.
  intros H.
  destruct (H PopupSplash 1%nat (fun _ => 0) _ eq_refl)
    as (_ & _ & _ & Hlast).
  vm_compute in Hlast. discriminate Hlast.
Qed.

Example splash_run_checkpoints :
  animation_thread 1 (fun _ => 0) PopupSplash
  = ([Sync 1;
      ShowMole 0 9 1; Nanosleep 0 30000000;
      ShowMole 0 9 2; Nanosleep 0 30000000;
      ShowMole 0 9 3; Nanosleep 0 30000000;
      ShowMole 0 9 4; Nanosleep 0 30000000;
      ShowMole 0 9 5; Nanosleep 0 30000000], true).
Proof. reflexivity. Qed.

(* ================================================================== *)
(** * Part III: further properties of the code                         *)
(* ================================================================== *)

(** ** The scorer and its log *)

(** The record one call appends, read off [compute_score] and
    [record_results]; no assumption on the state. *)
Lemma Some_inj {A : Type} (x y : A) : Some x = Some y -> x = y.
Proof. intros H. injection H as H. exact H. Qed.

Lemma record_results_appends (st st' : ScoreState)
      (mole hole key startscore missedscore whackedscore bonusscore
       penaltyscore endscore idx : Z) (pr : PlayResult) :
  record_results st mole hole key startscore missedscore whackedscore
                 bonusscore penaltyscore endscore pr = (st', idx) ->
  scores st' =
    scores st ++ [Score.mk None None mole hole startscore missedscore
                           whackedscore bonusscore penaltyscore endscore
                           pr key] /\
  idx = numscores st /\ missedcount st' = missedcount st.
Proof.
  unfold record_results. intros H. injection H as H1 H2. subst st' idx.
  cbn [scores missedcount]. repeat split.
  unfold numscores. cbn [scores]. rewrite length_app. cbn [length]. lia.
Qed.

Lemma compute_score_fields (st st' : ScoreState)
      (mole hole key bonusstage idx : Z) (pr : PlayResult) :
  compute_score st mole hole key bonusstage pr = Some (st', idx) ->
  exists m w b,
    scores st' =
      scores st ++
      [Score.mk None None mole hole (curscore st) m w b 0
         (int_add (int_add (int_add (int_add (curscore st) m) w) b) 0)
         pr key] /\
    idx = numscores st /\
    missedcount st' =
      (if is_miss pr then int_add (missedcount st) 1 else missedcount st) /\
    match pr with
    | WHACK =>
        m = 0 /\ w = int_add 0 WHACKEDMOLESCORE /\
        b = nth (Z.to_nat bonusstage) BONUSPOINTS 0 /\
        0 <= bonusstage < BONUSSLICES
    | ESCAPE | SCAREDOFF => w = 0 /\ b = 0
    | MISFIRE | TOOSOON => m = 0 /\ w = 0 /\ b = 0
    end.
Proof.
  unfold compute_score. intros H.
  destruct pr.
  - destruct (Z.leb_spec 0 bonusstage), (Z.ltb_spec bonusstage BONUSSLICES);
      cbn [andb] in H; try discriminate H.
    apply Some_inj, record_results_appends in H. destruct H as (Hs & Hi & Hmc).
    do 3 eexists. split; [exact Hs|]. split; [exact Hi|]. split; [exact Hmc|].
    repeat split; assumption.
  - apply Some_inj, record_results_appends in H. destruct H as (Hs & Hi & Hmc).
    do 3 eexists. split; [exact Hs|]. split; [exact Hi|]. split; [exact Hmc|]. split; reflexivity.
  - apply Some_inj, record_results_appends in H. destruct H as (Hs & Hi & Hmc).
    do 3 eexists. split; [exact Hs|]. split; [exact Hi|]. split; [exact Hmc|].
    repeat split; reflexivity.
  - apply Some_inj, record_results_appends in H. destruct H as (Hs & Hi & Hmc).
    do 3 eexists. split; [exact Hs|]. split; [exact Hi|]. split; [exact Hmc|].
    repeat split; reflexivity.
  - apply Some_inj, record_results_appends in H. destruct H as (Hs & Hi & Hmc).
    do 3 eexists. split; [exact Hs|]. split; [exact Hi|]. split; [exact Hmc|]. split; reflexivity.
Qed.

Lemma compute_score_appends (st st' : ScoreState)
      (mole hole key bonusstage idx : Z) (pr : PlayResult) :
  compute_score st mole hole key bonusstage pr = Some (st', idx) ->
  exists rec,
    scores st' = scores st ++ [rec] /\
    idx = numscores st /\
    Score.mole rec = mole /\ Score.hole rec = hole /\
    Score.selection rec = key /\ Score.playresult rec = pr /\
    Score.startscore rec = curscore st /\
    running_total_shown rec = Score.endscore rec /\
    Score.penaltyscore rec = 0.
Proof.
  intros H. apply compute_score_fields in H.
  destruct H as (m & w & b & Hs & Hi & _).
  eexists. split; [exact Hs|]. split; [exact Hi|].
  unfold running_total_shown.
  cbn [Score.mole Score.hole Score.selection Score.playresult
       Score.startscore Score.missedscore Score.whackedscore
       Score.bonusscore Score.penaltyscore Score.endscore].
  repeat split.
Qed.

Lemma curscore_last (st : ScoreState) :
  curscore st = last (map Score.endscore (scores st)) 0.
Proof.
  destruct st as [l m]. cbn [scores].
  destruct l as [|r0 l0 _] using rev_ind; [reflexivity|].
  rewrite (curscore_snoc (mk_ScoreState l0 m) _ r0) by reflexivity.
  rewrite map_app. cbn [map]. rewrite last_last. reflexivity.
Qed.

Lemma last_cons_default {A : Type} (l : list A) :
  forall a d, last (a :: l) d = last l a.
Proof.
  induction l as [|b l IH]; intros a d; [reflexivity|].
  change (last (a :: b :: l) d) with (last (b :: l) d).
  rewrite (IH b d), (IH b a). reflexivity.
Qed.

Lemma chain_from_snoc (l : list ScoreSheetRecord) :
  forall prev r,
    chain_from prev l ->
    Score.startscore r = last (map Score.endscore l) prev ->
    running_total_shown r = Score.endscore r ->
    Score.endscore r =
      Score.startscore r + Score.missedscore r + Score.whackedscore r
      + Score.bonusscore r + Score.penaltyscore r ->
    0 <= Score.endscore r ->
    chain_from prev (l ++ [r]).
Proof.
  induction l as [|x l IH]; intros prev r Hc Hs Hshown Hsum Hpos.
  - cbn in *. repeat split; assumption.
  - cbn [app chain_from] in *.
    destruct Hc as (H1 & H2 & H3 & H4 & H5).
    repeat split; try assumption.
    apply IH; try assumption.
    rewrite Hs. cbn [map]. apply last_cons_default.
Qed.


Lemma int_add4_exact (cur m w b : Z) :
  0 <= cur <= 2147483500 -> -50 <= m <= 0 -> 0 <= w <= 20 -> 0 <= b <= 80 ->
  int_add (int_add (int_add (int_add cur m) w) b) 0 = cur + m + w + b + 0.
Proof.
  intros Hc Hm Hw Hb. unfold int_add.
  rewrite (to_int_id (cur + m)) by (unfold in_int, INT_MIN, INT_MAX; lia).
  rewrite (to_int_id (cur + m + w))
    by (unfold in_int, INT_MIN, INT_MAX; lia).
  rewrite (to_int_id (cur + m + w + b))
    by (unfold in_int, INT_MIN, INT_MAX; lia).
  rewrite (to_int_id (cur + m + w + b + 0))
    by (unfold in_int, INT_MIN, INT_MAX; lia).
  reflexivity.
Qed.

Lemma compute_score_record (pr : PlayResult) :
  forall (st st' : ScoreState) (mole hole key bonusstage idx : Z),
  score_inv st -> numscores st < MAXLOG ->
  compute_score st mole hole key bonusstage pr = Some (st', idx) ->
  exists rec,
    scores st' = scores st ++ [rec] /\
    Score.startscore rec = curscore st /\
    running_total_shown rec = Score.endscore rec /\
    Score.endscore rec =
      Score.startscore rec + Score.missedscore rec + Score.whackedscore rec
      + Score.bonusscore rec + Score.penaltyscore rec /\
    0 <= Score.endscore rec /\
    record_in_range rec.
Proof.
  assert (Hw20 : int_add 0 WHACKEDMOLESCORE = 20) by reflexivity.
  assert (Hmiss : forall pr0 st st' mole hole key bonusstage idx,
             is_miss pr0 = true ->
             score_inv st -> numscores st < MAXLOG ->
             compute_score st mole hole key bonusstage pr0
             = Some (st', idx) ->
             exists rec,
               scores st' = scores st ++ [rec] /\
               Score.startscore rec = curscore st /\
               running_total_shown rec = Score.endscore rec /\
               Score.endscore rec =
                 Score.startscore rec + Score.missedscore rec
                 + Score.whackedscore rec + Score.bonusscore rec
                 + Score.penaltyscore rec /\
               0 <= Score.endscore rec /\
               record_in_range rec).
  { intros pr0 st st' mole hole key bonusstage idx Hm Hinv Hlen Hc.
    pose proof Hinv as [H1 [H2 H3]].
    pose proof (miss_count_bounds (scores st)) as Hb.
    destruct (compute_score_miss st mole hole key bonusstage pr0 Hinv Hlen Hm)
      as (st1 & idx1 & rec & Hcs & Hsc1 & _ & Hpr & Hst & Hms & Hend).
    rewrite Hc in Hcs. apply Some_inj in Hcs.
    apply pair_equal_spec in Hcs. destruct Hcs as [<- _].
    destruct (compute_score_fields _ _ _ _ _ _ _ _ Hc)
      as (m & w & b & Hsc & _ & _ & Hf).
    assert (Hwb : w = 0 /\ b = 0)
      by (destruct pr0; try discriminate Hm; exact Hf).
    destruct Hwb as [-> ->].
    rewrite Hsc1 in Hsc. apply app_inj_tail in Hsc. destruct Hsc as [_ Hrec].
    assert (Hwh : Score.whackedscore rec = 0) by (rewrite Hrec; reflexivity).
    assert (Hbo : Score.bonusscore rec = 0) by (rewrite Hrec; reflexivity).
    assert (Hpe : Score.penaltyscore rec = 0) by (rewrite Hrec; reflexivity).
    assert (Hsh : running_total_shown rec = Score.endscore rec).
    { rewrite Hrec. unfold running_total_shown.
      cbn [Score.startscore Score.missedscore Score.whackedscore
           Score.bonusscore Score.penaltyscore Score.endscore].
      reflexivity. }
    exists rec. split; [exact Hsc1|]. split; [exact Hst|].
    split; [exact Hsh|].
    unfold record_in_range. rewrite Hend, Hst, Hms, Hwh, Hbo, Hpe, Hpr.
    unfold WHACKEDMOLESCORE. rewrite Hm.
    split; [lia|]. split; [lia|]. split; [lia|].
    split; [left; reflexivity|]. split; [lia|]. split; [reflexivity|].
    split; [|intros Hx; discriminate Hx].
    split; [intros ->; discriminate Hm | intros Hx; discriminate Hx]. }
  assert (Hpen : forall pr0 st st' mole hole key bonusstage idx,
             is_penalty pr0 = true ->
             score_inv st -> numscores st < MAXLOG ->
             compute_score st mole hole key bonusstage pr0
             = Some (st', idx) ->
             exists rec,
               scores st' = scores st ++ [rec] /\
               Score.startscore rec = curscore st /\
               running_total_shown rec = Score.endscore rec /\
               Score.endscore rec =
                 Score.startscore rec + Score.missedscore rec
                 + Score.whackedscore rec + Score.bonusscore rec
                 + Score.penaltyscore rec /\
               0 <= Score.endscore rec /\
               record_in_range rec).
  { intros pr0 st st' mole hole key bonusstage idx Hm Hinv Hlen Hc.
    pose proof Hinv as [H1 [H2 H3]].
    assert (Hn : 0 <= curscore st <= 2147483500)
      by (unfold MAXLOG in Hlen; lia).
    destruct (compute_score_fields _ _ _ _ _ _ _ _ Hc)
      as (m & w & b & Hsc & _ & _ & Hf).
    assert (Hz : m = 0 /\ w = 0 /\ b = 0)
      by (destruct pr0; try discriminate Hm; exact Hf).
    destruct Hz as (-> & -> & ->).
    eexists. split; [exact Hsc|].
    unfold record_in_range, running_total_shown.
    cbn [Score.startscore Score.endscore Score.missedscore
         Score.whackedscore Score.bonusscore Score.penaltyscore
         Score.playresult].
    rewrite (int_add4_exact (curscore st) 0 0 0) by lia.
    unfold WHACKEDMOLESCORE.
    split; [reflexivity|]. split; [reflexivity|]. split; [reflexivity|].
    split; [lia|]. split; [lia|]. split; [left; reflexivity|].
    split; [lia|]. split; [reflexivity|].
    split; [|reflexivity].
    split; [intros ->; discriminate Hm | intros Hx; discriminate Hx]. }
  destruct pr; intros st st' mole hole key bonusstage idx Hinv Hlen Hc.
  - (* WHACK *)
    pose proof Hinv as [H1 [H2 H3]].
    assert (Hn : 0 <= curscore st <= 2147483500)
      by (unfold MAXLOG in Hlen; lia).
    destruct (compute_score_fields _ _ _ _ _ _ _ _ Hc)
      as (m & w & b & Hsc & _ & _ & Hm & Hw & Hb & _).
    pose proof (BONUSPOINTS_bounds bonusstage) as Hbp.
    rewrite <- Hb in Hbp. rewrite Hw20 in Hw. clear Hb. subst m w.
    eexists. split; [exact Hsc|].
    unfold record_in_range, running_total_shown.
    cbn [Score.startscore Score.endscore Score.missedscore
         Score.whackedscore Score.bonusscore Score.penaltyscore
         Score.playresult].
    rewrite (int_add4_exact (curscore st) 0 20 b) by lia.
    unfold WHACKEDMOLESCORE.
    split; [reflexivity|]. split; [reflexivity|]. split; [reflexivity|].
    split; [lia|]. split; [lia|]. split; [right; reflexivity|].
    split; [lia|]. split; [reflexivity|].
    split; [split; reflexivity|]. reflexivity.
  - apply (Hmiss ESCAPE st st' mole hole key bonusstage idx eq_refl Hinv
             Hlen Hc).
  - apply (Hpen MISFIRE st st' mole hole key bonusstage idx eq_refl Hinv
             Hlen Hc).
  - apply (Hpen TOOSOON st st' mole hole key bonusstage idx eq_refl Hinv
             Hlen Hc).
  - apply (Hmiss SCAREDOFF st st' mole hole key bonusstage idx eq_refl Hinv
             Hlen Hc).
Qed.

(** What any call does to a log that satisfies the invariant. *)
Lemma do_call_record (st st' : ScoreState) (c : score_call) (i : Z) :
  score_inv st -> numscores st < MAXLOG -> do_call st c = Some (st', i) ->
  exists rec,
    scores st' = scores st ++ [rec] /\
    Score.startscore rec = curscore st /\
    running_total_shown rec = Score.endscore rec /\
    Score.endscore rec =
      Score.startscore rec + Score.missedscore rec + Score.whackedscore rec
      + Score.bonusscore rec + Score.penaltyscore rec /\
    0 <= Score.endscore rec /\
    record_in_range rec.
Proof.
  intros Hinv Hlen Hc. unfold do_call in Hc.
  exact (compute_score_record _ _ _ _ _ _ _ _ Hinv Hlen Hc).
Qed.

Lemma run_scores_invariant (P : ScoreState -> Prop) :
  (forall st c st' i,
      score_inv st -> P st -> numscores st < MAXLOG ->
      do_call st c = Some (st', i) -> P st') ->
  forall cs st st',
    score_inv st -> P st ->
    numscores st + Z.of_nat (length cs) <= MAXLOG ->
    run_scores cs st = Some st' -> P st'.
Proof.
  intros Hstep. induction cs as [|c cs IH]; intros st st' Hinv HP Hlen Hrun.
  - simpl in Hrun. inversion Hrun; subst; assumption.
  - cbn [run_scores] in Hrun. cbn [length] in Hlen.
    destruct (do_call st c) as [[st1 i]|] eqn:Hc; [|discriminate].
    destruct (score_inv_step st st1 c i Hinv ltac:(lia) Hc) as [Hinv1 Hn1].
    apply (IH st1 st' Hinv1); [|lia|assumption].
    apply (Hstep st c st1 i); try assumption. lia.
Qed.

(** X1: in every log the scorer can build (at most MAXLOG records), the
    first record starts from 0, every record starts from the total the
    previous one ended with, ends at start + missed + whacked + bonus +
    penalty -- the running total the score sheet prints -- and never below
    zero; the missed score is in [-50, 0], the whacked score is 0 or 20
    (20 exactly for a WHACK), the bonus is in [0, 80] and the penalty is
    0. *)
Theorem log_is_chained (cs : list score_call) (st : ScoreState) :
  run_scores cs score_init = Some st ->
  Z.of_nat (length cs) <= MAXLOG ->
  chain_from 0 (scores st) /\
  Forall record_in_range (scores st) /\
  numscores st = Z.of_nat (length cs).
Proof.
  intros Hrun Hlen.
  assert (Hlen0 : numscores score_init + Z.of_nat (length cs) <= MAXLOG)
    by (change (numscores score_init) with 0; lia).
  split; [|split].
  - apply (run_scores_invariant (fun s => chain_from 0 (scores s)))
      with (cs := cs) (st := score_init);
      [|exact score_inv_init | exact I | exact Hlen0 | exact Hrun].
    intros s c s' i Hinv HP Hn Hc.
    destruct (do_call_record s s' c i Hinv Hn Hc)
      as (rec & Hsc & Hst & Hshown & Hsum & Hpos & _).
    rewrite Hsc. apply chain_from_snoc; try assumption.
    rewrite Hst. apply curscore_last.
  - apply (run_scores_invariant (fun s => Forall record_in_range (scores s)))
      with (cs := cs) (st := score_init);
      [|exact score_inv_init | constructor | exact Hlen0 | exact Hrun].
    intros s c s' i Hinv HP Hn Hc.
    destruct (do_call_record s s' c i Hinv Hn Hc)
      as (rec & Hsc & _ & _ & _ & _ & Hrange).
    rewrite Hsc. apply Forall_app. split; [assumption|].
    constructor; [assumption | constructor].
  - destruct (run_scores_inv cs score_init st score_inv_init Hlen0 Hrun)
      as [_ Hn].
    rewrite Hn. reflexivity.
Qed.

Lemma log_is_chained_witness :
  chain_from 0
    [Score.mk None None 1 4 0 0 20 80 0 100 WHACK 52;
     Score.mk None None 2 0 100 (-10) 0 0 0 90 ESCAPE 0] /\
  Forall record_in_range
    [Score.mk None None 1 4 0 0 20 80 0 100 WHACK 52;
     Score.mk None None 2 0 100 (-10) 0 0 0 90 ESCAPE 0] /\
  numscores
    (mk_ScoreState
       [Score.mk None None 1 4 0 0 20 80 0 100 WHACK 52;
        Score.mk None None 2 0 100 (-10) 0 0 0 90 ESCAPE 0] 1) = 2.
Proof.
  apply (log_is_chained
           [mk_score_call 1 4 52 4 WHACK; mk_score_call 2 0 0 0 ESCAPE]
           (mk_ScoreState
              [Score.mk None None 1 4 0 0 20 80 0 100 WHACK 52;
               Score.mk None None 2 0 100 (-10) 0 0 0 90 ESCAPE 0] 1)).
  - reflexivity.
  - unfold MAXLOG; simpl; lia.
Defined.

(** X2: the index [compute_score] returns is the position of the record
    it has just appended: looking it up in the new log gives that record
    (with the mole, hole, key and outcome of the call), the log is one
    longer, and every earlier index still holds the record it held. *)
Theorem compute_score_index_round_trip
    (st st' : ScoreState) (mole hole key bonusstage idx : Z)
    (pr : PlayResult) :
  compute_score st mole hole key bonusstage pr = Some (st', idx) ->
  idx = numscores st /\
  numscores st' = numscores st + 1 /\
  (exists rec,
      nth_error (scores st') (Z.to_nat idx) = Some rec /\
      Score.mole rec = mole /\ Score.hole rec = hole /\
      Score.selection rec = key /\ Score.playresult rec = pr /\
      Score.startscore rec = curscore st /\
      curscore st' = Score.endscore rec) /\
  (forall i r,
      nth_error (scores st) i = Some r -> nth_error (scores st') i = Some r).
Proof.
  intros H.
  destruct (compute_score_appends _ _ _ _ _ _ _ _ H)
    as (rec & Hsc & Hidx & Hm & Hh & Hk & Hp & Hs & _ & _).
  split; [assumption|].
  split; [apply (numscores_snoc st st' rec Hsc)|].
  split.
  - exists rec. rewrite Hidx, Hsc. unfold numscores.
    rewrite Nat2Z.id, nth_error_app2 by lia. rewrite Nat.sub_diag.
    repeat split; try assumption.
    apply (curscore_snoc st st' rec Hsc).
  - intros i r Hi. rewrite Hsc. rewrite nth_error_app1; [assumption|].
    apply nth_error_Some. congruence.
Qed.

Lemma compute_score_index_round_trip_witness :
  1 = numscores
        (mk_ScoreState
           [Score.mk None None 1 4 0 0 20 80 0 100 WHACK 52] 0) /\
  numscores
    (mk_ScoreState
       [Score.mk None None 1 4 0 0 20 80 0 100 WHACK 52;
        Score.mk None None (-1) 2 100 0 0 0 0 100 MISFIRE 57] 0)
  = numscores
      (mk_ScoreState
         [Score.mk None None 1 4 0 0 20 80 0 100 WHACK 52] 0) + 1.
Proof.
  pose proof (compute_score_index_round_trip
                (mk_ScoreState
                   [Score.mk None None 1 4 0 0 20 80 0 100 WHACK 52] 0)
                (mk_ScoreState
                   [Score.mk None None 1 4 0 0 20 80 0 100 WHACK 52;
                    Score.mk None None (-1) 2 100 0 0 0 0 100 MISFIRE 57] 0)
                (-1) 2 57 0 1 MISFIRE eq_refl) as H.
  destruct H as (H1 & H2 & _). split; assumption.
Defined.

(** X3: the log is append-only: after any further calls the log begins
    with the log as it was, followed by one record per call, in the
    order and with the outcomes of the calls. *)
Theorem log_is_append_only (cs : list score_call) :
  forall st st',
    run_scores cs st = Some st' ->
    exists l,
      scores st' = scores st ++ l /\
      map Score.playresult l = map call_result cs /\
      map Score.mole l = map call_mole cs /\
      map Score.hole l = map call_hole cs /\
      map Score.selection l = map call_key cs.
Proof.
  induction cs as [|c cs IH]; intros st st' Hrun.
  - simpl in Hrun. inversion Hrun; subst. exists [].
    rewrite app_nil_r. repeat split; reflexivity.
  - cbn [run_scores] in Hrun.
    destruct (do_call st c) as [[st1 i]|] eqn:Hc; [|discriminate].
    unfold do_call in Hc.
    destruct (compute_score_appends _ _ _ _ _ _ _ _ Hc)
      as (rec & Hsc & _ & Hm & Hh & Hk & Hp & _).
    destruct (IH st1 st' Hrun) as (l & Hl & H1 & H2 & H3 & H4).
    exists (rec :: l). rewrite Hl, Hsc, <- app_assoc. cbn [app map].
    rewrite H1, H2, H3, H4, Hm, Hh, Hk, Hp. repeat split; reflexivity.
Qed.

Lemma log_is_append_only_witness :
  exists l,
    [Score.mk None None 1 4 0 0 20 80 0 100 WHACK 52;
     Score.mk None None 2 0 100 (-10) 0 0 0 90 ESCAPE 0]
    = [Score.mk None None 1 4 0 0 20 80 0 100 WHACK 52] ++ l /\
    map Score.playresult l = [ESCAPE] /\
    map Score.mole l = [2] /\
    map Score.hole l = [0] /\
    map Score.selection l = [0].
Proof.
  apply (log_is_append_only [mk_score_call 2 0 0 0 ESCAPE]
           (mk_ScoreState
              [Score.mk None None 1 4 0 0 20 80 0 100 WHACK 52] 0)
           (mk_ScoreState
              [Score.mk None None 1 4 0 0 20 80 0 100 WHACK 52;
               Score.mk None None 2 0 100 (-10) 0 0 0 90 ESCAPE 0] 1)).
  reflexivity.
Defined.


Lemma compute_score_none_whack_inv (st : ScoreState)
      (mole hole key bonusstage : Z) :
  compute_score st mole hole key bonusstage WHACK = None ->
  bonusstage < 0 \/ BONUSSLICES <= bonusstage.
Proof.
  unfold compute_score.
  destruct (Z.leb_spec 0 bonusstage), (Z.ltb_spec bonusstage BONUSSLICES);
    cbn [andb]; try discriminate; intros _; lia.
Qed.

(** X5: on a log the scorer built (fewer than MAXLOG records) a WHACK
    with bonus stage 0..4 adds 20 points plus the bonus of the stage
    (25, 0, 0, 20, 80) to the running total and leaves the count of
    misses, hence the size of the next miss penalty, as it was. *)
Theorem whack_adds_score
    (cs : list score_call) (st : ScoreState)
    (mole hole key bonusstage : Z) :
  run_scores cs score_init = Some st ->
  Z.of_nat (length cs) < MAXLOG ->
  0 <= bonusstage < BONUSSLICES ->
  exists st' idx rec,
    compute_score st mole hole key bonusstage WHACK = Some (st', idx) /\
    scores st' = scores st ++ [rec] /\
    Score.whackedscore rec = 20 /\
    Score.bonusscore rec = nth (Z.to_nat bonusstage) [25; 0; 0; 20; 80] 0 /\
    Score.missedscore rec = 0 /\
    Score.endscore rec =
      curscore st + 20 + nth (Z.to_nat bonusstage) [25; 0; 0; 20; 80] 0 /\
    curscore st + 20 <= curscore st' <= curscore st + 100 /\
    missedcount st' = missedcount st.
Proof.
  intros Hrun Hlen Hb.
  destruct (run_scores_inv cs score_init st score_inv_init
              ltac:(change (numscores score_init) with 0; lia) Hrun)
    as [[_ [Hlo Hhi]] Hn].
  change (numscores score_init) with 0 in Hn. unfold MAXLOG in *.
  assert (Hcur : 0 <= curscore st <= 2147483500) by lia.
  pose proof (BONUSPOINTS_bounds bonusstage) as Hbp.
  assert (Hw20 : int_add 0 WHACKEDMOLESCORE = 20) by reflexivity.
  destruct (compute_score st mole hole key bonusstage WHACK)
    as [[st' idx]|] eqn:Hc.
  2: { apply compute_score_none_whack_inv in Hc. lia. }
  destruct (compute_score_fields _ _ _ _ _ _ _ _ Hc)
    as (m & w & b & Hsc & _ & Hmc & Hm & Hw & Hbo & _).
  rewrite Hw20 in Hw. subst m w.
  change [25; 0; 0; 20; 80] with BONUSPOINTS. rewrite <- Hbo.
  rewrite <- Hbo in Hbp. clear Hbo.
  rewrite (int_add4_exact (curscore st) 0 20 b) in Hsc by lia.
  exists st', idx. eexists. split; [reflexivity|]. split; [exact Hsc|].
  rewrite (curscore_snoc st st' _ Hsc).
  cbn [Score.whackedscore Score.bonusscore Score.missedscore Score.endscore
       is_miss] in *.
  split; [reflexivity|]. split; [reflexivity|]. split; [reflexivity|].
  split; [lia|]. split; [lia|]. exact Hmc.
Qed.

Lemma whack_adds_score_witness :
  exists st' idx rec,
    compute_score
      (mk_ScoreState [Score.mk None None 2 0 0 0 0 0 0 0 ESCAPE 0] 1)
      1 4 52 3 WHACK = Some (st', idx) /\
    scores st' = [Score.mk None None 2 0 0 0 0 0 0 0 ESCAPE 0] ++ [rec] /\
    Score.whackedscore rec = 20 /\
    Score.bonusscore rec = nth (Z.to_nat 3) [25; 0; 0; 20; 80] 0 /\
    Score.missedscore rec = 0 /\
    Score.endscore rec =
      curscore (mk_ScoreState [Score.mk None None 2 0 0 0 0 0 0 0 ESCAPE 0] 1)
      + 20 + nth (Z.to_nat 3) [25; 0; 0; 20; 80] 0 /\
    curscore (mk_ScoreState [Score.mk None None 2 0 0 0 0 0 0 0 ESCAPE 0] 1)
      + 20 <= curscore st'
      <= curscore
           (mk_ScoreState [Score.mk None None 2 0 0 0 0 0 0 0 ESCAPE 0] 1)
         + 100 /\
    missedcount st' =
      missedcount
        (mk_ScoreState [Score.mk None None 2 0 0 0 0 0 0 0 ESCAPE 0] 1).
Proof.
  apply (whack_adds_score [mk_score_call 2 0 0 0 ESCAPE]
           (mk_ScoreState [Score.mk None None 2 0 0 0 0 0 0 0 ESCAPE 0] 1)
           1 4 52 3).
  - reflexivity.
  - unfold MAXLOG; simpl; lia.
  - unfold BONUSSLICES; lia.
Defined.

(** ** The slot lock manager *)

Lemma set_lock_length (locks : list bool) :
  forall n v, length (set_lock locks n v) = length locks.
Proof.
  induction locks as [|b rest IH]; intros [|n] v; simpl; auto.
Qed.

Lemma nth_error_set_lock_eq (locks : list bool) :
  forall n v, (n < length locks)%nat ->
              nth_error (set_lock locks n v) n = Some v.
Proof.
  induction locks as [|b rest IH]; intros [|n] v H; simpl in *;
    try lia; [reflexivity|]. apply IH. lia.
Qed.

Lemma nth_error_set_lock_ne (locks : list bool) :
  forall n m v, n <> m ->
                nth_error (set_lock locks n v) m = nth_error locks m.
Proof.
  induction locks as [|b rest IH]; intros [|n] [|m] v H; simpl;
    try reflexivity; try contradiction. apply IH. congruence.
Qed.

Lemma set_lock_restore (locks : list bool) :
  forall n v w, nth_error locks n = Some v ->
                set_lock (set_lock locks n w) n v = locks.
Proof.
  induction locks as [|b rest IH]; intros [|n] v w H; simpl in *;
    try discriminate.
  - inversion H; reflexivity.
  - rewrite IH by assumption. reflexivity.
Qed.

Lemma hole_locked_range (locks : list bool) (h : Z) (b : bool) :
  hole_locked locks h = Some b ->
  0 <= h < MOLEHOLES /\ nth_error locks (Z.to_nat h) = Some b.
Proof.
  unfold hole_locked.
  destruct (Z.leb_spec 0 h), (Z.ltb_spec h MOLEHOLES); cbn [andb];
    try discriminate.
  intros Hx. split; [lia | exact Hx].
Qed.

Lemma hole_locked_set_eq (locks : list bool) (h : Z) (b v : bool) :
  hole_locked locks h = Some b ->
  hole_locked (set_lock locks (Z.to_nat h) v) h = Some v.
Proof.
  intros H. destruct (hole_locked_range _ _ _ H) as [Hr Hn].
  unfold hole_locked.
  replace ((0 <=? h) && (h <? MOLEHOLES)) with true
    by (symmetry; apply andb_true_iff; split;
        [apply Z.leb_le | apply Z.ltb_lt]; lia).
  apply nth_error_set_lock_eq. apply nth_error_Some. congruence.
Qed.

Lemma hole_locked_set_ne (locks : list bool) (h j : Z) (v : bool) :
  0 <= h -> j <> h ->
  hole_locked (set_lock locks (Z.to_nat h) v) j = hole_locked locks j.
Proof.
  intros Hh Hj. unfold hole_locked.
  destruct ((0 <=? j) && (j <? MOLEHOLES)) eqn:E; [|reflexivity].
  apply andb_true_iff in E. destruct E as [E1 _]. apply Z.leb_le in E1.
  apply nth_error_set_lock_ne. lia.
Qed.

Example claim_any_skips_busy_hole :
  claim_any (fun k => nth k [13; 22; 5] 0) 0
            (set_lock hole_mtx_init 4 true) [fun l => l; fun l => l]
  = Returned (5, set_lock (set_lock hole_mtx_init 4 true) 5 true, []).
Proof. reflexivity. Qed.

Example claim_specific_blocks_until_released :
  claim_mole_hole 4 (fun _ => 0) (set_lock hole_mtx_init 4 true)
                  [fun l => l; fun l => set_lock l 4 false]
  = Returned (4, set_lock hole_mtx_init 4 true, []).
Proof. reflexivity. Qed.

Lemma claim_any_spec (rnd : nat -> Z) (others : lock_moves) :
  forall k locks h locks' rest,
    claim_any rnd k locks others = Returned (h, locks', rest) ->
    exists slept,
      others = slept ++ rest /\
      hole_locked (after_moves slept locks) h = Some false /\
      locks' = set_lock (after_moves slept locks) (Z.to_nat h) true.
Proof.
  induction others as [|f others IH]; intros k locks h locks' rest H;
    cbn [claim_any] in H; unfold pthread_mutex_trylock in H;
    destruct (hole_locked locks (to_int (long_rem (rnd k) MOLEHOLES)))
      as [[|]|] eqn:E; try discriminate H.
  - inversion H; subst. exists []. repeat split; assumption.
  - change (EBUSY =? 0) with false in H. cbv iota in H.
    destruct (IH _ _ _ _ _ H) as (slept & Ho & Hfree & Hl).
    exists (f :: slept). cbn [app after_moves fold_left].
    rewrite Ho. repeat split; assumption.
  - inversion H; subst. exists []. repeat split; assumption.
Qed.

(** X6: whatever [claim_mole_hole(-1)] returns is a hole number in
    [0, MOLEHOLES) whose lock was free at the moment it was tried; the
    call leaves that lock taken and every other lock as the other
    threads left it.  It never returns a hole that is occupied. *)
Theorem claim_any_hole_is_exclusive
    (rnd : nat -> Z) (locks locks' : list bool) (others rest : lock_moves)
    (h : Z) :
  claim_mole_hole (-1) rnd locks others = Returned (h, locks', rest) ->
  exists slept,
    others = slept ++ rest /\
    0 <= h < MOLEHOLES /\
    hole_locked (after_moves slept locks) h = Some false /\
    hole_locked locks' h = Some true /\
    (forall j, j <> h ->
               hole_locked locks' j = hole_locked (after_moves slept locks) j).
Proof.
  unfold claim_mole_hole. cbn [orb Z.ltb Z.geb Z.compare Z.eqb].
  change (-1 <? -1) with false. change (-1 >=? MOLEHOLES) with false.
  cbn [orb]. intros H.
  destruct (claim_any_spec rnd others 0%nat locks h locks' rest H)
    as (slept & Ho & Hfree & Hl).
  exists slept. destruct (hole_locked_range _ _ _ Hfree) as [Hr _].
  split; [assumption|]. split; [assumption|]. split; [assumption|].
  subst locks'. split.
  - eapply hole_locked_set_eq; eassumption.
  - intros j Hj. apply hole_locked_set_ne; [lia | assumption].
Qed.

Lemma claim_any_hole_is_exclusive_witness :
  exists slept,
    [fun l : list bool => l; fun l : list bool => l] = slept ++ [] /\
    0 <= 5 < MOLEHOLES /\
    hole_locked (after_moves slept (set_lock hole_mtx_init 4 true)) 5
    = Some false /\
    hole_locked (set_lock (set_lock hole_mtx_init 4 true) 5 true) 5
    = Some true /\
    (forall j, j <> 5 ->
               hole_locked (set_lock (set_lock hole_mtx_init 4 true) 5 true) j
               = hole_locked
                   (after_moves slept (set_lock hole_mtx_init 4 true)) j).
Proof.
  apply (claim_any_hole_is_exclusive (fun k => nth k [13; 22; 5] 0)
           (set_lock hole_mtx_init 4 true)
           (set_lock (set_lock hole_mtx_init 4 true) 5 true)
           [fun l => l; fun l => l] [] 5).
  reflexivity.
Defined.

Lemma range_test_false (lo h : Z) :
  lo <= h < MOLEHOLES -> (h <? lo) || (h >=? MOLEHOLES) = false.
Proof.
  intros Hr. rewrite Z.geb_leb.
  destruct (Z.ltb_spec h lo), (Z.leb_spec MOLEHOLES h); cbn [orb];
    try reflexivity; lia.
Qed.

Lemma range_test_true (lo h : Z) :
  h < lo \/ MOLEHOLES <= h -> (h <? lo) || (h >=? MOLEHOLES) = true.
Proof.
  intros Hr. rewrite Z.geb_leb.
  destruct (Z.ltb_spec h lo), (Z.leb_spec MOLEHOLES h); cbn [orb];
    try reflexivity; lia.
Qed.

Lemma check_mole_hole_known (molehole : Z) (locks : list bool) (b : bool) :
  hole_locked locks molehole = Some b ->
  check_mole_hole molehole locks = Returned (if b then 1 else 0, locks).
Proof.
  intros H. destruct (hole_locked_range _ _ _ H) as [Hr Hn].
  unfold check_mole_hole.
  rewrite (range_test_false 0 molehole) by lia.
  unfold pthread_mutex_trylock. rewrite H. destruct b.
  - reflexivity.
  - cbn [Z.eqb]. unfold pthread_mutex_unlock.
    rewrite (hole_locked_set_eq locks molehole false true H).
    rewrite (set_lock_restore locks _ false true Hn). reflexivity.
Qed.

(** X7: [check_mole_hole] answers 1 for a locked hole and 0 for a free
    one and leaves every lock as it found it (its trylock is undone at
    once); a hole number outside [0, MOLEHOLES) ends the process. *)
Theorem check_mole_hole_probe (molehole : Z) (locks : list bool) :
  (molehole < 0 \/ MOLEHOLES <= molehole ->
   check_mole_hole molehole locks = Aborted) /\
  (forall b, hole_locked locks molehole = Some b ->
             check_mole_hole molehole locks
             = Returned (if b then 1 else 0, locks)) /\
  (forall r locks',
      check_mole_hole molehole locks = Returned (r, locks') ->
      locks' = locks /\
      (r = 1 <-> hole_locked locks molehole = Some true) /\
      (r = 0 <-> hole_locked locks molehole = Some false)).
Proof.
  pose proof (check_mole_hole_known molehole locks) as Hb.
  split; [|split; [exact Hb|]].
  - intros H. unfold check_mole_hole.
    rewrite (range_test_true 0 molehole) by exact H. reflexivity.
  - intros r locks' H.
    destruct (hole_locked locks molehole) as [b|] eqn:E.
    + rewrite (Hb b eq_refl) in H. inversion H; subst.
      destruct b; repeat split; intros; try reflexivity;
        try discriminate; try lia.
    + unfold check_mole_hole, pthread_mutex_trylock in H. rewrite E in H.
      destruct (_ || _); discriminate H.
Qed.

Lemma check_mole_hole_probe_witness :
  check_mole_hole 4 (set_lock hole_mtx_init 4 true)
  = Returned (1, set_lock hole_mtx_init 4 true).
Proof.
  destruct (check_mole_hole_probe 4 (set_lock hole_mtx_init 4 true))
    as (_ & H & _).
  apply (H true). reflexivity.
Defined.

(** X8: claiming a free hole by number takes exactly its lock and
    returns the same number; the hole then probes as claimed, and
    releasing it gives back the lock state from before the claim.  A
    number below -1 or from MOLEHOLES up ends the process, and a hole
    that is taken and that nobody releases keeps the caller blocked. *)
Theorem claim_release_round_trip
    (molehole : Z) (rnd : nat -> Z) (locks : list bool)
    (others : lock_moves) :
  (molehole < -1 \/ MOLEHOLES <= molehole ->
   claim_mole_hole molehole rnd locks others = Aborted) /\
  (hole_locked locks molehole = Some true ->
   claim_mole_hole molehole rnd locks [] = Blocked) /\
  (hole_locked locks molehole = Some false ->
   let locks' := set_lock locks (Z.to_nat molehole) true in
   claim_mole_hole molehole rnd locks others
   = Returned (molehole, locks', others) /\
   check_mole_hole molehole locks' = Returned (1, locks') /\
   release_mole_hole molehole locks' = Returned locks /\
   release_mole_hole molehole locks = Undefined).
Proof.
  split; [|split].
  - intros H. unfold claim_mole_hole.
    rewrite (range_test_true (-1) molehole) by exact H. reflexivity.
  - intros H. destruct (hole_locked_range _ _ _ H) as [Hr Hn].
    unfold claim_mole_hole.
    rewrite (range_test_false (-1) molehole) by lia.
    replace (molehole =? -1) with false by (symmetry; apply Z.eqb_neq; lia).
    cbn [pthread_mutex_lock]. unfold pthread_mutex_trylock. rewrite H.
    reflexivity.
  - intros H locks'. destruct (hole_locked_range _ _ _ H) as [Hr Hn].
    pose proof (hole_locked_set_eq locks molehole false true H) as Hset.
    fold locks' in Hset.
    split; [|split; [|split]].
    + unfold claim_mole_hole.
      rewrite (range_test_false (-1) molehole) by lia.
      replace (molehole =? -1) with false
        by (symmetry; apply Z.eqb_neq; lia).
      destruct others; cbn [pthread_mutex_lock];
        unfold pthread_mutex_trylock; rewrite H; reflexivity.
    + apply (check_mole_hole_known molehole locks' true Hset).
    + unfold release_mole_hole, pthread_mutex_unlock. rewrite Hset.
      unfold locks'. rewrite (set_lock_restore locks _ false true Hn).
      reflexivity.
    + unfold release_mole_hole, pthread_mutex_unlock. rewrite H.
      reflexivity.
Qed.

Lemma claim_release_round_trip_witness :
  let locks' := set_lock hole_mtx_init (Z.to_nat 4) true in
  claim_mole_hole 4 (fun _ => 0) hole_mtx_init []
  = Returned (4, locks', []) /\
  check_mole_hole 4 locks' = Returned (1, locks') /\
  release_mole_hole 4 locks' = Returned hole_mtx_init /\
  release_mole_hole 4 hole_mtx_init = Undefined.
Proof.
  destruct (claim_release_round_trip 4 (fun _ => 0) hole_mtx_init [])
    as (_ & _ & H).
  apply H. reflexivity.
Defined.


Lemma claim_any_free (rnd : nat -> Z) (k : nat) (locks : list bool)
      (others : lock_moves) :
  hole_locked locks (to_int (long_rem (rnd k) MOLEHOLES)) = Some false ->
  claim_any rnd k locks others
  = Returned (to_int (long_rem (rnd k) MOLEHOLES),
              set_lock locks
                (Z.to_nat (to_int (long_rem (rnd k) MOLEHOLES))) true,
              others).
Proof.
  intros H. destruct others; cbn [claim_any];
    unfold pthread_mutex_trylock; rewrite H; reflexivity.
Qed.

Lemma claim_any_busy (rnd : nat -> Z) (k : nat) (locks : list bool) :
  hole_locked locks (to_int (long_rem (rnd k) MOLEHOLES)) = Some true ->
  claim_any rnd k locks [] = Blocked /\
  forall f rest,
    claim_any rnd k locks (f :: rest) = claim_any rnd (S k) (f locks) rest.
Proof.
  intros H. split; [|intros f rest]; cbn [claim_any];
    unfold pthread_mutex_trylock; rewrite H; reflexivity.
Qed.

(** Every draw names a hole of the array. *)
Lemma draw_in_range (r : Z) :
  0 <= r <= INT_MAX -> 0 <= to_int (long_rem r MOLEHOLES) < MOLEHOLES.
Proof.
  unfold INT_MAX, MOLEHOLES, long_rem. intros Hr.
  rewrite Z.rem_mod_nonneg by lia.
  pose proof (Z.mod_pos_bound r 9 ltac:(lia)) as Hm.
  rewrite (to_long_id (r mod 9))
    by (unfold in_long, LONG_MIN, LONG_MAX; lia).
  rewrite (to_int_id (r mod 9)) by (unfold in_int, INT_MIN, INT_MAX; lia).
  exact Hm.
Qed.

Lemma hole_locked_some (locks : list bool) (h : Z) :
  length locks = Z.to_nat MOLEHOLES -> 0 <= h < MOLEHOLES ->
  exists b, hole_locked locks h = Some b.
Proof.
  intros Hlen Hr. unfold hole_locked.
  destruct (Z.leb_spec 0 h), (Z.ltb_spec h MOLEHOLES); cbn [andb]; try lia.
  destruct (nth_error locks (Z.to_nat h)) as [b|] eqn:E;
    [exists b; reflexivity|].
  apply nth_error_None in E. lia.
Qed.

(** The busy-poll finds a free hole as soon as one is drawn. *)
Lemma claim_any_live (rnd : nat -> Z) (locks : list bool) :
  length locks = Z.to_nat MOLEHOLES ->
  (forall i, 0 <= rnd i <= INT_MAX) ->
  forall j k n,
    (j <= n)%nat ->
    hole_locked locks (to_int (long_rem (rnd (k + j)%nat) MOLEHOLES))
    = Some false ->
    exists h locks' rest,
      claim_any rnd k locks (repeat (fun l => l) n)
      = Returned (h, locks', rest) /\
      hole_locked locks h = Some false.
Proof.
  intros Hlen Hrnd.
  induction j as [|j IH]; intros k n Hj Hfree.
  - rewrite Nat.add_0_r in Hfree.
    rewrite (claim_any_free rnd k locks _ Hfree).
    do 3 eexists. split; [reflexivity | exact Hfree].
  - destruct n as [|n]; [lia|].
    destruct (hole_locked_some locks _ Hlen (draw_in_range _ (Hrnd k)))
      as [[|] Hk].
    + cbn [repeat].
      destruct (claim_any_busy rnd k locks Hk) as [_ Hstep].
      rewrite Hstep. apply IH; [lia|].
      replace (S k + j)%nat with (k + S j)%nat by lia. exact Hfree.
    + rewrite (claim_any_free rnd k locks _ Hk).
      do 3 eexists. split; [reflexivity | exact Hk].
Qed.

(** X9: with nobody else touching the locks, [claim_mole_hole(-1)]
    returns as soon as one of its draws names a free hole: if the j-th
    draw does and it may sleep at least j times, it returns a hole that
    was free; if every hole is taken it is still polling when its sleeps
    are used up. *)
Theorem claim_any_finds_free_hole
    (rnd : nat -> Z) (locks : list bool) (j n : nat) :
  length locks = Z.to_nat MOLEHOLES ->
  (forall i, 0 <= rnd i <= INT_MAX) ->
  ((j <= n)%nat ->
   hole_locked locks (to_int (long_rem (rnd j) MOLEHOLES)) = Some false ->
   exists h locks' rest,
     claim_mole_hole (-1) rnd locks (repeat (fun l => l) n)
     = Returned (h, locks', rest) /\
     hole_locked locks h = Some false) /\
  (Forall (fun b => b = true) locks ->
   claim_mole_hole (-1) rnd locks (repeat (fun l => l) n) = Blocked).
Proof.
  intros Hlen Hrnd.
  assert (Hcm : forall others,
             claim_mole_hole (-1) rnd locks others
             = claim_any rnd 0 locks others) by reflexivity.
  rewrite Hcm. split.
  - intros Hj Hfree.
    apply (claim_any_live rnd locks Hlen Hrnd j 0%nat n Hj Hfree).
  - intros Hall.
    assert (Hsome : forall i,
               hole_locked locks (to_int (long_rem (rnd i) MOLEHOLES))
               = Some true).
    { intros i.
      destruct (hole_locked_some locks _ Hlen (draw_in_range _ (Hrnd i)))
        as [b Hb].
      destruct (hole_locked_range _ _ _ Hb) as [_ Hn].
      apply nth_error_In in Hn. rewrite Forall_forall in Hall.
      rewrite (Hall b Hn) in Hb. exact Hb. }
    generalize 0%nat as k.
    induction n as [|n IH]; intros k; cbn [repeat];
      destruct (claim_any_busy rnd k locks (Hsome k)) as [Hb Hstep].
    + exact Hb.
    + rewrite Hstep. apply IH.
Qed.

Lemma claim_any_finds_free_hole_witness :
  exists h locks' rest,
    claim_mole_hole (-1) (fun k => nth k [13; 22; 5] 0)
                    (set_lock hole_mtx_init 4 true)
                    (repeat (fun l => l) 3)
    = Returned (h, locks', rest) /\
    hole_locked (set_lock hole_mtx_init 4 true) h = Some false.
Proof.
  destruct (claim_any_finds_free_hole (fun k => nth k [13; 22; 5] 0)
              (set_lock hole_mtx_init 4 true) 2%nat 3%nat) as [H _].
  - reflexivity.
  - intros i. unfold INT_MAX.
    destruct i as [|[|[|i]]]; simpl; try lia.
    destruct i; simpl; lia.
  - apply H; [lia | reflexivity].
Defined.

(** ** Timers *)

Lemma timer_expiry_exact (msec : Z) (ts : timespec) :
  normalized ts -> 0 <= msec <= INT_MAX ->
  LONG_MIN <= tv_sec ts ->
  tv_sec ts + msec / 1000 + 1 <= LONG_MAX ->
  normalized (timer_expiry msec ts) /\
  timespec_ns (timer_expiry msec ts) = timespec_ns ts + msec * 1000000.
Proof.
  destruct ts as [sec nsec]. unfold normalized, INT_MAX, LONG_MIN, LONG_MAX.
  cbn [tv_sec tv_nsec]. intros Hn Hm Hs Hd.
  unfold timer_expiry, timespec_ns, MSEC. cbn [tv_sec tv_nsec].
  unfold long_add, long_mul, long_sub.
  pose proof (Z.mod_pos_bound msec 1000 ltac:(lia)) as Hmm.
  pose proof (Z.div_pos msec 1000 ltac:(lia) ltac:(lia)) as Hq.
  pose proof (Z.div_mod msec 1000 ltac:(lia)) as Hdm.
  rewrite (Z.rem_mod_nonneg msec 1000) by lia.
  rewrite (Z.quot_div_nonneg msec 1000) by lia.
  long_simpl.
  destruct (Z.geb_spec (nsec + msec mod 1000 * 1000000) 1000000000);
    cbn [tv_sec tv_nsec]; long_simpl; split; lia.
Qed.

(** X10: for a normalized timespec well inside the range of time_t,
    the end of the scared cooldown computed by [control_moles] is that
    time plus exactly 2000 ms, and the end of the misfire display computed
    by [display_thread] is that time plus exactly 1500 ms; both results
    are normalized (tv_nsec in [0, 10^9)). *)
Theorem expiry_timers_exact (ts : timespec) :
  normalized ts -> LONG_MIN <= tv_sec ts -> tv_sec ts + 3 <= LONG_MAX ->
  normalized (scared_expiry ts) /\
  timespec_ns (scared_expiry ts) = timespec_ns ts + 2000 * 1000000 /\
  normalized (misfire_expiry ts) /\
  timespec_ns (misfire_expiry ts) = timespec_ns ts + 1500 * 1000000.
Proof.
  intros Hn Hs Hd.
  destruct (timer_expiry_exact SCAREDDURATION ts Hn
              ltac:(unfold SCAREDDURATION, INT_MAX; lia) Hs
              ltac:(change (SCAREDDURATION / 1000) with 2; lia)) as [H1 H2].
  destruct (timer_expiry_exact MisfireDisplayTime ts Hn
              ltac:(unfold MisfireDisplayTime, INT_MAX; lia) Hs
              ltac:(change (MisfireDisplayTime / 1000) with 1; lia))
    as [H3 H4].
  repeat split; try assumption; apply H1 || apply H3.
Qed.

Lemma expiry_timers_exact_witness :
  normalized (scared_expiry (mk_timespec 100 999999999)) /\
  timespec_ns (scared_expiry (mk_timespec 100 999999999))
  = timespec_ns (mk_timespec 100 999999999) + 2000 * 1000000 /\
  normalized (misfire_expiry (mk_timespec 100 999999999)) /\
  timespec_ns (misfire_expiry (mk_timespec 100 999999999))
  = timespec_ns (mk_timespec 100 999999999) + 1500 * 1000000.
Proof.
  apply (expiry_timers_exact (mk_timespec 100 999999999)).
  - unfold normalized; simpl; lia.
  - unfold LONG_MIN; simpl; lia.
  - unfold LONG_MAX; simpl; lia.
Defined.

Lemma timespec_after_ns (a b : timespec) :
  normalized a -> normalized b ->
  (timespec_after a b = true <-> timespec_ns a > timespec_ns b).
Proof.
  destruct a as [sa na], b as [sb nb].
  unfold normalized, timespec_after, timespec_ns. cbn [tv_sec tv_nsec].
  intros Ha Hb.
  destruct (Z.gtb_spec sa sb), (Z.eqb_spec sa sb), (Z.gtb_spec na nb);
    cbn [orb andb]; split; intros; try reflexivity; try discriminate;
    try lia.
Qed.

(** X11: on normalized timespecs the comparison both timers are tested
    with holds exactly when the first instant is strictly later than the
    second; so the scheduler treats a row as cooled down exactly when the
    monotonic clock is more than 2000 ms past the row's scared time. *)
Theorem cooldown_is_two_seconds (tsnow scaredtime : timespec) :
  normalized tsnow -> normalized scaredtime ->
  LONG_MIN <= tv_sec scaredtime -> tv_sec scaredtime + 3 <= LONG_MAX ->
  (forall a b, normalized a -> normalized b ->
               (timespec_after a b = true <->
                timespec_ns a > timespec_ns b)) /\
  (timespec_after tsnow (scared_expiry scaredtime) = true <->
   timespec_ns tsnow > timespec_ns scaredtime + 2000 * 1000000).
Proof.
  intros Hn Hs Hlo Hhi. split; [apply timespec_after_ns|].
  destruct (timer_expiry_exact SCAREDDURATION scaredtime Hs
              ltac:(unfold SCAREDDURATION, INT_MAX; lia) Hlo
              ltac:(change (SCAREDDURATION / 1000) with 2; lia)) as [H1 H2].
  unfold scared_expiry.
  rewrite (timespec_after_ns _ _ Hn H1), H2. reflexivity.
Qed.

Lemma cooldown_is_two_seconds_witness :
  timespec_after (mk_timespec 103 0)
                 (scared_expiry (mk_timespec 100 999999999)) = true <->
  timespec_ns (mk_timespec 103 0)
  > timespec_ns (mk_timespec 100 999999999) + 2000 * 1000000.
Proof.
  apply (cooldown_is_two_seconds (mk_timespec 103 0)
           (mk_timespec 100 999999999)).
  - unfold normalized; simpl; lia.
  - unfold normalized; simpl; lia.
  - unfold LONG_MIN; simpl; lia.
  - unfold LONG_MAX; simpl; lia.
Defined.


(** ** The lifecycle scheduler *)

Example control_moles_turn_starts_first_mole :
  control_moles_turn 20 6500 (mk_timespec 50 0) 71 72 73 scheduler_init
  = Returned
      (mk_scheduler
         [Mole.mk ASSIGNED AVAILABLE 71 72 73 0 1 6500 0 0 0 0 Anim.zero 0 0 0
                  (mk_timespec 0 0);
          Mole.zero; Mole.zero] 1 0 1).
Proof. reflexivity. Qed.

Lemma set_row_length (tbl : list MoleCommRecord) :
  forall n p, length (set_row tbl n p) = length tbl.
Proof.
  induction tbl as [|r rest IH]; intros [|n] p; simpl; auto.
Qed.



Lemma count_active_set_row (tbl : list MoleCommRecord) :
  forall n p r,
    nth_error tbl n = Some r ->
    count_active (set_row tbl n p)
    = count_active tbl - (if is_available r then 0 else 1)
      + (if is_available p then 0 else 1).
Proof.
  induction tbl as [|x rest IH]; intros [|n] p r H; simpl in *;
    try discriminate.
  - inversion H; subst. lia.
  - rewrite (IH n p r H). lia.
Qed.

Lemma count_active_bounds (tbl : list MoleCommRecord) :
  0 <= count_active tbl <= Z.of_nat (length tbl).
Proof.
  induction tbl as [|x rest IH]; simpl count_active; cbn [length];
    [lia|]. destruct (is_available x); lia.
Qed.

Lemma count_active_same (tbl tbl' : list MoleCommRecord) :
  Forall2 (fun r r' => is_available r = is_available r') tbl tbl' ->
  count_active tbl' = count_active tbl /\ length tbl' = length tbl.
Proof.
  induction 1 as [|r r' l l' Hr _ [IH1 IH2]]; [split; reflexivity|].
  cbn [count_active length]. rewrite Hr, IH1, IH2. split; reflexivity.
Qed.

Lemma count_active_zero (tbl : list MoleCommRecord) :
  count_active tbl = 0 -> Forall (fun r => Mole.molestatus r = AVAILABLE) tbl.
Proof.
  induction tbl as [|x rest IH]; intros H; [constructor|].
  cbn [count_active] in H. pose proof (count_active_bounds rest).
  destruct (is_available x) eqn:E; [|lia].
  constructor; [apply MoleStatus_eqb_eq; exact E | apply IH; lia].
Qed.

(** What one turn does, case by case. *)
Lemma control_moles_turn_cases (count duration : Z) (tsnow : timespec)
      (thread keycond dispcond : Z) (s s' : scheduler) :
  control_moles_turn count duration tsnow thread keycond dispcond s
  = Returned s' ->
  exists p,
    nth_error (sch_table s) (Z.to_nat (sch_idx s)) = Some p /\
    sch_idx s' = (if int_add (sch_idx s) 1 =? CONCURRENTMOLES then 0
                  else int_add (sch_idx s) 1) /\
    ((sch_table s' = sch_table s /\ molesstarted s' = molesstarted s /\
      molescompleted s' = molescompleted s /\
      (timespec_after tsnow (scared_expiry (Mole.scaredtime p)) = false \/
       (Mole.molestatus p <> AVAILABLE /\ Mole.molestatus p <> COMPLETE) \/
       (Mole.molestatus p = AVAILABLE /\ count <= molesstarted s)))
     \/
     (timespec_after tsnow (scared_expiry (Mole.scaredtime p)) = true /\
      Mole.molestatus p = AVAILABLE /\ molesstarted s < count /\
      sch_table s' =
        set_row (sch_table s) (Z.to_nat (sch_idx s))
          (row_handles thread keycond dispcond
             (Mole.set_molestatus ASSIGNED
                (row_assign (int_add (molesstarted s) 1) (sch_idx s)
                            duration p))) /\
      molesstarted s' = int_add (molesstarted s) 1 /\
      molescompleted s' = molescompleted s)
     \/
     (timespec_after tsnow (scared_expiry (Mole.scaredtime p)) = true /\
      Mole.molestatus p = COMPLETE /\
      sch_table s' = set_row (sch_table s) (Z.to_nat (sch_idx s)) Mole.zero /\
      molesstarted s' = molesstarted s /\
      molescompleted s' = int_add (molescompleted s) 1)).
Proof.
  unfold control_moles_turn. intros H.
  destruct (nth_error (sch_table s) (Z.to_nat (sch_idx s))) as [p|];
    [|discriminate H].
  exists p. split; [reflexivity|].
  destruct (timespec_after tsnow (scared_expiry (Mole.scaredtime p))) eqn:Ec.
  - destruct (Mole.molestatus p) eqn:Es.
    + destruct (Z.ltb_spec (molesstarted s) count) as [Hlt|Hge].
      * unfold set_mole_status in H.
        change (Mole.molestatus (row_assign _ _ _ p))
          with (Mole.molestatus p) in H.
        rewrite Es in H. cbn in H. inversion H; subst; clear H.
        cbn [sch_idx sch_table molesstarted molescompleted].
        split; [reflexivity|]. right. left.
        repeat split; try reflexivity; assumption.
      * inversion H; subst; clear H.
        cbn [sch_idx sch_table molesstarted molescompleted].
        split; [reflexivity|]. left.
        repeat split; try reflexivity. right. right. split; [reflexivity|lia].
    + inversion H; subst; clear H.
      cbn [sch_idx sch_table molesstarted molescompleted].
      split; [reflexivity|]. left. repeat split; try reflexivity.
      right. left. split; discriminate.
    + inversion H; subst; clear H.
      cbn [sch_idx sch_table molesstarted molescompleted].
      split; [reflexivity|]. left. repeat split; try reflexivity.
      right. left. split; discriminate.
    + inversion H; subst; clear H.
      cbn [sch_idx sch_table molesstarted molescompleted].
      split; [reflexivity|]. left. repeat split; try reflexivity.
      right. left. split; discriminate.
    + inversion H; subst; clear H.
      cbn [sch_idx sch_table molesstarted molescompleted].
      split; [reflexivity|]. left. repeat split; try reflexivity.
      right. left. split; discriminate.
    + inversion H; subst; clear H.
      cbn [sch_idx sch_table molesstarted molescompleted].
      split; [reflexivity|]. left. repeat split; try reflexivity.
      right. left. split; discriminate.
    + inversion H; subst; clear H.
      cbn [sch_idx sch_table molesstarted molescompleted].
      split; [reflexivity|]. left. repeat split; try reflexivity.
      right. left. split; discriminate.
    + inversion H; subst; clear H.
      cbn [sch_idx sch_table molesstarted molescompleted].
      split; [reflexivity|]. left. repeat split; try reflexivity.
      right. left. split; discriminate.
    + unfold set_mole_status in H. rewrite Es in H. cbn in H.
      inversion H; subst; clear H.
      cbn [sch_idx sch_table molesstarted molescompleted].
      split; [reflexivity|]. right. right.
      repeat split; reflexivity.
  - inversion H; subst; clear H.
    cbn [sch_idx sch_table molesstarted molescompleted].
    split; [reflexivity|]. left. repeat split; try reflexivity.
    left. reflexivity.
Qed.

Lemma scheduler_inv_turn (count duration : Z) (tsnow : timespec)
      (thread keycond dispcond : Z) (s s' : scheduler) :
  count <= MAXPOPUPCOUNT ->
  scheduler_inv count s ->
  control_moles_turn count duration tsnow thread keycond dispcond s
  = Returned s' ->
  scheduler_inv count s'.
Proof.
  unfold MAXPOPUPCOUNT. intros Hc (Hlen & Hcomp & Hact & Hle & Hidx) Hturn.
  destruct (control_moles_turn_cases _ _ _ _ _ _ _ _ Hturn)
    as (p & Hp & Hnext & Hcase).
  pose proof (count_active_bounds (sch_table s)) as Hb.
  assert (Hidx' : 0 <= sch_idx s' < CONCURRENTMOLES).
  { rewrite Hnext. unfold CONCURRENTMOLES in *.
    unfold int_add. rewrite to_int_id
      by (unfold in_int, INT_MIN, INT_MAX; lia).
    destruct (Z.eqb_spec (sch_idx s + 1) 3); lia. }
  unfold scheduler_inv.
  destruct Hcase as [(Ht & Hs & Hcm & _)
                    |[(_ & Hst & Hlt & Ht & Hs & Hcm)
                     |(_ & Hst & Ht & Hs & Hcm)]].
  - rewrite Ht, Hs, Hcm. repeat split; try assumption; lia.
  - rewrite Ht, Hs, Hcm, set_row_length.
    rewrite (count_active_set_row _ _ _ p Hp).
    unfold is_available at 1. rewrite Hst.
    change (MoleStatus_eqb AVAILABLE AVAILABLE) with true.
    change (is_available (row_handles _ _ _ (Mole.set_molestatus _ _)))
      with false.
    unfold int_add. rewrite to_int_id
      by (unfold in_int, INT_MIN, INT_MAX; lia).
    repeat split; try assumption; lia.
  - rewrite Ht, Hs, Hcm, set_row_length.
    rewrite (count_active_set_row _ _ _ p Hp).
    unfold is_available at 1. rewrite Hst.
    change (MoleStatus_eqb COMPLETE AVAILABLE) with false.
    change (is_available Mole.zero) with true.
    assert (Hpos : 1 <= count_active (sch_table s)).
    { clear - Hp Hst. revert Hp. generalize (Z.to_nat (sch_idx s)).
      induction (sch_table s) as [|x rest IH]; intros [|n] Hp;
        simpl in Hp; try discriminate.
      - inversion Hp; subst. cbn [count_active]. unfold is_available.
        rewrite Hst. change (MoleStatus_eqb COMPLETE AVAILABLE) with false.
        pose proof (count_active_bounds rest). lia.
      - cbn [count_active]. specialize (IH n Hp).
        destruct (is_available x); lia. }
    unfold int_add. rewrite to_int_id
      by (unfold in_int, INT_MIN, INT_MAX; lia).
    repeat split; try assumption; lia.
Qed.

Lemma scheduler_reaches_inv (count duration : Z) (s : scheduler) :
  0 <= count <= MAXPOPUPCOUNT ->
  scheduler_reaches count duration s -> scheduler_inv count s.
Proof.
  intros Hc Hr. induction Hr as [|s s' tsnow t k d _ IH _ Hturn
                                 |s tbl' _ IH Hsame].
  - unfold scheduler_inv, CONCURRENTMOLES. simpl. lia.
  - eapply scheduler_inv_turn; [lia | exact IH | exact Hturn].
  - destruct (count_active_same _ _ Hsame) as [Hca Hl].
    destruct IH as (Hlen & Hcomp & Hact & Hle & Hidx).
    unfold scheduler_inv.
    cbn [sch_table molesstarted molescompleted sch_idx].
    rewrite Hca, Hl. repeat split; assumption || lia.
Qed.

(** X12: whatever count is asked for, [control_moles] works with a
    count in [1, MAXPOPUPCOUNT], and in every state it reaches the number
    of controllers started and not yet reaped equals the number of rows
    that are not AVAILABLE, so it is at most CONCURRENTMOLES; it never
    starts more than count controllers, and when its loop ends
    (molescompleted = count) every row is AVAILABLE again. *)
Theorem scheduler_never_oversubscribes
    (requested duration : Z) (s : scheduler) :
  scheduler_reaches (clamp_count requested) duration s ->
  1 <= clamp_count requested <= MAXPOPUPCOUNT /\
  0 <= molescompleted s <= molesstarted s /\
  molesstarted s <= clamp_count requested /\
  molesstarted s - molescompleted s = count_active (sch_table s) /\
  count_active (sch_table s) <= CONCURRENTMOLES /\
  length (sch_table s) = Z.to_nat CONCURRENTMOLES /\
  (molescompleted s = clamp_count requested ->
   Forall (fun r => Mole.molestatus r = AVAILABLE) (sch_table s)).
Proof.
  intros Hr.
  assert (Hc : 1 <= clamp_count requested <= MAXPOPUPCOUNT).
  { unfold clamp_count, MAXPOPUPCOUNT.
    destruct (Z.ltb_spec requested 1);
      [|destruct (Z.gtb_spec requested 100)]; simpl; lia. }
  destruct (scheduler_reaches_inv (clamp_count requested) duration s
              ltac:(lia) Hr)
    as (Hlen & Hcomp & Hact & Hle & Hidx).
  pose proof (count_active_bounds (sch_table s)) as Hb.
  rewrite Hlen in Hb. unfold CONCURRENTMOLES in *. simpl in Hb.
  repeat split; try assumption; try lia.
  intros Hend. apply count_active_zero. lia.
Qed.

Lemma scheduler_never_oversubscribes_witness :
  1 <= clamp_count 500 <= MAXPOPUPCOUNT /\
  0 <= 0 <= 1 /\
  1 <= clamp_count 500 /\
  1 - 0 =
    count_active
      [Mole.mk ASSIGNED AVAILABLE 71 72 73 0 1 6500 0 0 0 0 Anim.zero 0 0 0
               (mk_timespec 0 0); Mole.zero; Mole.zero] /\
  count_active
    [Mole.mk ASSIGNED AVAILABLE 71 72 73 0 1 6500 0 0 0 0 Anim.zero 0 0 0
             (mk_timespec 0 0); Mole.zero; Mole.zero] <= CONCURRENTMOLES /\
  length
    [Mole.mk ASSIGNED AVAILABLE 71 72 73 0 1 6500 0 0 0 0 Anim.zero 0 0 0
             (mk_timespec 0 0); Mole.zero; Mole.zero]
  = Z.to_nat CONCURRENTMOLES /\
  (0 = clamp_count 500 ->
   Forall (fun r => Mole.molestatus r = AVAILABLE)
     [Mole.mk ASSIGNED AVAILABLE 71 72 73 0 1 6500 0 0 0 0 Anim.zero 0 0 0
              (mk_timespec 0 0); Mole.zero; Mole.zero]).
Proof.
  apply (scheduler_never_oversubscribes 500 6500
           (mk_scheduler
              [Mole.mk ASSIGNED AVAILABLE 71 72 73 0 1 6500 0 0 0 0 Anim.zero
                       0 0 0 (mk_timespec 0 0); Mole.zero; Mole.zero]
              1 0 1)).
  apply (reach_turn (clamp_count 500) 6500 scheduler_init _
           (mk_timespec 50 0) 71 72 73).
  - apply reach_start.
  - vm_compute. reflexivity.
  - reflexivity.
Defined.




(** ** The display bridge *)

Example bridge_row_acknowledges_up :
  bridge_row (row_hiding 4) (Mole.set_molestatus UP (row_hiding 4))
             (Mole.set_molestatus UP (row_hiding 4)) score_init 99
  = Returned
      [W_animspec Anim.zero;
       W_animspec (Anim.mk ANIMPOPUP 4 9 3000 0 0 6 0 2);
       W_animcancelled 0; W_animthread 99; W_displayack].
Proof. reflexivity. Qed.

Lemma apply_writes_app (ws1 ws2 : list row_write) (p : MoleCommRecord) :
  apply_writes (ws1 ++ ws2) p = apply_writes ws2 (apply_writes ws1 p).
Proof. unfold apply_writes. apply fold_left_app. Qed.

Lemma launch_descriptor_fresh (pnew live : MoleCommRecord) (sc : ScoreState)
      (a : AnimationSpec) :
  launch_descriptor pnew live sc = Returned (Some a) ->
  Anim.synccount a = 0 /\ Anim.numholes a = MOLEHOLES /\
  Anim.hole a = Mole.hole pnew /\ Anim.mole a = Mole.mole pnew.
Proof.
  unfold launch_descriptor. intros H.
  destruct (Mole.molestatus pnew); try discriminate H.
  - inversion H; subst. repeat split.
  - inversion H; subst. repeat split.
  - destruct (_ && _); [|discriminate H].
    destruct (nth_error _ _); [|discriminate H].
    inversion H; subst. repeat split.
  - destruct (_ && _); [|discriminate H].
    destruct (nth_error _ _); [|discriminate H].
    inversion H; subst. repeat split.
  - destruct (MoleStatus_eqb (Mole.displayack live) UP).
    + inversion H; subst. repeat split.
    + destruct (MoleStatus_eqb (Mole.displayack live) HIDING);
        [|discriminate H].
      destruct (_ =? _); inversion H; subst; repeat split.
Qed.

Lemma Returned_inj {A : Type} (x y : A) : Returned x = Returned y -> x = y.
Proof. intros H. injection H as H. exact H. Qed.

(** What the bridge's writes leave in the row. *)
Lemma bridge_writes_result (pnew live : MoleCommRecord) (sc : ScoreState)
      (tid : Z) (ws : list row_write) (p : MoleCommRecord) :
  bridge_writes pnew live sc tid = Returned ws ->
  Mole.displayack (apply_writes ws p) = Mole.molestatus p /\
  Mole.molestatus (apply_writes ws p) = Mole.molestatus p /\
  (forall a, launch_descriptor pnew live sc = Returned (Some a) ->
             waits_for_ack (Mole.molestatus pnew) = true
             \/ Mole.molestatus pnew = SCARED ->
             Mole.animspec (apply_writes ws p) = a /\
             Mole.animcancelled (apply_writes ws p) = 0 /\
             Mole.animthread (apply_writes ws p) = tid).
Proof.
  unfold bridge_writes. intros H.
  destruct (Mole.molestatus pnew) eqn:Es;
    first
      [ (* no presentation for this status *)
        apply Returned_inj in H; subst ws;
        split; [reflexivity|]; split; [reflexivity|];
        intros a Ha _; unfold launch_descriptor in Ha; rewrite Es in Ha;
        discriminate Ha
      | (* a presentation may be launched *)
        destruct (launch_descriptor pnew live sc) as [[a0|]| | |] eqn:El;
        try discriminate H;
        cbn [bind] in H; apply Returned_inj in H; subst ws;
        (split; [reflexivity|]); (split; [reflexivity|]);
        intros a Ha _; apply Returned_inj in Ha;
        try discriminate Ha; apply Some_inj in Ha; subst a0;
        repeat split ].
Qed.

(** X14: the handshake completes.  When a controller writes a status
    that must be observed (HIDING, UP, WHACKED, EXPIRED, TERMINATING) and
    the bridge then handles that row, the controller's
    [set_mole_status] returns on that one wakeup with [displayack] equal
    to the new status; if the bridge launched a presentation, the row
    then carries its descriptor with no checkpoint passed yet, the
    cancel flag cleared and the id of the new animation thread -- for UP
    the pop-up descriptor, 6 checkpoints, lasting the row's up time. *)
Theorem handshake_completes
    (p pold : MoleCommRecord) (newstatus : MoleStatus) (sc : ScoreState)
    (tid : Z) (ws : list row_write) (env : list wakeup) :
  waits_for_ack newstatus = true ->
  graph_edge (Mole.molestatus p) newstatus ->
  Mole.displayack p <> newstatus ->
  bridge_row pold (Mole.set_molestatus newstatus p)
             (Mole.set_molestatus newstatus p) sc tid = Returned ws ->
  Mole.molestatus pold <> newstatus ->
  let q := apply_writes ws (Mole.set_molestatus newstatus p) in
  set_mole_status p newstatus (mk_wakeup ws 0 :: env) = Returned (q, env) /\
  Mole.displayack q = newstatus /\ Mole.molestatus q = newstatus /\
  (forall a,
      launch_descriptor (Mole.set_molestatus newstatus p)
                        (Mole.set_molestatus newstatus p) sc
      = Returned (Some a) ->
      Mole.animspec q = a /\ Anim.synccount a = 0 /\
      Mole.animcancelled q = 0 /\ Mole.animthread q = tid /\
      Anim.hole a = Mole.hole p /\
      (newstatus = UP ->
       Anim.animationtype a = ANIMPOPUP /\
       Anim.syncpoints a = Anim.syncpoints PopupAnim /\
       Anim.duration a = to_int (Mole.uptime p))).
Proof.
  intros Hw He Hd Hb Hold q.
  unfold bridge_row in Hb.
  change (Mole.molestatus (Mole.set_molestatus newstatus p))
    with newstatus in Hb.
  destruct (MoleStatus_eqb newstatus (Mole.molestatus pold)) eqn:E.
  { apply MoleStatus_eqb_eq in E. congruence. }
  destruct (bridge_writes_result _ _ _ _ _ (Mole.set_molestatus newstatus p)
              Hb) as (Hack & Hst & Hdesc).
  fold q in Hack, Hst, Hdesc.
  change (Mole.molestatus (Mole.set_molestatus newstatus p))
    with newstatus in *.
  assert (Hna : MoleStatus_eqb newstatus AVAILABLE = false)
    by (destruct newstatus; try reflexivity; discriminate Hw).
  split; [|split; [assumption|split; [assumption|]]].
  - unfold set_mole_status.
    apply assert_predecessor_graph in He. rewrite He, Hw, Hna.
    rewrite wait_displayack_unacked; [|simpl; congruence|reflexivity].
    cbn [wk_writes]. fold q. apply wait_displayack_acked. congruence.
  - intros a Ha.
    destruct (Hdesc a Ha (or_introl Hw)) as (H1 & H2 & H3).
    destruct (launch_descriptor_fresh _ _ _ _ Ha) as (Hs0 & _ & Hh & _).
    split; [exact H1|]. split; [exact Hs0|]. split; [exact H2|].
    split; [exact H3|]. split; [exact Hh|].
    intros Hup. rewrite Hup in Ha. unfold launch_descriptor in Ha.
    cbn [Mole.molestatus Mole.set_molestatus] in Ha.
    apply Returned_inj, Some_inj in Ha. rewrite <- Ha.
    repeat split.
Qed.

Lemma handshake_completes_witness :
  let q := apply_writes
             [W_animspec Anim.zero;
              W_animspec (Anim.mk ANIMPOPUP 4 9 3000 0 0 6 0 2);
              W_animcancelled 0; W_animthread 99; W_displayack]
             (Mole.set_molestatus UP (row_hiding 4)) in
  set_mole_status (row_hiding 4) UP
    (mk_wakeup
       [W_animspec Anim.zero;
        W_animspec (Anim.mk ANIMPOPUP 4 9 3000 0 0 6 0 2);
        W_animcancelled 0; W_animthread 99; W_displayack] 0 :: [])
  = Returned (q, []) /\
  Mole.displayack q = UP /\ Mole.molestatus q = UP.
Proof.
  pose proof (handshake_completes (row_hiding 4) (row_hiding 4) UP
                score_init 99
                [W_animspec Anim.zero;
                 W_animspec (Anim.mk ANIMPOPUP 4 9 3000 0 0 6 0 2);
                 W_animcancelled 0; W_animthread 99; W_displayack] [])
    as H.
  destruct H as (H1 & H2 & H3 & _).
  - reflexivity.
  - constructor.
  - discriminate.
  - reflexivity.
  - discriminate.
  - split; [exact H1 | split; [exact H2 | exact H3]].
Defined.

Example penalty_broadcast_example :
  penalty_broadcast 57 [row_up 0 0 2; row_hiding 4; Mole.zero]
  = ([Mole.set_keystruck 57
        (Mole.set_animspec
           (Anim.set_synccount 6 (Mole.animspec (row_up 0 0 2)))
           (Mole.set_animcancelled 1 (row_up 0 0 2)));
      Mole.set_keystruck 57
        (Mole.set_animspec
           (Anim.set_synccount 2 (Mole.animspec (row_hiding 4)))
           (Mole.set_animcancelled 1 (row_hiding 4)));
      Mole.set_keystruck 57 Mole.zero],
     [pthread_cancel 4; pthread_cancel 8;
      pthread_cond_signal 2; pthread_cond_signal 6; pthread_cond_signal 0]).
Proof. reflexivity. Qed.

Lemma cancel_active_idempotent (r : MoleCommRecord) :
  cancel_active (fst (cancel_active r)) = (fst (cancel_active r), []).
Proof.
  unfold cancel_active.
  destruct ((AnimationType_eqb (Anim.animationtype (Mole.animspec r))
                               ANIMHIDING
             || AnimationType_eqb (Anim.animationtype (Mole.animspec r))
                                  ANIMPOPUP)
            && (Anim.synccount (Mole.animspec r) >? 0)
            && (Anim.synccount (Mole.animspec r)
                <? Anim.syncpoints (Mole.animspec r))
            && (Mole.animcancelled r =? 0)) eqn:E; cbn [fst].
  - cbn [Mole.animcancelled Mole.set_animspec Mole.set_animcancelled].
    change (1 =? 0) with false. rewrite !andb_false_r. reflexivity.
  - rewrite E. reflexivity.
Qed.

Lemma cancel_active_keeps (r : MoleCommRecord) :
  Mole.molestatus (fst (cancel_active r)) = Mole.molestatus r /\
  Mole.displayack (fst (cancel_active r)) = Mole.displayack r /\
  Mole.hole (fst (cancel_active r)) = Mole.hole r /\
  Mole.mole (fst (cancel_active r)) = Mole.mole r /\
  Mole.keycond (fst (cancel_active r)) = Mole.keycond r /\
  Mole.scaredflag (fst (cancel_active r)) = Mole.scaredflag r.
Proof.
  unfold cancel_active. destruct (_ && _); repeat split.
Qed.

(** The test of the cancelling loop on a row, and what the loop does
    to the row either way. *)
Lemma cancel_active_cases (r : MoleCommRecord) :
  ((Anim.animationtype (Mole.animspec r) = ANIMHIDING \/
    Anim.animationtype (Mole.animspec r) = ANIMPOPUP) /\
   0 < Anim.synccount (Mole.animspec r)
     < Anim.syncpoints (Mole.animspec r) /\
   Mole.animcancelled r = 0) /\
  cancel_active r
  = (Mole.set_animspec
       (Anim.set_synccount (Anim.syncpoints (Mole.animspec r))
                           (Mole.animspec r))
       (Mole.set_animcancelled 1 r),
     [pthread_cancel (Mole.animthread r)])
  \/
  ~ ((Anim.animationtype (Mole.animspec r) = ANIMHIDING \/
      Anim.animationtype (Mole.animspec r) = ANIMPOPUP) /\
     0 < Anim.synccount (Mole.animspec r)
       < Anim.syncpoints (Mole.animspec r) /\
     Mole.animcancelled r = 0) /\
  cancel_active r = (r, []).
Proof.
  unfold cancel_active.
  destruct (Z.gtb_spec (Anim.synccount (Mole.animspec r)) 0) as [Hgt|Hgt];
    destruct (Z.ltb_spec (Anim.synccount (Mole.animspec r))
                         (Anim.syncpoints (Mole.animspec r))) as [Hlt|Hlt];
    destruct (Z.eqb_spec (Mole.animcancelled r) 0) as [Hc|Hc];
    destruct (Anim.animationtype (Mole.animspec r)) eqn:Ety;
    unfold AnimationType_eqb;
    cbn [AnimationType_value Z.eqb Pos.eqb orb andb];
    first [ left; split; [split; [tauto | split; [lia | exact Hc]]
                         | reflexivity]
          | right; split; [|reflexivity];
            intros ([Ht|Ht] & Hs & Hz);
            first [discriminate Ht | lia | contradiction] ].
Qed.

(** X15: after the bridge has seen a penalty record, every row holds
    the offending key in [keystruck] and has the status, hole and
    acknowledgment it had.  A row whose animation is a concealment or an
    exposure that has started (synccount above 0), is not ending
    (synccount below syncpoints) and is not cancelled gets synccount =
    syncpoints, so that it passes the controller's test for a finished
    animation, and is marked cancelled; nothing else in it changes.  A
    row of any other kind only gets the key.  Afterwards no row is left
    for the cancelling step to act on.  The calls made are one
    [pthread_cancel] for the animation thread of each row force-marked,
    then one [pthread_cond_signal] for the key condition of every row.  A
    record that is no penalty leaves the table alone. *)
Theorem penalty_broadcast_effect
    (tscore : ScoreSheetRecord) (tbl : list MoleCommRecord) :
  (is_penalty (Score.playresult tscore) = false ->
   bridge_new_score tscore tbl = (tbl, [])) /\
  (is_penalty (Score.playresult tscore) = true ->
   let tbl' := fst (bridge_new_score tscore tbl) in
   let running := fun r : MoleCommRecord =>
     (Anim.animationtype (Mole.animspec r) = ANIMHIDING \/
      Anim.animationtype (Mole.animspec r) = ANIMPOPUP) /\
     0 < Anim.synccount (Mole.animspec r)
       < Anim.syncpoints (Mole.animspec r) /\
     Mole.animcancelled r = 0 in
   length tbl' = length tbl /\
   Forall2
     (fun r r' =>
        Mole.keystruck r' = Score.selection tscore /\
        Mole.molestatus r' = Mole.molestatus r /\
        Mole.displayack r' = Mole.displayack r /\
        Mole.hole r' = Mole.hole r /\
        (running r ->
         r' = Mole.set_keystruck (Score.selection tscore)
                (Mole.set_animspec
                   (Anim.set_synccount (Anim.syncpoints (Mole.animspec r))
                                       (Mole.animspec r))
                   (Mole.set_animcancelled 1 r)) /\
         Anim.synccount (Mole.animspec r')
         = Anim.syncpoints (Mole.animspec r) /\
         animation_done r' = true /\ Mole.animcancelled r' = 1) /\
        (~ running r ->
         r' = Mole.set_keystruck (Score.selection tscore) r) /\
        ~ running r')
     tbl tbl' /\
   exists cancels,
     snd (bridge_new_score tscore tbl)
     = cancels ++ map (fun r => pthread_cond_signal (Mole.keycond r)) tbl /\
     forall c, In c cancels <->
               exists r, In r tbl /\ running r /\
                         c = pthread_cancel (Mole.animthread r)).
Proof.
  split.
  - intros H. unfold bridge_new_score.
    destruct (Score.playresult tscore); try discriminate H; reflexivity.
  - intros H tbl' running. unfold tbl', bridge_new_score. clear tbl'.
    replace (PlayResult_eqb (Score.playresult tscore) MISFIRE
             || PlayResult_eqb (Score.playresult tscore) TOOSOON)
      with true
      by (destruct (Score.playresult tscore); try discriminate H;
          reflexivity).
    unfold penalty_broadcast. cbn [fst snd]. rewrite !map_map.
    split; [apply length_map|]. split.
    + induction tbl as [|r rest IH]; cbn [map]; constructor; [|exact IH].
      destruct (cancel_active_keeps r) as (H1 & H2 & H3 & _).
      split; [reflexivity|].
      split; [exact H1|]. split; [exact H2|]. split; [exact H3|].
      fold (running r).
      destruct (cancel_active_cases r) as [[Hrun Hca]|[Hrun Hca]];
        fold (running r) in Hrun; rewrite Hca; cbn [fst].
      * assert (Hrun' := Hrun). destruct Hrun' as (_ & Hs & _).
        split; [|split].
        -- intros _. split; [reflexivity|]. split; [reflexivity|].
           split; [|reflexivity].
           unfold animation_done.
           cbn [Mole.animspec Mole.set_keystruck Mole.set_animspec
                Anim.syncpoints Anim.synccount Anim.set_synccount].
           rewrite Z.eqb_refl, andb_true_r. apply Z.gtb_lt. lia.
        -- intros Hn. contradiction.
        -- unfold running.
           cbn [Mole.animspec Mole.animcancelled Mole.set_keystruck
                Mole.set_animspec Mole.set_animcancelled
                Anim.syncpoints Anim.synccount Anim.set_synccount].
           intros (_ & _ & Hx). discriminate Hx.
      * split; [intros Hy; contradiction|]. split; [intros _; reflexivity|].
        exact Hrun.
    + exists (flat_map snd (map cancel_active tbl)). split.
      * f_equal. apply map_ext. intros r.
        destruct (cancel_active_keeps r) as (_ & _ & _ & _ & Hk & _).
        rewrite Hk. reflexivity.
      * intros c. rewrite in_flat_map. split.
        -- intros (x & Hx & Hc). apply in_map_iff in Hx.
           destruct Hx as (r & <- & Hr).
           destruct (cancel_active_cases r) as [[Hrun Hca]|[Hrun Hca]];
             rewrite Hca in Hc; cbn [snd In] in Hc; [|contradiction].
           destruct Hc as [<-|[]]. exists r.
           split; [exact Hr|]. split; [exact Hrun | reflexivity].
        -- intros (r & Hr & Hrun & ->).
           exists (cancel_active r). split; [apply in_map; exact Hr|].
           destruct (cancel_active_cases r) as [[_ Hca]|[Hn _]];
             [|contradiction].
           rewrite Hca. left. reflexivity.
Qed.

Lemma penalty_broadcast_effect_witness :
  let tscore := Score.mk None None (-1) 2 100 0 0 0 0 100 MISFIRE 57 in
  let tbl := [row_up 0 0 2; row_hiding 4; Mole.zero] in
  fst (bridge_new_score tscore tbl)
  = [Mole.set_keystruck 57
       (Mole.set_animspec
          (Anim.set_synccount 6 (Mole.animspec (row_up 0 0 2)))
          (Mole.set_animcancelled 1 (row_up 0 0 2)));
     Mole.set_keystruck 57
       (Mole.set_animspec
          (Anim.set_synccount 2 (Mole.animspec (row_hiding 4)))
          (Mole.set_animcancelled 1 (row_hiding 4)));
     Mole.set_keystruck 57 Mole.zero] /\
  length (fst (bridge_new_score tscore tbl)) = length tbl /\
  exists cancels,
    snd (bridge_new_score tscore tbl)
    = cancels ++ map (fun r => pthread_cond_signal (Mole.keycond r)) tbl.
Proof.
  intros tscore tbl.
  destruct (penalty_broadcast_effect tscore tbl) as [_ H].
  destruct (H eq_refl) as (Hlen & _ & cancels & Hcalls & _).
  split; [reflexivity|]. split; [exact Hlen|].
  exists cancels. exact Hcalls.
Defined.




(** ** The controller after its key wait *)

Lemma apply_write_keeps (w : row_write) (p : MoleCommRecord) :
  Mole.scoreidx (apply_write w p) = Mole.scoreidx p /\
  Mole.mole (apply_write w p) = Mole.mole p /\
  Mole.hole (apply_write w p) = Mole.hole p.
Proof. destruct w; repeat split. Qed.

Lemma apply_writes_keeps (ws : list row_write) :
  forall p,
    Mole.scoreidx (apply_writes ws p) = Mole.scoreidx p /\
    Mole.mole (apply_writes ws p) = Mole.mole p /\
    Mole.hole (apply_writes ws p) = Mole.hole p.
Proof.
  unfold apply_writes.
  induction ws as [|w ws IH]; intros p; simpl; [repeat split|].
  destruct (IH (apply_write w p)) as (H1 & H2 & H3).
  destruct (apply_write_keeps w p) as (K1 & K2 & K3).
  rewrite H1, H2, H3. repeat split; assumption.
Qed.

Lemma wait_displayack_keeps (env : list wakeup) :
  forall p q env',
    wait_displayack p env = Returned (q, env') ->
    Mole.scoreidx q = Mole.scoreidx p /\ Mole.mole q = Mole.mole p /\
    Mole.hole q = Mole.hole p.
Proof.
  induction env as [|w env IH]; intros p q env' H; simpl in H;
    destruct (MoleStatus_eqb (Mole.molestatus p) (Mole.displayack p));
    simpl in H; try discriminate H;
    try (inversion H; subst; repeat split; fail).
  destruct (wk_ret w =? 0); [|discriminate H].
  destruct (IH _ _ _ H) as (H1 & H2 & H3).
  destruct (apply_writes_keeps (wk_writes w) p) as (K1 & K2 & K3).
  rewrite H1, H2, H3. repeat split; assumption.
Qed.


Lemma set_mole_status_keeps (p q : MoleCommRecord) (s : MoleStatus)
      (env env' : list wakeup) :
  s <> AVAILABLE ->
  set_mole_status p s env = Returned (q, env') ->
  Mole.scoreidx q = Mole.scoreidx p /\ Mole.mole q = Mole.mole p /\
  Mole.hole q = Mole.hole p /\
  (waits_for_ack s = true -> Mole.displayack q = s).
Proof.
  intros Hs H.
  assert (Hna : MoleStatus_eqb s AVAILABLE = false).
  { destruct (MoleStatus_eqb s AVAILABLE) eqn:E; [|reflexivity].
    apply MoleStatus_eqb_eq in E. contradiction. }
  destruct (set_mole_status_returned _ _ _ _ _ H) as [_ Hq].
  unfold set_mole_status in H.
  destruct (assert_predecessor _ _); [|discriminate H].
  rewrite Hna in H. destruct (waits_for_ack s).
  - destruct (wait_displayack_keeps _ _ _ _ H) as (H1 & H2 & H3).
    destruct (wait_displayack_returned _ _ _ _ H) as [Hd _].
    repeat split; try assumption. intros _. congruence.
  - inversion H; subst. repeat split. intros Hc. discriminate Hc.
Qed.

(** X17: every way out of the controller's [switch] that returns has
    appended exactly one record for the row's mole and hole, stored its
    index in the row and set the matching status: WHACK with WHACKED
    (acknowledged) when woken with the key of its hole, SCAREDOFF with
    SCARED when woken with another key, ESCAPE with EXPIRED
    (acknowledged) when the wait timed out.  Any other return value of
    the wait ends the process. *)
Theorem mole_outcome_table
    (p q : MoleCommRecord) (condretval : Z) (sc sc1 : ScoreState)
    (relock : list row_write) (env env1 : list wakeup) :
  (condretval <> 0 -> condretval <> ETIMEDOUT ->
   mole_outcome p condretval sc relock env = Aborted) /\
  (mole_outcome p condretval sc relock env = Returned (q, sc1, env1) ->
   exists rec,
     scores sc1 = scores sc ++ [rec] /\
     Score.mole rec = Mole.mole p /\ Score.hole rec = Mole.hole p /\
     Mole.scoreidx q = numscores sc /\
     nth_error (scores sc1) (Z.to_nat (Mole.scoreidx q)) = Some rec /\
     (condretval = 0 /\ Mole.keystruck p = holekeys_at (Mole.hole p) /\
      Score.playresult rec = WHACK /\ Mole.molestatus q = WHACKED /\
      Mole.displayack q = WHACKED
      \/
      condretval = 0 /\ Mole.keystruck p <> holekeys_at (Mole.hole p) /\
      Score.playresult rec = SCAREDOFF /\ Mole.molestatus q = SCARED
      \/
      condretval = ETIMEDOUT /\
      Score.playresult rec = ESCAPE /\ Mole.molestatus q = EXPIRED /\
      Mole.displayack q = EXPIRED)).
Proof.
  split.
  - intros H0 Ht. unfold mole_outcome.
    destruct (Z.eqb_spec condretval 0); [contradiction|].
    destruct (Z.eqb_spec condretval ETIMEDOUT); [contradiction|].
    reflexivity.
  - unfold mole_outcome. intros H.
    assert (Hlook : forall rec, scores sc1 = scores sc ++ [rec] ->
                     nth_error (scores sc1) (Z.to_nat (numscores sc))
                     = Some rec).
    { intros rec Hsc. rewrite Hsc. unfold numscores.
      rewrite Nat2Z.id, nth_error_app2 by lia.
      rewrite Nat.sub_diag. reflexivity. }
    destruct (Z.eqb_spec condretval 0) as [Hc|Hc].
    + destruct (Z.eqb_spec (Mole.keystruck p) (holekeys_at (Mole.hole p)))
        as [Hk|Hk].
      * destruct (compute_score _ _ _ _ _ WHACK) as [[s idx]|] eqn:Hcs;
          [|discriminate H].
        cbn [defined bind fst snd] in H.
        destruct (set_mole_status _ WHACKED env) as [[q' env']| | |] eqn:Hs;
          try discriminate H.
        cbn [bind fst snd] in H. inversion H; subst q' s env'; clear H.
        destruct (compute_score_appends _ _ _ _ _ _ _ _ Hcs)
          as (rec & Hsc & Hidx & Hm & Hh & _ & Hp & _).
        destruct (set_mole_status_returned _ _ _ _ _ Hs) as [_ Hq].
        destruct (set_mole_status_keeps _ _ WHACKED _ _ ltac:(discriminate) Hs)
          as (K1 & K2 & K3 & K4).
        cbn [Mole.set_scoreidx Mole.scoreidx] in K1.
        exists rec. rewrite K1, Hidx.
        repeat split; try assumption; auto.
        left. repeat split; auto.
      * destruct (compute_score _ _ _ _ _ SCAREDOFF) as [[s idx]|] eqn:Hcs;
          [|discriminate H].
        cbn [defined bind fst snd] in H.
        destruct (set_mole_status _ SCARED env) as [[q' env']| | |] eqn:Hs;
          try discriminate H.
        cbn [bind fst snd] in H. inversion H; subst q' s env'; clear H.
        destruct (compute_score_appends _ _ _ _ _ _ _ _ Hcs)
          as (rec & Hsc & Hidx & Hm & Hh & _ & Hp & _).
        destruct (set_mole_status_returned _ _ _ _ _ Hs) as [_ Hq].
        destruct (set_mole_status_keeps _ _ SCARED _ _ ltac:(discriminate) Hs)
          as (K1 & K2 & K3 & K4).
        cbn [Mole.set_scoreidx Mole.scoreidx] in K1.
        exists rec. rewrite K1, Hidx.
        repeat split; try assumption; auto.
        right. left. repeat split; auto.
    + destruct (Z.eqb_spec condretval ETIMEDOUT) as [Ht|Ht];
        [|discriminate H].
      destruct (compute_score _ _ _ _ _ ESCAPE) as [[s idx]|] eqn:Hcs;
        [|discriminate H].
      cbn [defined bind fst snd] in H.
      destruct (set_mole_status _ EXPIRED env) as [[q' env']| | |] eqn:Hs;
        try discriminate H.
      cbn [bind fst snd] in H. inversion H; subst q' s env'; clear H.
      destruct (compute_score_appends _ _ _ _ _ _ _ _ Hcs)
        as (rec & Hsc & Hidx & Hm & Hh & _ & Hp & _).
      destruct (set_mole_status_returned _ _ _ _ _ Hs) as [_ Hq].
      destruct (set_mole_status_keeps _ _ EXPIRED _ _ ltac:(discriminate) Hs)
        as (K1 & K2 & K3 & K4).
      cbn [Mole.set_scoreidx Mole.scoreidx] in K1.
      exists rec. rewrite K1, Hidx.
      repeat split; try assumption; auto.
      right. right. repeat split; auto.
Qed.

Lemma mole_outcome_table_witness :
  let p := Mole.set_keystruck 55 (Mole.set_animcancelled 1 (row_up 0 0 2)) in
  let q := Mole.set_displayack WHACKED
             (Mole.set_molestatus WHACKED (Mole.set_scoreidx 0 p)) in
  let sc1 := mk_ScoreState
               [Score.mk None None 1 0 0 0 20 0 0 20 WHACK 48] 0 in
  mole_outcome p 5 score_init [] [mk_wakeup [W_displayack] 0] = Aborted /\
  exists rec,
    scores sc1 = scores score_init ++ [rec] /\
    Score.mole rec = Mole.mole p /\ Score.hole rec = Mole.hole p /\
    Mole.scoreidx q = numscores score_init /\
    nth_error (scores sc1) (Z.to_nat (Mole.scoreidx q)) = Some rec /\
    (0 = 0 /\ Mole.keystruck p = holekeys_at (Mole.hole p) /\
     Score.playresult rec = WHACK /\ Mole.molestatus q = WHACKED /\
     Mole.displayack q = WHACKED
     \/
     0 = 0 /\ Mole.keystruck p <> holekeys_at (Mole.hole p) /\
     Score.playresult rec = SCAREDOFF /\ Mole.molestatus q = SCARED
     \/
     0 = ETIMEDOUT /\
     Score.playresult rec = ESCAPE /\ Mole.molestatus q = EXPIRED /\
     Mole.displayack q = EXPIRED).
Proof.
  intros p q sc1. split.
  - destruct (mole_outcome_table p q 5 score_init sc1 []
                [mk_wakeup [W_displayack] 0] []) as [H _].
    apply H; unfold ETIMEDOUT; lia.
  - destruct (mole_outcome_table p q 0 score_init sc1 []
                [mk_wakeup [W_displayack] 0] []) as [_ H].
    apply H. reflexivity.
Defined.



(** ** The misfire panel of the bridge *)

Lemma pthread_mutex_lock_spec (h : Z) (others : lock_moves) :
  forall locks locks' rest,
    pthread_mutex_lock locks h others = Returned (locks', rest) ->
    exists slept,
      others = slept ++ rest /\
      hole_locked (after_moves slept locks) h = Some false /\
      locks' = set_lock (after_moves slept locks) (Z.to_nat h) true.
Proof.
  induction others as [|f others IH]; intros locks locks' rest H;
    cbn [pthread_mutex_lock] in H; unfold pthread_mutex_trylock in H;
    destruct (hole_locked locks h) as [[|]|] eqn:E; try discriminate H.
  - apply Returned_inj in H. injection H as H1 H2. subst.
    exists []. repeat split; assumption.
  - change (EBUSY =? 0) with false in H. cbv iota in H.
    destruct (IH _ _ _ H) as (slept & Ho & Hfree & Hl).
    exists (f :: slept). cbn [app after_moves fold_left].
    rewrite Ho. repeat split; assumption.
  - apply Returned_inj in H. injection H as H1 H2. subst.
    exists []. repeat split; assumption.
Qed.

Lemma check_mole_hole_returned (molehole r : Z) (locks locks' : list bool) :
  check_mole_hole molehole locks = Returned (r, locks') ->
  locks' = locks /\
  exists b, hole_locked locks molehole = Some b /\
            r = (if b then 1 else 0).
Proof.
  intros H. destruct (hole_locked locks molehole) as [b|] eqn:E.
  - rewrite (check_mole_hole_known molehole locks b E) in H.
    apply Returned_inj in H. injection H as H1 H2. subst.
    split; [reflexivity|]. exists b. split; reflexivity.
  - unfold check_mole_hole, pthread_mutex_trylock in H. rewrite E in H.
    destruct (_ || _); discriminate H.
Qed.

(** X19: the misfire panel and the lock of its hole go together.  If
    the flag of a hole is 0 or 1, and 1 only while the bridge holds the
    lock of the hole, one pass of the bridge over the hole keeps this
    so; the flag is 1 afterwards only while the timer is pending; once
    the timer has run out a shown panel is blanked and the lock given
    back; and a hole whose lock somebody else holds is left alone: no
    panel, no lock taken, nothing drawn. *)
Theorem misfire_panel_holds_lock
    (now : timespec) (i : Z) (m m' : misfire_slot)
    (locks locks' : list bool) (between : list bool -> list bool)
    (others : lock_moves) (shown : list anim_event) :
  misfire_turn now i m locks between others = Returned (m', locks', shown) ->
  mf_status m = 0 \/ mf_status m = 1 ->
  (mf_status m = 1 -> hole_locked locks i = Some true) ->
  (mf_status m' = 0 \/ mf_status m' = 1) /\
  (mf_status m' = 1 -> hole_locked locks' i = Some true) /\
  mf_timer m' = mf_timer m /\
  (mf_status m' = 1 -> timespec_after (mf_timer m) now = true) /\
  (timespec_after (mf_timer m) now = false -> mf_status m = 1 ->
   mf_status m' = 0 /\ hole_locked locks' i = Some false /\
   shown = [ShowResult i MOLEHOLES None 0 0 (Some EmptyString)]) /\
  (mf_status m = 0 -> hole_locked locks i = Some true ->
   m' = m /\ locks' = locks /\ shown = []) /\
  (mf_status m = 0 -> mf_status m' = 1 ->
   shown = [ShowResult i MOLEHOLES (Some MISFIRE) 0 0 None]).
Proof.
  unfold misfire_turn. intros H Hst Hlock.
  destruct (timespec_after (mf_timer m) now) eqn:Et.
  - destruct (Z.eqb_spec (mf_status m) 0) as [E0|E0].
    + destruct (check_mole_hole i locks) as [[r l]| | |] eqn:Ec;
        cbn [bind] in H; try discriminate H.
      destruct (check_mole_hole_returned _ _ _ _ Ec) as (-> & b & Hb & ->).
      cbn [fst snd] in H. destruct b.
      * change (1 =? 0) with false in H. cbv iota in H.
        apply Returned_inj in H. injection H as H1 H2 H3. subst m' locks' shown.
        split; [left; exact E0|]. split; [intros E1; lia|].
        split; [reflexivity|]. split; [reflexivity|].
        split; [intros Hx; discriminate Hx|].
        split; [intros _ _; repeat split|]. intros _ E1. lia.
      * change (0 =? 0) with true in H. cbv iota in H.
        destruct (hole_locked_range _ _ _ Hb) as [Hr _].
        unfold claim_mole_hole in H.
        rewrite (range_test_false (-1) i) in H by lia.
        replace (i =? -1) with false in H
          by (symmetry; apply Z.eqb_neq; lia).
        destruct (pthread_mutex_lock (between locks) i others)
          as [[l2 rest]| | |] eqn:El; cbn [bind] in H; try discriminate H.
        cbn [fst snd] in H.
        apply Returned_inj in H. injection H as H1 H2 H3. subst m' locks' shown.
        destruct (pthread_mutex_lock_spec _ _ _ _ _ El)
          as (slept & _ & Hfree & ->).
        cbn [mf_status mf_timer].
        split; [right; reflexivity|].
        split; [intros _; exact (hole_locked_set_eq _ _ _ true Hfree)|].
        split; [reflexivity|]. split; [reflexivity|].
        split; [intros Hx; discriminate Hx|].
        split; [intros _ Hx; rewrite Hb in Hx; discriminate Hx|].
        intros _ _. reflexivity.
    + apply Returned_inj in H. injection H as H1 H2 H3. subst m' locks' shown.
      assert (E1 : mf_status m = 1) by (destruct Hst; [contradiction|assumption]).
      split; [right; exact E1|]. split; [exact Hlock|].
      split; [reflexivity|]. split; [reflexivity|].
      split; [intros Hx; discriminate Hx|].
      split; [intros Hx; contradiction|]. intros Hx; contradiction.
  - destruct (Z.eqb_spec (mf_status m) 1) as [E1|E1].
    + unfold release_mole_hole, pthread_mutex_unlock in H.
      rewrite (Hlock E1) in H. cbn [defined bind] in H.
      apply Returned_inj in H. injection H as H1 H2 H3. subst m' locks' shown.
      cbn [mf_status mf_timer].
      split; [left; reflexivity|]. split; [intros Hx; discriminate Hx|].
      split; [reflexivity|]. split; [intros Hx; discriminate Hx|].
      split.
      { intros _ _. split; [reflexivity|].
        split; [exact (hole_locked_set_eq _ _ _ false (Hlock E1))|].
        reflexivity. }
      split; [intros Hx; lia|]. intros Hx; lia.
    + apply Returned_inj in H. injection H as H1 H2 H3. subst m' locks' shown.
      assert (E0 : mf_status m = 0) by (destruct Hst; [assumption|contradiction]).
      split; [left; exact E0|]. split; [intros Hx; contradiction|].
      split; [reflexivity|]. split; [intros Hx; contradiction|].
      split; [intros _ Hx; contradiction|].
      split; [intros _ _; repeat split|]. intros _ Hx; contradiction.
Qed.

Lemma misfire_panel_holds_lock_witness :
  hole_locked (set_lock hole_mtx_init 4 true) 4 = Some true /\
  mf_status (mk_misfire_slot 1 (mk_timespec 10 500000000)) = 1.
Proof.
  destruct (misfire_panel_holds_lock (mk_timespec 9 0) 4
              (mk_misfire_slot 0 (mk_timespec 10 500000000))
              (mk_misfire_slot 1 (mk_timespec 10 500000000))
              hole_mtx_init (set_lock hole_mtx_init 4 true)
              (fun l => l) []
              [ShowResult 4 MOLEHOLES (Some MISFIRE) 0 0 None])
    as (_ & H & _).
  - reflexivity.
  - left; reflexivity.
  - intros Hx; discriminate Hx.
  - split; [apply H|]; reflexivity.
Defined.

(** ** The controller's key wait *)

(** X20: the key wait returns only with a key in the row or with a
    non-zero return value of the timed wait; it has used up a prefix of
    the wakeups, of which only the last can have returned non-zero (a
    wakeup that returns 0 and leaves [keystruck] at 0 is spurious and
    the wait goes on); no wakeup changes the status, the hole or the
    mole number of the row. *)
Theorem key_wait_returns_on_key_or_error (env : list wakeup) :
  forall (p q : MoleCommRecord) (condretval c' : Z) (env' : list wakeup),
    key_wait p condretval env = Returned (q, c', env') ->
    (Mole.keystruck q <> 0 \/ c' <> 0) /\
    (exists used,
        env = used ++ env' /\
        Forall (fun w => wk_ret w = 0) (removelast used) /\
        (used = [] -> q = p /\ c' = condretval) /\
        (used <> [] ->
         Mole.keystruck p = 0 /\ condretval = 0 /\
         c' = wk_ret (last used (mk_wakeup [] 0)))) /\
    Mole.molestatus q = Mole.molestatus p /\
    Mole.hole q = Mole.hole p /\ Mole.mole q = Mole.mole p.
Proof.
  induction env as [|w env IH]; intros p q condretval c' env' H;
    cbn [key_wait] in H;
    destruct (Z.eqb_spec (Mole.keystruck p) 0) as [Ek|Ek];
    destruct (Z.eqb_spec condretval 0) as [Ec|Ec];
    cbn [andb] in H; try discriminate H;
    try (apply Returned_inj in H; injection H as H1 H2 H3; subst q c' env';
         split; [tauto|]; split; [|repeat split];
         exists []; split; [reflexivity|]; split; [constructor|];
         split; [intros _; split; reflexivity | intros Hx; contradiction]).
  destruct (IH _ _ _ _ _ H) as (Hwake & (used & Henv & Hall & Hnil & Hcons)
                                 & Hst & Hh & Hm).
  destruct (apply_writes_keeps (wk_writes w) p) as (_ & Km & Kh).
  split; [exact Hwake|]. split.
  - exists (w :: used). split; [rewrite Henv; reflexivity|].
    split.
    + destruct used as [|u used']; [constructor|].
      change (removelast (w :: u :: used'))
        with (w :: removelast (u :: used')).
      constructor; [|exact Hall].
      destruct (Hcons ltac:(discriminate)) as (_ & Hr & _). exact Hr.
    + split; [intros Hx; discriminate Hx|]. intros _.
      split; [exact Ek|]. split; [exact Ec|].
      destruct used as [|u used'].
      * destruct (Hnil eq_refl) as [_ ->]. reflexivity.
      * destruct (Hcons ltac:(discriminate)) as (_ & _ & ->). reflexivity.
  - rewrite Hst, Hh, Hm, Km, Kh.
    rewrite (apply_writes_molestatus (wk_writes w) p). repeat split.
Qed.

Lemma key_wait_returns_on_key_or_error_witness :
  Mole.keystruck (Mole.set_keystruck 55 (row_up 0 0 2)) <> 0 \/ 0 <> 0.
Proof.
  destruct (key_wait_returns_on_key_or_error
              [mk_wakeup [] 0; mk_wakeup [W_keystruck 55] 0; mk_wakeup [] 0]
              (row_up 0 0 2) (Mole.set_keystruck 55 (row_up 0 0 2)) 0 0
              [mk_wakeup [] 0]) as [H _].
  - reflexivity.
  - exact H.
Defined.

(** X21: a mole frightened while it was hiding is never exposed, and
    the controller mishandles the table lock on that path.  With
    [scaredflag] set on a HIDING row the step takes no lock.  Entered
    with the lock free, as [mole_thread] enters it, it ends by unlocking
    a mutex the thread does not hold, which has no defined result.
    Entered with the lock held it would log SCAREDOFF for its mole and
    hole (with no key), go from HIDING straight to SCARED without
    waiting for any acknowledgment, count the mole as done, set no
    deadline and, unlike the other outcomes, leave the record index of
    the row as it was. *)
Theorem scared_while_hiding_skips_exposure
    (p : MoleCommRecord) (sc : ScoreState) (molesremaining : Z)
    (starttime : timespec) (uptime : Z) (relock : list row_write)
    (env : list wakeup) :
  Mole.scaredflag p <> 0 -> Mole.molestatus p = HIDING ->
  mole_thread_exposed false p sc molesremaining starttime uptime relock env
  = Undefined /\
  exists sc1 rec,
    mole_thread_exposed true p sc molesremaining starttime uptime relock env
    = Returned (mk_exposed (Mole.set_molestatus SCARED p) sc1
                           (int_sub molesremaining 1) None env) /\
    scores sc1 = scores sc ++ [rec] /\
    Score.playresult rec = SCAREDOFF /\
    Score.mole rec = Mole.mole p /\ Score.hole rec = Mole.hole p /\
    Score.selection rec = 0 /\
    Mole.scoreidx (Mole.set_molestatus SCARED p) = Mole.scoreidx p.
Proof.
  intros Hflag Hst. unfold mole_thread_exposed.
  replace (Mole.scaredflag p =? 0) with false
    by (symmetry; apply Z.eqb_neq; exact Hflag).
  cbn [negb].
  destruct (compute_score sc (Mole.mole p) (Mole.hole p) 0 0 SCAREDOFF)
    as [[sc1 idx]|] eqn:Hcs.
  2: { exfalso.
       assert (Hn : compute_score sc (Mole.mole p) (Mole.hole p) 0 0 SCAREDOFF
                    <> None) by (unfold compute_score; discriminate).
       contradiction. }
  destruct (compute_score_appends _ _ _ _ _ _ _ _ Hcs)
    as (rec & Hsc & _ & Hm & Hh & Hk & Hp & _).
  cbn [defined bind fst snd].
  assert (Hs : set_mole_status p SCARED env
               = Returned (Mole.set_molestatus SCARED p, env)).
  { unfold set_mole_status. cbn [assert_predecessor]. rewrite Hst.
    reflexivity. }
  rewrite Hs. cbn [bind fst snd unlock_molecomm].
  split; [reflexivity|].
  exists sc1, rec. repeat split; assumption.
Qed.

Lemma scared_while_hiding_skips_exposure_witness :
  let p := apply_writes [W_scared (mk_timespec 9 0)] (row_hiding 4) in
  mole_thread_exposed false p score_init 20 (mk_timespec 0 0) 2001 [] []
  = Undefined /\
  exists sc1 rec,
    mole_thread_exposed true p score_init 20 (mk_timespec 0 0) 2001 [] []
    = Returned
        (mk_exposed (Mole.set_molestatus SCARED p) sc1 (int_sub 20 1)
                    None []) /\
    scores sc1 = scores score_init ++ [rec] /\
    Score.playresult rec = SCAREDOFF.
Proof.
  intros p.
  destruct (scared_while_hiding_skips_exposure
              p score_init 20 (mk_timespec 0 0) 2001 [] [])
    as (Hu & sc1 & rec & H1 & H2 & H3 & _).
  - discriminate.
  - reflexivity.
  - split; [exact Hu|].
    exists sc1, rec. split; [exact H1|]. split; [exact H2 | exact H3].
Defined.

(** The staggered start.  The first mole waits MOLESTARTDELAYMIN
    (250 ms); every later one waits between 250 ms and 3 s, one
    millisecond short. *)
Theorem molestartdelay_range (mole r : Z) :
  0 <= r <= LONG_MAX ->
  MOLESTARTDELAYMIN <= molestartdelay mole r < MOLESTARTDELAYMAX /\
  (mole = 1 -> molestartdelay mole r = MOLESTARTDELAYMIN) /\
  (mole <> 1 ->
   molestartdelay mole r =
   r mod (MOLESTARTDELAYMAX - MOLESTARTDELAYMIN) + MOLESTARTDELAYMIN).
Proof.
  unfold LONG_MAX, molestartdelay, MOLESTARTDELAYMIN, MOLESTARTDELAYMAX.
  intros Hr. change (3000 - 250) with 2750.
  pose proof (Z.mod_pos_bound r 2750 ltac:(lia)) as Hm.
  assert (Hd : long_add (long_rem r 2750) 250 = r mod 2750 + 250).
  { unfold long_add, long_rem. rewrite Z.rem_mod_nonneg by lia.
    rewrite (to_long_id (r mod 2750))
      by (unfold in_long, LONG_MIN, LONG_MAX; lia).
    rewrite (to_long_id (r mod 2750 + 250))
      by (unfold in_long, LONG_MIN, LONG_MAX; lia).
    reflexivity. }
  rewrite Hd.
  destruct (Z.eqb_spec mole 1) as [E|E].
  - split; [lia|]. split; [reflexivity|]. intros Hx; contradiction.
  - split; [lia|]. split; [intros Hx; contradiction|]. reflexivity.
Qed.

Lemma molestartdelay_range_witness :
  MOLESTARTDELAYMIN <= molestartdelay 2 123456 < MOLESTARTDELAYMAX.
Proof.
  destruct (molestartdelay_range 2 123456) as [H _].
  - unfold LONG_MAX; lia.
  - exact H.
Defined.

(** ** The input dispatcher *)

Lemma scan_row_keeps (inputkey : Z) (r : MoleCommRecord) :
  Mole.molestatus (fst (fst (scan_row inputkey r))) = Mole.molestatus r /\
  Mole.hole (fst (fst (scan_row inputkey r))) = Mole.hole r /\
  Mole.mole (fst (fst (scan_row inputkey r))) = Mole.mole r /\
  Mole.scoreidx (fst (fst (scan_row inputkey r))) = Mole.scoreidx r.
Proof.
  unfold scan_row.
  destruct (eligible inputkey r); [repeat split|].
  destruct (near_miss inputkey r); repeat split.
Qed.

Lemma input_scan_keeps (inputkey : Z) (tbl : list MoleCommRecord) :
  forall whackflag,
    map row_identity (fst (fst (input_scan inputkey tbl whackflag)))
    = map row_identity tbl.
Proof.
  induction tbl as [|r rest IH]; intros whackflag; [reflexivity|].
  cbn [input_scan].
  destruct (scan_row_keeps inputkey r) as (H1 & H2 & H3 & H4).
  destruct (scan_row inputkey r) as [[r' calls] hit].
  specialize (IH (whackflag || hit)).
  destruct (input_scan inputkey rest (whackflag || hit))
    as [[rest' calls'] flag].
  cbn [fst snd map] in *. rewrite IH. f_equal.
  unfold row_identity. rewrite H1, H2, H3, H4. reflexivity.
Qed.

Lemma input_scan_quiet (inputkey : Z) (tbl : list MoleCommRecord) :
  forall whackflag tbl1 calls,
    input_scan inputkey tbl whackflag = (tbl1, calls, false) ->
    tbl1 = tbl /\ calls = [] /\ whackflag = false.
Proof.
  induction tbl as [|r rest IH]; intros whackflag tbl1 calls H.
  - cbn [input_scan] in H. injection H as H1 H2 H3. subst.
    repeat split.
  - cbn [input_scan] in H. unfold scan_row in H.
    destruct (eligible inputkey r).
    + destruct (input_scan inputkey rest (whackflag || true))
        as [[rest' calls'] flag] eqn:E.
      injection H as H1 H2 H3. subst flag.
      destruct (IH _ _ _ E) as (_ & _ & Hw).
      rewrite orb_true_r in Hw. discriminate Hw.
    + destruct (near_miss inputkey r).
      * destruct (input_scan inputkey rest (whackflag || true))
          as [[rest' calls'] flag] eqn:E.
        injection H as H1 H2 H3. subst flag.
        destruct (IH _ _ _ E) as (_ & _ & Hw).
        rewrite orb_true_r in Hw. discriminate Hw.
      * destruct (input_scan inputkey rest (whackflag || false))
          as [[rest' calls'] flag] eqn:E.
        injection H as H1 H2 H3. subst flag.
        destruct (IH _ _ _ E) as (-> & -> & Hw).
        rewrite orb_false_r in Hw. subst. repeat split.
Qed.

Lemma input_scare_keeps (inputkey : Z) (clock : nat -> timespec)
      (tbl : list MoleCommRecord) :
  forall n misfiretype,
    map row_identity (fst (input_scare inputkey clock n tbl misfiretype))
    = map row_identity tbl /\
    (misfiretype = MISFIRE \/ misfiretype = TOOSOON ->
     snd (input_scare inputkey clock n tbl misfiretype) = MISFIRE \/
     snd (input_scare inputkey clock n tbl misfiretype) = TOOSOON).
Proof.
  induction tbl as [|r rest IH]; intros n misfiretype.
  - split; [reflexivity|]. intros H; exact H.
  - cbn [input_scare].
    destruct (IH (if hiding_or_up r then S n else n)
                 (if hiding_at_key inputkey r then TOOSOON else misfiretype))
      as [IH1 IH2].
    destruct (input_scare inputkey clock
                (if hiding_or_up r then S n else n) rest
                (if hiding_at_key inputkey r then TOOSOON else misfiretype))
      as [rest' result].
    cbn [fst snd map] in *. split.
    + rewrite IH1. f_equal. destruct (hiding_or_up r); reflexivity.
    + intros H. apply IH2.
      destruct (hiding_at_key inputkey r); [right; reflexivity | exact H].
Qed.

(** The keys of the holes are nine different characters. *)
Lemma holekeys_cases (k : Z) :
  In k holekeys ->
  k = 55 \/ k = 56 \/ k = 57 \/ k = 52 \/ k = 53 \/ k = 54 \/ k = 49 \/
  k = 50 \/ k = 51.
Proof.
  intros H. vm_compute in H.
  repeat (destruct H as [H|H]; [subst k; tauto|]). contradiction.
Qed.

Lemma misfirehole_recognized (k : Z) :
  recognized k = true ->
  0 <= misfirehole k < MOLEHOLES /\ holekeys_at (misfirehole k) = k.
Proof.
  intros H. apply recognized_In, holekeys_cases in H.
  unfold MOLEHOLES.
  repeat (destruct H as [H|H]; [subst k; vm_compute; repeat split;
                                intros Hx; discriminate Hx|]).
  subst k; vm_compute; repeat split; intros Hx; discriminate Hx.
Qed.

(** X22: keys the dispatcher swallows.  A NUL, a key that is no hole
    key, and a near miss (no mole can be whacked with the key, but it is
    the key of a mole that was just whacked, has just expired, or is up
    with its pop-up at its last checkpoint) leave the table and the log
    exactly as they were: no score, no penalty, nobody frightened, no
    thread cancelled or signalled. *)
Theorem dispatcher_swallows_key
    (inputkey : Z) (tbl : list MoleCommRecord) (sc : ScoreState)
    (relock : list MoleCommRecord -> list MoleCommRecord)
    (clock : nat -> timespec) :
  inputkey = 0 \/ recognized inputkey = false \/
  (Forall (fun r => eligible inputkey r = false) tbl /\
   existsb (near_miss inputkey) tbl = true) ->
  input_thread_key inputkey tbl sc relock clock = Returned (tbl, sc, []).
Proof.
  intros H. unfold input_thread_key.
  destruct (Z.eqb_spec inputkey 0) as [E0|E0]; [reflexivity|].
  destruct (recognized inputkey) eqn:Er; cbn [negb]; [|reflexivity].
  destruct H as [H|[H|[Hel Hnm]]]; [contradiction | discriminate H |].
  rewrite (input_scan_ineligible inputkey tbl false Hel).
  rewrite Hnm. reflexivity.
Qed.

Lemma dispatcher_swallows_key_witness :
  input_thread_key 55 [row_up 0 0 6; row_hiding 4; Mole.zero] score_init
                   (fun t => t) (fun n => mk_timespec (Z.of_nat n) 0)
  = Returned ([row_up 0 0 6; row_hiding 4; Mole.zero], score_init, []).
Proof.
  apply dispatcher_swallows_key. right. right. split.
  - repeat constructor.
  - reflexivity.
Defined.

(** X23: whatever the key, the dispatcher itself never changes the
    status, the hole, the mole number or the record index of a row (the
    rows it hands back have those of the rows it found, or of the rows
    found when the lock was taken again), and it never logs a score: the
    log is untouched or gets one record, which is a penalty (MISFIRE or
    TOOSOON) with mole number -1, the key struck, and the hole that key
    belongs to; in that case it has cancelled and signalled nothing, and
    the count of misses is as it was. *)
Theorem dispatcher_only_logs_penalties
    (inputkey : Z) (tbl tbl' : list MoleCommRecord) (sc sc' : ScoreState)
    (relock : list MoleCommRecord -> list MoleCommRecord)
    (clock : nat -> timespec) (calls : list sys_call) :
  input_thread_key inputkey tbl sc relock clock
  = Returned (tbl', sc', calls) ->
  (map row_identity tbl' = map row_identity tbl /\ sc' = sc
   \/
   map row_identity tbl' = map row_identity (relock tbl) /\
   calls = [] /\
   exists rec,
     scores sc' = scores sc ++ [rec] /\
     missedcount sc' = missedcount sc /\
     is_penalty (Score.playresult rec) = true /\
     Score.mole rec = -1 /\ Score.selection rec = inputkey /\
     Score.hole rec = misfirehole inputkey /\
     0 <= Score.hole rec < MOLEHOLES /\
     holekeys_at (Score.hole rec) = inputkey).
Proof.
  unfold input_thread_key. intros H.
  destruct (Z.eqb_spec inputkey 0) as [E0|E0].
  { apply Returned_inj in H. injection H as H1 H2 H3. subst.
    left. split; reflexivity. }
  destruct (recognized inputkey) eqn:Er; cbn [negb] in H.
  2: { apply Returned_inj in H. injection H as H1 H2 H3. subst.
       left. split; reflexivity. }
  pose proof (input_scan_keeps inputkey tbl false) as Hkeep.
  destruct (input_scan inputkey tbl false) as [[tbl1 calls1] whackflag]
    eqn:Escan.
  cbn [fst] in Hkeep. destruct whackflag; cbn [negb] in H.
  { apply Returned_inj in H. injection H as H1 H2 H3. subst.
    left. split; [exact Hkeep | reflexivity]. }
  destruct (input_scan_quiet _ _ _ _ _ Escan) as (-> & -> & _).
  destruct (input_scare_keeps inputkey clock (relock tbl) 0%nat MISFIRE)
    as [Hk2 Hty].
  destruct (input_scare inputkey clock 0 (relock tbl) MISFIRE)
    as [tbl2 misfiretype].
  cbn [fst snd] in Hk2, Hty.
  destruct (compute_score sc (-1) (misfirehole inputkey) inputkey 0
              misfiretype) as [[sc1 idx]|] eqn:Hcs;
    cbn [defined bind fst snd] in H; [|discriminate H].
  apply Returned_inj in H. injection H as H1 H2 H3. subst tbl' sc' calls.
  right. split; [exact Hk2|]. split; [reflexivity|].
  destruct (compute_score_fields _ _ _ _ _ _ _ _ Hcs)
    as (m & w & b & Hsc & _ & Hmc & Hf).
  destruct (misfirehole_recognized inputkey Er) as [Hrange Hkey].
  assert (Hpen : is_penalty misfiretype = true /\ m = 0 /\ w = 0 /\ b = 0 /\
                 is_miss misfiretype = false).
  { destruct (Hty (or_introl eq_refl)) as [E|E]; rewrite E in Hf |- *;
      destruct Hf as (-> & -> & ->); repeat split. }
  destruct Hpen as (Hp & -> & -> & -> & Hnm).
  rewrite Hnm in Hmc.
  eexists. split; [exact Hsc|]. split; [exact Hmc|].
  cbn [Score.playresult Score.mole Score.selection Score.hole].
  split; [exact Hp|]. split; [reflexivity|]. split; [reflexivity|].
  split; [reflexivity|]. split; [exact Hrange|]. exact Hkey.
Qed.

Lemma dispatcher_only_logs_penalties_witness :
  map row_identity [row_up 0 0 6; row_hiding 4; Mole.zero]
  = map row_identity [row_up 0 0 6; row_hiding 4; Mole.zero] /\
  score_init = score_init
  \/
  map row_identity [row_up 0 0 6; row_hiding 4; Mole.zero]
  = map row_identity
      ((fun t : list MoleCommRecord => t)
         [row_up 0 0 6; row_hiding 4; Mole.zero]) /\
  @nil sys_call = [] /\
  exists rec,
    scores score_init = scores score_init ++ [rec] /\
    missedcount score_init = missedcount score_init /\
    is_penalty (Score.playresult rec) = true /\
    Score.mole rec = -1 /\ Score.selection rec = 55 /\
    Score.hole rec = misfirehole 55 /\
    0 <= Score.hole rec < MOLEHOLES /\
    holekeys_at (Score.hole rec) = 55.
Proof.
  apply (dispatcher_only_logs_penalties 55
           [row_up 0 0 6; row_hiding 4; Mole.zero]
           [row_up 0 0 6; row_hiding 4; Mole.zero] score_init score_init
           (fun t => t) (fun n => mk_timespec (Z.of_nat n) 0) []).
  reflexivity.
Defined.

Lemma find_holekey_absent (k : Z) (keys : list Z) :
  forall i, existsb (Z.eqb k) keys = false ->
            find_holekey k keys i = i + Z.of_nat (length keys).
Proof.
  induction keys as [|x keys IH]; intros i H; cbn [find_holekey length].
  - lia.
  - cbn [existsb] in H. apply orb_false_iff in H. destruct H as [Hx Hr].
    rewrite Hx, (IH (i + 1) Hr). lia.
Qed.

(** X24: holes and keys correspond one to one.  The key of a hole in
    [0, MOLEHOLES) is recognized, is not NUL, and the search the
    dispatcher makes for the hole of a key gives that hole back; a
    recognized key is the key of the hole the search finds for it; for
    any other key the search runs off the end and gives MOLEHOLES, which
    is no hole (the dispatcher drops such keys before it searches). *)
Theorem misfirehole_round_trip (h k : Z) :
  (0 <= h < MOLEHOLES ->
   recognized (holekeys_at h) = true /\ holekeys_at h <> 0 /\
   misfirehole (holekeys_at h) = h) /\
  (recognized k = true ->
   0 <= misfirehole k < MOLEHOLES /\ holekeys_at (misfirehole k) = k) /\
  (recognized k = false -> misfirehole k = MOLEHOLES).
Proof.
  split; [|split].
  - unfold MOLEHOLES. intros Hh.
    assert (Hc : h = 0 \/ h = 1 \/ h = 2 \/ h = 3 \/ h = 4 \/ h = 5 \/
                 h = 6 \/ h = 7 \/ h = 8) by lia.
    repeat (destruct Hc as [Hc|Hc];
            [subst h; vm_compute; repeat split; intros Hx; discriminate Hx|]).
    subst h; vm_compute; repeat split; intros Hx; discriminate Hx.
  - apply misfirehole_recognized.
  - intros H. unfold misfirehole, recognized in *.
    rewrite (find_holekey_absent k holekeys 0 H). reflexivity.
Qed.

Lemma misfirehole_round_trip_witness :
  recognized (holekeys_at 4) = true /\ holekeys_at 4 <> 0 /\
  misfirehole (holekeys_at 4) = 4.
Proof.
  destruct (misfirehole_round_trip 4 0) as [H _].
  apply H. unfold MOLEHOLES. lia.
Defined.

(** ** How long the animations last *)

Lemma sleep_ns_app (a b : list anim_event) :
  sleep_ns (a ++ b) = sleep_ns a + sleep_ns b.
Proof.
  induction a as [|e a IH]; [reflexivity|].
  destruct e; cbn [app sleep_ns]; rewrite IH; lia.
Qed.

Lemma nanosleep_ns_msec (ms : Z) :
  0 <= ms <= INT_MAX ->
  nanosleep_ns (ms / 1000) ((ms mod 1000) * 1000000) = ms * 1000000.
Proof.
  unfold INT_MAX. intros H. unfold nanosleep_ns.
  pose proof (Z.mod_pos_bound ms 1000 ltac:(lia)) as Hm.
  pose proof (Z.div_pos ms 1000 ltac:(lia) ltac:(lia)) as Hd.
  pose proof (Z.div_mod ms 1000 ltac:(lia)) as Hdm.
  destruct (Z.leb_spec 0 (ms / 1000)); [|lia].
  destruct (Z.leb_spec 0 (ms mod 1000 * 1000000)); [|lia].
  destruct (Z.ltb_spec (ms mod 1000 * 1000000) 1000000000); [|lia].
  cbn [andb]. lia.
Qed.

(** [sleep_msec]: a duration in milliseconds that is not negative is
    slept in full; one between -1000 and 0 makes [nanosleep] fail. *)
Lemma sleep_msec_ns (ms : Z) :
  -1000 < ms <= INT_MAX ->
  sleep_ns [sleep_msec ms] = (if ms <? 0 then 0 else ms * 1000000).
Proof.
  unfold INT_MAX. intros H. unfold sleep_msec, int_div, int_rem, long_mul.
  cbn [sleep_ns]. unfold MSEC.
  destruct (Z.ltb_spec ms 0) as [Hneg|Hpos].
  - assert (Hq : Z.quot ms 1000 = 0).
    { replace ms with (- (- ms)) by lia.
      rewrite Z.quot_opp_l by lia. rewrite Z.quot_small by lia.
      reflexivity. }
    assert (Hrem : Z.rem ms 1000 = ms).
    { pose proof (Z.quot_rem' ms 1000) as Hqr. rewrite Hq in Hqr. lia. }
    rewrite Hq, Hrem.
    rewrite (to_int_id 0) by (unfold in_int, INT_MIN, INT_MAX; lia).
    rewrite (to_int_id ms) by (unfold in_int, INT_MIN, INT_MAX; lia).
    rewrite (to_long_id (ms * 1000000))
      by (unfold in_long, LONG_MIN, LONG_MAX; lia).
    unfold nanosleep_ns.
    destruct (Z.leb_spec 0 (ms * 1000000)); [lia|].
    cbn [andb Z.leb Z.compare]. lia.
  - rewrite Z.quot_div_nonneg, Z.rem_mod_nonneg by lia.
    pose proof (Z.mod_pos_bound ms 1000 ltac:(lia)) as Hm.
    pose proof (Z.div_pos ms 1000 ltac:(lia) ltac:(lia)) as Hd.
    pose proof (Z.div_mod ms 1000 ltac:(lia)) as Hdm.
    rewrite (to_int_id (ms / 1000))
      by (unfold in_int, INT_MIN, INT_MAX; lia).
    rewrite (to_int_id (ms mod 1000))
      by (unfold in_int, INT_MIN, INT_MAX; lia).
    rewrite (to_long_id (ms mod 1000 * 1000000))
      by (unfold in_long, LONG_MIN, LONG_MAX; lia).
    rewrite nanosleep_ns_msec by (unfold INT_MAX; lia). lia.
Qed.

Lemma hiding_loop_sleeps (rnd : nat -> Z) (aspec : AnimationSpec) :
  Anim.duration aspec <> -1 ->
  (forall k, 0 <= rnd k <= INT_MAX) ->
  forall fuel k timeremaining evs,
    0 <= timeremaining <= INT_MAX ->
    hiding_loop fuel rnd k aspec timeremaining = (evs, true) ->
    sleep_ns evs = timeremaining * 1000000.
Proof.
  intros Hd Hrnd. unfold INT_MAX in *.
  assert (Hf : (Anim.duration aspec =? -1) = false)
    by (apply Z.eqb_neq; exact Hd).
  induction fuel as [|fuel IH]; intros k t evs Ht H.
  - discriminate H.
  - cbn [hiding_loop] in H. rewrite Hf in H. cbn [negb] in H.
    rewrite orb_false_r, !andb_true_r in H.
    destruct (Z.gtb_spec t 0) as [Hpos|Hzero].
    2: { apply pair_equal_spec in H. destruct H as [<- _].
         cbn [sleep_ns]. lia. }
    destruct (Z.ltb_spec t 600) as [Hshort|Hlong].
    + apply pair_equal_spec in H. destruct H as [<- _].
      cbn [sleep_ns]. unfold long_mul, MSEC.
      rewrite (to_long_id (t * 1000000))
        by (unfold in_long, LONG_MIN, LONG_MAX; lia).
      unfold nanosleep_ns.
      destruct (Z.leb_spec 0 (t * 1000000)); [|lia].
      destruct (Z.ltb_spec (t * 1000000) 1000000000); [|lia].
      cbn [andb Z.leb Z.compare]. lia.
    + set (left := int_sub t 600) in *.
      assert (Hleft : left = t - 600).
      { unfold left, int_sub.
        apply to_int_id. unfold in_int, INT_MIN, INT_MAX. lia. }
      set (target0 := long_add (long_rem (rnd (2 + k)%nat) 1200) 800) in *.
      assert (Htarget : 800 <= target0 < 2000).
      { unfold target0, long_add, long_rem.
        specialize (Hrnd (2 + k)%nat).
        rewrite Z.rem_mod_nonneg by lia.
        pose proof (Z.mod_pos_bound (rnd (2 + k)%nat) 1200 ltac:(lia)) as Hm.
        rewrite (to_long_id (rnd (2 + k)%nat mod 1200))
          by (unfold in_long, LONG_MIN, LONG_MAX; lia).
        rewrite to_long_id by (unfold in_long, LONG_MIN, LONG_MAX; lia).
        lia. }
      set (targettime := if target0 >? left then left else target0) in *.
      assert (Htt : 0 <= targettime <= left /\ targettime < 2000).
      { unfold targettime. destruct (Z.gtb_spec target0 left); lia. }
      clearbody left target0 targettime. subst left.
      destruct (hiding_loop fuel rnd (3 + k) aspec
                  (to_int (t - 600 - targettime))) as [evs' fin] eqn:E.
      apply pair_equal_spec in H. destruct H as [<- ->].
      rewrite to_int_id in E by (unfold in_int, INT_MIN, INT_MAX; lia).
      specialize (IH (3 + k)%nat (t - 600 - targettime) evs'
                     ltac:(lia) E).
      cbn [app sleep_ns]. rewrite IH.
      unfold MSEC, long_div, long_rem, long_mul.
      rewrite Z.quot_div_nonneg, Z.rem_mod_nonneg by lia.
      pose proof (Z.mod_pos_bound targettime 1000 ltac:(lia)) as Hm.
      pose proof (Z.div_pos targettime 1000 ltac:(lia) ltac:(lia)) as Hdv.
      pose proof (Z.div_mod targettime 1000 ltac:(lia)) as Hdm.
      rewrite (to_long_id (targettime / 1000))
        by (unfold in_long, LONG_MIN, LONG_MAX; lia).
      rewrite (to_long_id (targettime mod 1000))
        by (unfold in_long, LONG_MIN, LONG_MAX; lia).
      rewrite (to_long_id (targettime mod 1000 * 1000000))
        by (unfold in_long, LONG_MIN, LONG_MAX; lia).
      rewrite nanosleep_ns_msec by (unfold INT_MAX; lia).
      change (nanosleep_ns 0 (200 * 1000000)) with 200000000. lia.
Qed.

(** X25: a concealment lasts as long as it was told to.  An ANIMHIDING
    run with a duration from 0 to INT_MAX milliseconds ends, and when it
    has ended the time it spent asleep is exactly its duration, however
    the random bounces fell; its checkpoints are 1 at the start and 2 at
    the end. *)
Theorem hiding_animation_lasts_its_duration
    (rnd : nat -> Z) (aspec : AnimationSpec) :
  Anim.animationtype aspec = ANIMHIDING ->
  0 <= Anim.duration aspec <= INT_MAX ->
  (forall k, 0 <= rnd k <= INT_MAX) ->
  (exists fuel evs, animation_thread fuel rnd aspec = (evs, true)) /\
  (forall fuel evs,
      animation_thread fuel rnd aspec = (evs, true) ->
      sleep_ns evs = Anim.duration aspec * 1000000 /\
      sync_writes evs = [1; 2]).
Proof.
  intros Hty Hd Hrnd.
  assert (Hne : Anim.duration aspec <> -1) by lia.
  unfold animation_thread. rewrite Hty. split.
  - exists (S (Z.to_nat (Anim.duration aspec))).
    pose proof (hiding_loop_finishes rnd aspec Hne Hrnd
                  (Z.to_nat (Anim.duration aspec)) 0%nat
                  (Anim.duration aspec) ltac:(lia) ltac:(lia)) as Hfin.
    destruct (hiding_loop (S (Z.to_nat (Anim.duration aspec))) rnd 0 aspec
                (Anim.duration aspec)) as [evs fin].
    cbn [snd] in Hfin. subst fin. eexists. reflexivity.
  - intros fuel evs H.
    pose proof (hiding_loop_no_sync rnd aspec fuel 0%nat
                  (Anim.duration aspec)) as Hns.
    pose proof (hiding_loop_sleeps rnd aspec Hne Hrnd fuel 0%nat
                  (Anim.duration aspec)) as Hsl.
    destruct (hiding_loop fuel rnd 0 aspec (Anim.duration aspec))
      as [evs0 fin].
    apply pair_equal_spec in H. destruct H as [<- ->].
    cbn [fst] in Hns. specialize (Hsl evs0 Hd eq_refl).
    split.
    + cbn [sleep_ns]. rewrite sleep_ns_app, Hsl. cbn [sleep_ns]. lia.
    + cbn [sync_writes]. rewrite sync_writes_app, Hns. reflexivity.
Qed.

Lemma hiding_animation_lasts_its_duration_witness :
  sleep_ns (fst (animation_thread 3 (fun _ => 7)
                   (Anim.set_duration 1500 HidingAnim)))
  = 1500 * 1000000.
Proof.
  destruct (hiding_animation_lasts_its_duration
              (fun _ => 7) (Anim.set_duration 1500 HidingAnim))
    as [_ H].
  - reflexivity.
  - unfold INT_MAX. simpl. lia.
  - intros k. unfold INT_MAX. lia.
  - destruct (H 3%nat (fst (animation_thread 3 (fun _ => 7)
                              (Anim.set_duration 1500 HidingAnim))))
      as [Hs _]; [reflexivity | exact Hs].
Defined.

Lemma sleep_ns_cons (e e' : anim_event) (l : list anim_event) :
  sleep_ns (e :: e' :: l) = sleep_ns [e] + sleep_ns (e' :: l).
Proof. destruct e; cbn [sleep_ns]; lia. Qed.

(** X26: how long a pop-up lasts.  An ANIMPOPUP run with a duration of
    d milliseconds (0 to INT_MAX) is one pass that ends; with
    leveltime = d / 5 it sleeps 5 * leveltime milliseconds in all, that
    is d rounded down to a multiple of 5, when leveltime is at least
    150.  Below that the sleep of leveltime - 150 after the rise is
    negative and fails, and the run takes 150 + 4 * leveltime
    milliseconds, which for a duration under 730 is longer than it was
    told to. *)
Theorem popup_animation_timing
    (fuel : nat) (rnd : nat -> Z) (aspec : AnimationSpec) :
  Anim.animationtype aspec = ANIMPOPUP ->
  0 <= Anim.duration aspec <= INT_MAX ->
  let leveltime := Anim.duration aspec / 5 in
  exists evs,
    animation_thread (S fuel) rnd aspec = (evs, true) /\
    sleep_ns evs =
      (if leveltime <? 150 then 150 + 4 * leveltime else 5 * leveltime)
      * 1000000 /\
    Anim.duration aspec - 4 <= 5 * leveltime <= Anim.duration aspec /\
    (Anim.duration aspec < 730 ->
     Anim.duration aspec * 1000000 < sleep_ns evs).
Proof.
  intros Hty Hd leveltime. unfold INT_MAX in Hd.
  pose proof (Z.div_mod (Anim.duration aspec) 5 ltac:(lia)) as Hdm.
  pose proof (Z.mod_pos_bound (Anim.duration aspec) 5 ltac:(lia)) as Hm.
  fold leveltime in Hdm.
  assert (Hlt : int_div (Anim.duration aspec) 5 = leveltime).
  { unfold int_div. rewrite Z.quot_div_nonneg by lia.
    apply to_int_id. unfold in_int, INT_MIN, INT_MAX. fold leveltime. lia. }
  assert (Hsub : int_sub leveltime 150 = leveltime - 150).
  { unfold int_sub. apply to_int_id. unfold in_int, INT_MIN, INT_MAX. lia. }
  exists (popup_once aspec). split.
  { unfold animation_thread. rewrite Hty. cbn [popup_loop]. rewrite Hty.
    reflexivity. }
  assert (Hs : sleep_ns (popup_once aspec) =
               150000000
               + (if leveltime - 150 <? 0 then 0
                  else (leveltime - 150) * 1000000)
               + 4 * (leveltime * 1000000)).
  { unfold popup_once. rewrite Hty.
    change (AnimationType_eqb ANIMPOPUP ANIMPOPUP) with true.
    change (AnimationType_eqb ANIMPOPUP INSTRPOPUP) with false.
    cbn [orb]. rewrite Hlt, Hsub.
    cbn [popup_descend flat_map app].
    repeat rewrite sleep_ns_cons.
    rewrite (sleep_msec_ns (leveltime - 150)) by (unfold INT_MAX; lia).
    rewrite (sleep_msec_ns leveltime) by (unfold INT_MAX; lia).
    replace (leveltime <? 0) with false by (symmetry; apply Z.ltb_ge; lia).
    cbn [sleep_ns]. unfold MSEC.
    change (nanosleep_ns 0 (30 * 1000000)) with 30000000. lia. }
  rewrite Hs.
  destruct (Z.ltb_spec leveltime 150) as [Hshort|Hlong];
    destruct (Z.ltb_spec (leveltime - 150) 0); try lia.
  all: split; [lia|]; split; [lia|]; intros Hx; lia.
Qed.

Lemma popup_animation_timing_witness :
  exists evs,
    animation_thread 1 (fun _ => 0)
      (Anim.set_duration 3001 (Anim.set_hole 4 PopupAnim)) = (evs, true) /\
    sleep_ns evs = 3000 * 1000000.
Proof.
  destruct (popup_animation_timing 0 (fun _ => 0)
              (Anim.set_duration 3001 (Anim.set_hole 4 PopupAnim)))
    as (evs & H1 & H2 & _).
  - reflexivity.
  - unfold INT_MAX. simpl. lia.
  - exists evs. split; [exact H1 | exact H2].
Defined.

(** ** The playfield *)

Lemma hole_cases (hole : Z) :
  0 <= hole < MOLEHOLES ->
  hole = 0 \/ hole = 1 \/ hole = 2 \/ hole = 3 \/ hole = 4 \/ hole = 5 \/
  hole = 6 \/ hole = 7 \/ hole = 8.
Proof. unfold MOLEHOLES. lia. Qed.

Lemma boxes_disjoint (hole hole' : Z) (hsc hsc' : HoleScreenCoords)
      (row col : Z) :
  0 <= hole < MOLEHOLES -> 0 <= hole' < MOLEHOLES -> hole' <> hole ->
  nth_error holescreencoords (Z.to_nat hole) = Some hsc ->
  nth_error holescreencoords (Z.to_nat hole') = Some hsc' ->
  in_box hsc row col -> in_box hsc' row col -> False.
Proof.
  intros Hh Hh' Hne H1 H2.
  apply hole_cases in Hh, Hh'.
  unfold in_box, moleheight, molewidth.
  repeat (destruct Hh as [Hh|Hh]; [subst hole|]); try subst hole;
    apply Some_inj in H1; subst hsc;
    repeat (destruct Hh' as [Hh'|Hh']; [subst hole'|]); try subst hole';
    try contradiction;
    apply Some_inj in H2; subst hsc';
    cbn [nth hsc_top hsc_left]; lia.
Qed.

Lemma show_mole_returns (hole level : Z) :
  0 <= hole < MOLEHOLES -> 0 <= level <= moleheight ->
  exists calls, show_mole hole MOLEHOLES level = Returned calls.
Proof.
  intros Hh Hl. apply hole_cases in Hh. unfold moleheight in Hl.
  assert (Hc : level = 0 \/ level = 1 \/ level = 2 \/ level = 3 \/
               level = 4 \/ level = 5) by lia.
  repeat (destruct Hh as [Hh|Hh]; [subst hole|]); try subst hole;
    repeat (destruct Hc as [Hc|Hc]; [subst level|]); try subst level;
    eexists; vm_compute; reflexivity.
Qed.

(** X27: a mole is drawn inside the box of its hole.  For a hole in
    [0, MOLEHOLES) and a level from 0 to 5, [show_mole] first writes
    eight blanks on each of the five rows of the box, top to bottom, and
    then, for a level above 0, lines 0 to level - 1 of the mole on the
    lowest [level] rows of the box, so that the mole rises out of the
    ground and level 0 leaves the box empty; every write starts at the
    left edge of the box and lies within its rows, and the boxes of
    different holes share no cell.  Any other [maxholes] ends the
    process; a level above 5 reads outside [height]. *)
Theorem show_mole_paints_inside_box (hole level : Z) :
  (forall maxholes, maxholes <> MOLEHOLES ->
                    show_mole hole maxholes level = Aborted) /\
  (0 <= hole < MOLEHOLES -> moleheight < level <= INT_MAX ->
   show_mole hole MOLEHOLES level = Undefined) /\
  (0 <= hole < MOLEHOLES -> 0 <= level <= moleheight ->
   exists hsc calls,
     nth_error holescreencoords (Z.to_nat hole) = Some hsc /\
     show_mole hole MOLEHOLES level = Returned calls /\
     calls =
       map (fun i => mk_mvprintw (nth 4 (hsc_top hsc) 0 + i) (hsc_left hsc)
                                 Blank8)
           [0; 1; 2; 3; 4]
       ++ map (fun i => mk_mvprintw
                          (nth 4 (hsc_top hsc) 0 + moleheight - level + i)
                          (hsc_left hsc) (MoleLine i))
              (map Z.of_nat (seq 0 (Z.to_nat level))) /\
     Forall (fun c => in_box hsc (pr_row c) (pr_col c) /\
                      in_box hsc (pr_row c) (pr_col c + molewidth - 1))
            calls /\
     (forall hole' hsc' row col,
         0 <= hole' < MOLEHOLES -> hole' <> hole ->
         nth_error holescreencoords (Z.to_nat hole') = Some hsc' ->
         in_box hsc row col -> in_box hsc' row col -> False)).
Proof.
  split; [|split].
  - intros maxholes Hm. unfold show_mole.
    replace (maxholes =? MOLEHOLES) with false
      by (symmetry; apply Z.eqb_neq; exact Hm).
    reflexivity.
  - intros Hh Hl. unfold moleheight, INT_MAX in Hl.
    assert (Hsub : int_sub level 1 = level - 1).
    { unfold int_sub. apply to_int_id. unfold in_int, INT_MIN, INT_MAX. lia. }
    assert (Hpos : (level >? 0) = true) by (apply Z.gtb_lt; lia).
    assert (Hnone : forall l : list Z,
               length l = 5%nat -> array_at l (level - 1) = None).
    { intros l Hlen. unfold array_at.
      destruct (Z.leb_spec 0 (level - 1)); [|lia].
      apply nth_error_None. lia. }
    assert (Hlook : exists hsc t0,
               array_at holescreencoords hole = Some hsc /\
               length (hsc_height hsc) = 5%nat /\
               array_at (hsc_top hsc) 4 = Some t0).
    { apply hole_cases in Hh.
      repeat (destruct Hh as [Hh|Hh]; [subst hole|]); try subst hole;
        do 2 eexists; repeat split; reflexivity. }
    destruct Hlook as (hsc & t0 & H1 & H2 & H3).
    unfold show_mole. rewrite Z.eqb_refl, H1. cbn [defined bind].
    change (int_sub moleheight 1) with 4. rewrite H3. cbn [defined bind].
    rewrite Hpos, Hsub, (Hnone _ H2). reflexivity.
  - intros Hh Hl.
    assert (Hdis : forall hsc,
               nth_error holescreencoords (Z.to_nat hole) = Some hsc ->
               forall hole' hsc' row col,
                 0 <= hole' < MOLEHOLES -> hole' <> hole ->
                 nth_error holescreencoords (Z.to_nat hole') = Some hsc' ->
                 in_box hsc row col -> in_box hsc' row col -> False).
    { intros hsc Hn hole' hsc' row col Hh' Hne Hn' Hb Hb'.
      exact (boxes_disjoint hole hole' hsc hsc' row col Hh Hh' Hne Hn Hn'
               Hb Hb'). }
    pose proof (hole_cases hole Hh) as Hc. unfold moleheight in Hl.
    assert (Hlc : level = 0 \/ level = 1 \/ level = 2 \/ level = 3 \/
                  level = 4 \/ level = 5) by lia.
    clear Hh Hl.
    repeat (destruct Hc as [Hc|Hc]; [subst hole|]); try subst hole;
      repeat (destruct Hlc as [Hlc|Hlc]; [subst level|]); try subst level;
      (eexists; eexists; split; [reflexivity|];
       split; [lazy; reflexivity|];
       split; [lazy; reflexivity|];
       split; [repeat constructor; vm_compute; intros Hx; discriminate Hx
              | apply Hdis; reflexivity]).
Qed.

Lemma show_mole_paints_inside_box_witness :
  show_mole 4 7 3 = Aborted /\
  show_mole 4 MOLEHOLES 3
  = Returned [mk_mvprintw 9 18 Blank8; mk_mvprintw 10 18 Blank8;
              mk_mvprintw 11 18 Blank8; mk_mvprintw 12 18 Blank8;
              mk_mvprintw 13 18 Blank8;
              mk_mvprintw 11 18 (MoleLine 0); mk_mvprintw 12 18 (MoleLine 1);
              mk_mvprintw 13 18 (MoleLine 2)].
Proof.
  destruct (show_mole_paints_inside_box 4 3) as (Ha & _ & H). split.
  - apply Ha. unfold MOLEHOLES. lia.
  - destruct H as (hsc & calls & Hn & Hs & Hc & _).
    + unfold MOLEHOLES. lia.
    + unfold moleheight. lia.
    + apply Some_inj in Hn. subst hsc. rewrite Hs, Hc. reflexivity.
Defined.

Lemma frames_app (a b : list anim_event) :
  frames (a ++ b) = frames a ++ frames b.
Proof.
  induction a as [|e a IH]; [reflexivity|].
  destruct e; cbn [app frames]; rewrite IH; reflexivity.
Qed.

(** X28: every frame an animation thread draws can be drawn.  For a
    descriptor with [numholes] = MOLEHOLES and a hole in [0, MOLEHOLES),
    as the bridge hands them out, each call of [show_mole] in a run of
    any kind, however long it runs, is for that hole, with MOLEHOLES
    holes and a level from 0 to 5: [show_mole] returns for it, neither
    ending the process nor reading outside its tables. *)
Theorem animation_frames_are_drawable
    (fuel : nat) (rnd : nat -> Z) (aspec : AnimationSpec) :
  Anim.numholes aspec = MOLEHOLES ->
  0 <= Anim.hole aspec < MOLEHOLES ->
  Forall (fun f : Z * Z * Z =>
            fst (fst f) = Anim.hole aspec /\ snd (fst f) = MOLEHOLES /\
            0 <= snd f <= moleheight /\
            exists calls,
              show_mole (fst (fst f)) (snd (fst f)) (snd f) = Returned calls)
         (frames (fst (animation_thread fuel rnd aspec))).
Proof.
  intros Hn Hh.
  set (P := fun f : Z * Z * Z =>
              fst (fst f) = Anim.hole aspec /\ snd (fst f) = MOLEHOLES /\
              0 <= snd f <= moleheight /\
              exists calls,
                show_mole (fst (fst f)) (snd (fst f)) (snd f)
                = Returned calls).
  assert (HP : forall l, 0 <= l <= 5 ->
                         P (Anim.hole aspec, Anim.numholes aspec, l)).
  { intros l Hl. unfold P. cbn [fst snd]. rewrite Hn.
    split; [reflexivity|]. split; [reflexivity|].
    split; [unfold moleheight; lia|].
    apply show_mole_returns; [exact Hh | unfold moleheight; lia]. }
  assert (Hbounce : forall r, 0 <= bounce r <= 5).
  { intros r. unfold bounce. destruct (_ =? 0); lia. }
  assert (Hhide : forall fuel0 k t,
             Forall P (frames (fst (hiding_loop fuel0 rnd k aspec t)))).
  { induction fuel0 as [|fuel0 IH]; intros k t; [constructor|].
    cbn [hiding_loop].
    destruct ((t >? 0) || (Anim.duration aspec =? -1)); [|constructor].
    destruct ((t <? 600) && negb (Anim.duration aspec =? -1));
      [constructor|].
    match goal with
    | |- context [hiding_loop fuel0 rnd ?k' aspec ?t'] =>
        specialize (IH k' t');
        destruct (hiding_loop fuel0 rnd k' aspec t') as [evs fin]
    end.
    cbn [fst] in *. cbn [app frames].
    repeat (constructor; [apply HP; first [lia | apply Hbounce]|]).
    exact IH. }
  assert (Hpop : Forall P (frames (popup_once aspec))).
  { unfold popup_once, sleep_msec.
    destruct (AnimationType_eqb (Anim.animationtype aspec) ANIMPOPUP
              || AnimationType_eqb (Anim.animationtype aspec) INSTRPOPUP);
      [destruct (AnimationType_eqb (Anim.animationtype aspec) INSTRPOPUP)|];
      cbn [popup_descend flat_map app frames]; unfold sleep_msec;
      cbn [frames app];
      repeat (constructor; [apply HP; lia|]); constructor. }
  assert (Hpoploop : forall fuel0,
             Forall P (frames (fst (popup_loop fuel0 aspec)))).
  { induction fuel0 as [|fuel0 IH]; [constructor|].
    cbn [popup_loop].
    destruct (AnimationType_eqb (Anim.animationtype aspec) INSTRPOPUP);
      [|exact Hpop].
    destruct (popup_loop fuel0 aspec) as [evs fin]. cbn [fst] in *.
    rewrite frames_app. apply Forall_app. split; assumption. }
  assert (Hblink : forall ft, frames (scared_blinks aspec ft) = []).
  { intros ft. unfold scared_blinks, sleep_msec. reflexivity. }
  assert (Hup : Forall P (frames (upscared_once aspec))).
  { unfold upscared_once.
    rewrite !frames_app, Hblink. unfold sleep_msec.
    destruct (AnimationType_eqb (Anim.animationtype aspec) INSTRSCARED);
      cbn [frames app];
      repeat (constructor; [apply HP; lia|]); constructor. }
  assert (Huploop : forall fuel0,
             Forall P (frames (fst (upscared_loop fuel0 aspec)))).
  { induction fuel0 as [|fuel0 IH]; [constructor|].
    cbn [upscared_loop].
    destruct (AnimationType_eqb (Anim.animationtype aspec) INSTRSCARED);
      [|exact Hup].
    destruct (upscared_loop fuel0 aspec) as [evs fin]. cbn [fst] in *.
    rewrite frames_app. apply Forall_app. split; assumption. }
  unfold animation_thread.
  destruct (Anim.animationtype aspec);
    try apply Hpoploop;
    try (unfold sleep_msec; cbn [fst frames]; constructor);
    try match goal with
        | |- context [hiding_loop fuel rnd 0 aspec ?d] =>
            specialize (Hhide fuel 0%nat d);
            destruct (hiding_loop fuel rnd 0 aspec d) as [evs fin]
        | |- context [upscared_loop fuel aspec] =>
            specialize (Huploop fuel);
            destruct (upscared_loop fuel aspec) as [evs fin]
        end;
    cbn [fst] in *; cbn [frames]; unfold sleep_msec; cbn [frames];
    rewrite frames_app; try rewrite Hblink; cbn [frames app];
    try (apply Forall_app; split; [assumption|]; destruct fin);
    constructor.
Qed.

Lemma animation_frames_are_drawable_witness :
  Forall (fun f : Z * Z * Z =>
            fst (fst f) = Anim.hole (Anim.set_duration 3000
                                       (Anim.set_hole 4 PopupAnim)) /\
            snd (fst f) = MOLEHOLES /\
            0 <= snd f <= moleheight /\
            exists calls,
              show_mole (fst (fst f)) (snd (fst f)) (snd f) = Returned calls)
         (frames (fst (animation_thread 1 (fun _ => 0)
                         (Anim.set_duration 3000
                            (Anim.set_hole 4 PopupAnim))))).
Proof.
  apply (animation_frames_are_drawable 1 (fun _ => 0)
           (Anim.set_duration 3000 (Anim.set_hole 4 PopupAnim))).
  - reflexivity.
  - unfold MOLEHOLES. simpl. lia.
Defined.

(** ** The score sheet *)

Lemma renumber_moles_spec (l : list ScoreSheetRecord) :
  forall n,
    1 <= n -> n + Z.of_nat (length l) <= INT_MAX ->
    length (renumber_moles l n) = length l /\
    map Score.mole
        (filter (fun r => Score.mole r >? 0) (renumber_moles l n))
    = map Z.of_nat
          (seq (Z.to_nat n)
               (length (filter (fun r => Score.mole r >? 0) l))) /\
    Forall2 (fun r r' =>
               r' = score_set_mole (Score.mole r') r /\
               (Score.mole r' >? 0) = (Score.mole r >? 0) /\
               (Score.mole r <= 0 -> r' = r))
            l (renumber_moles l n).
Proof.
  unfold INT_MAX.
  induction l as [|r l IH]; intros n Hn Hlen.
  - repeat split. constructor.
  - cbn [length] in Hlen. cbn [renumber_moles filter].
    destruct (Z.gtb_spec (Score.mole r) 0) as [Hpos|Hnon].
    + assert (Hadd : int_add n 1 = n + 1).
      { unfold int_add. apply to_int_id.
        unfold in_int, INT_MIN, INT_MAX. lia. }
      rewrite Hadd.
      destruct (IH (n + 1) ltac:(lia) ltac:(lia)) as (H1 & H2 & H3).
      cbn [length filter Score.mole score_set_mole].
      replace (n >? 0) with true by (symmetry; apply Z.gtb_lt; lia).
      cbn [map length seq]. rewrite H1, H2.
      replace (S (Z.to_nat n)) with (Z.to_nat (n + 1)) by lia.
      rewrite Z2Nat.id by lia.
      split; [reflexivity|]. split; [reflexivity|].
      constructor; [|exact H3].
      cbn [Score.mole score_set_mole].
      split; [reflexivity|]. split.
      * replace (Score.mole r >? 0) with true
          by (symmetry; apply Z.gtb_lt; lia).
        apply Z.gtb_lt. lia.
      * intros Hx. lia.
    + destruct (IH n Hn ltac:(lia)) as (H1 & H2 & H3).
      cbn [length filter].
      assert (Hf : (Score.mole r >? 0) = false)
        by (rewrite Z.gtb_ltb; apply Z.ltb_ge; lia).
      rewrite !Hf. rewrite H1, H2.
      split; [reflexivity|]. split; [reflexivity|].
      constructor; [|exact H3].
      split; [destruct r; reflexivity|]. split; [reflexivity|].
      intros _. reflexivity.
Qed.

(** X29: the score sheet renumbers the moles in the order of the log.
    Whatever numbers the records carried, afterwards the records of
    moles (mole number above 0) are numbered 1, 2, 3, ... in log order;
    the penalty records (mole number -1) keep theirs; no record is
    added, dropped or moved and no other field changes. *)
Theorem renumber_moles_sequential (l : list ScoreSheetRecord) :
  Z.of_nat (length l) < INT_MAX ->
  length (renumber_moles l 1) = length l /\
  map Score.mole (filter (fun r => Score.mole r >? 0) (renumber_moles l 1))
  = map Z.of_nat
        (seq 1 (length (filter (fun r => Score.mole r >? 0) l))) /\
  Forall2 (fun r r' =>
             r' = score_set_mole (Score.mole r') r /\
             (Score.mole r' >? 0) = (Score.mole r >? 0) /\
             (Score.mole r <= 0 -> r' = r))
          l (renumber_moles l 1).
Proof.
  intros Hlen.
  exact (renumber_moles_spec l 1 ltac:(lia) ltac:(lia)).
Qed.

Lemma renumber_moles_sequential_witness :
  map Score.mole
      (filter (fun r => Score.mole r >? 0)
         (renumber_moles
            [Score.mk None None 2 4 0 0 20 80 0 100 WHACK 52;
             Score.mk None None (-1) 0 100 0 0 0 0 100 MISFIRE 55;
             Score.mk None None 1 0 100 (-10) 0 0 0 90 ESCAPE 0] 1))
  = [1; 2].
Proof.
  destruct (renumber_moles_sequential
              [Score.mk None None 2 4 0 0 20 80 0 100 WHACK 52;
               Score.mk None None (-1) 0 100 0 0 0 0 100 MISFIRE 55;
               Score.mk None None 1 0 100 (-10) 0 0 0 90 ESCAPE 0])
    as (_ & H & _).
  - unfold INT_MAX. simpl. lia.
  - exact H.
Defined.

Lemma page_command_range (cmd pages currentpage : Z) :
  1 <= pages <= INT_MAX -> 0 <= currentpage < pages ->
  0 <= page_command cmd pages currentpage < pages.
Proof.
  unfold INT_MAX. intros Hp Hc. unfold page_command.
  assert (H1 : int_sub currentpage 1 = currentpage - 1)
    by (unfold int_sub; apply to_int_id;
        unfold in_int, INT_MIN, INT_MAX; lia).
  assert (H2 : int_add currentpage 1 = currentpage + 1)
    by (unfold int_add; apply to_int_id;
        unfold in_int, INT_MIN, INT_MAX; lia).
  assert (H3 : int_sub pages 1 = pages - 1)
    by (unfold int_sub; apply to_int_id;
        unfold in_int, INT_MIN, INT_MAX; lia).
  rewrite H1, H2, H3.
  destruct (cmd =? char_code "1"); [lia|].
  destruct (cmd =? char_code "P").
  { destruct (Z.ltb_spec (currentpage - 1) 0); lia. }
  destruct (cmd =? char_code "N").
  { rewrite Z.geb_leb.
    destruct (Z.leb_spec pages (currentpage + 1)); lia. }
  destruct (cmd =? char_code "L"); lia.
Qed.

Lemma sheet_loop_range (pages : Z) (keys : list Z) :
  1 <= pages <= INT_MAX ->
  forall currentpage,
    0 <= currentpage < pages ->
    Forall (fun c => 0 <= c < pages) (sheet_loop keys pages currentpage).
Proof.
  intros Hp. induction keys as [|key keys IH]; intros c Hc;
    cbn [sheet_loop]; constructor; try exact Hc; try constructor.
  destruct (toupper key =? char_code "Q"); [constructor|].
  apply IH. apply page_command_range; assumption.
Qed.

Lemma page_rows_from_spec (numscores stop : Z) :
  numscores <= INT_MAX -> stop <= INT_MAX ->
  forall fuel i,
    0 <= i -> stop - i <= Z.of_nat fuel ->
    exists rows,
      page_rows_from fuel i numscores stop = (rows, true) /\
      forall x, In x rows <-> i <= x < Z.min numscores stop.
Proof.
  unfold INT_MAX. intros Hn Hs.
  induction fuel as [|fuel IH]; intros i Hi Hf.
  - cbn [page_rows_from].
    destruct (Z.ltb_spec i numscores), (Z.ltb_spec i stop); cbn [andb];
      try lia; exists []; (split; [reflexivity|]);
      intros x; cbn [In]; lia.
  - cbn [page_rows_from].
    destruct (Z.ltb_spec i numscores), (Z.ltb_spec i stop); cbn [andb];
      try (exists []; (split; [reflexivity|]); intros x; cbn [In]; lia).
    assert (Hadd : int_add i 1 = i + 1)
      by (unfold int_add; apply to_int_id;
          unfold in_int, INT_MIN, INT_MAX; lia).
    rewrite Hadd.
    destruct (IH (i + 1) ltac:(lia) ltac:(lia)) as (rows & Hr & Hin).
    rewrite Hr. exists (i :: rows). split; [reflexivity|].
    intros x. cbn [In]. rewrite Hin. lia.
Qed.

(** X30: the pages of the score sheet.  With at least one record (at
    most MAXLOG) and a terminal of more than EXTRALINES lines (at most
    10000), there is at least one page and just enough of them for the
    log; whatever keys are pressed, every page the loop displays has a
    number in [0, pages), and the records it prints are exactly those
    from currentpage * pagesize up to the end of the page or of the log,
    at least one: it never shows an empty page nor reads outside the
    log. *)
Theorem score_sheet_pages_in_range
    (numscores LINES : Z) (keys : list Z) :
  1 <= numscores <= MAXLOG -> EXTRALINES < LINES <= 10000 ->
  let pagesize := sheet_pagesize LINES in
  exists pages,
    sheet_pages numscores LINES = Some pages /\
    1 <= pages /\
    (pages - 1) * pagesize < numscores <= pages * pagesize /\
    Forall (fun c =>
              0 <= c < pages /\
              exists rows,
                page_rows (Z.to_nat pagesize) numscores pagesize c
                = (rows, true) /\
                rows <> [] /\
                forall i, In i rows <->
                          c * pagesize <= i
                          < Z.min numscores ((c + 1) * pagesize))
           (sheet_loop keys pages 0).
Proof.
  intros Hn Hl pagesize. unfold MAXLOG, EXTRALINES in Hn, Hl.
  assert (Hps : pagesize = LINES - 12).
  { unfold pagesize, sheet_pagesize, int_sub, EXTRALINES.
    apply to_int_id. unfold in_int, INT_MIN, INT_MAX. lia. }
  assert (Hps1 : 1 <= pagesize <= 9988) by lia.
  set (pages := (numscores + (pagesize - 1)) / pagesize).
  pose proof (Z.div_mod (numscores + (pagesize - 1)) pagesize ltac:(lia))
    as Hdm.
  pose proof (Z.mod_pos_bound (numscores + (pagesize - 1)) pagesize
                ltac:(lia)) as Hmod.
  fold pages in Hdm.
  assert (Hpg : 1 <= pages /\ (pages - 1) * pagesize < numscores
                /\ numscores <= pages * pagesize /\ pages <= numscores).
  { split; [|split; [|split]]; nia. }
  destruct Hpg as (Hp1 & Hp2 & Hp3 & Hp4).
  exists pages. split; [|split; [exact Hp1|split; [lia|]]].
  - unfold sheet_pages. fold pagesize. unfold EXTRALINES.
    assert (Hsub : int_sub LINES 12 = pagesize).
    { rewrite Hps. unfold int_sub. apply to_int_id.
      unfold in_int, INT_MIN, INT_MAX. lia. }
    rewrite Hsub.
    replace (pagesize =? 0) with false by (symmetry; apply Z.eqb_neq; lia).
    f_equal. unfold int_div, int_add, int_sub.
    rewrite (to_int_id (pagesize - 1))
      by (unfold in_int, INT_MIN, INT_MAX; lia).
    rewrite (to_int_id (numscores + (pagesize - 1)))
      by (unfold in_int, INT_MIN, INT_MAX; lia).
    rewrite Z.quot_div_nonneg by lia.
    apply to_int_id. fold pages. unfold in_int, INT_MIN, INT_MAX. lia.
  - assert (Hrange : Forall (fun c => 0 <= c < pages)
                            (sheet_loop keys pages 0)).
    { apply sheet_loop_range; unfold INT_MAX; lia. }
    apply (Forall_impl _ (P := fun c => 0 <= c < pages)); [|exact Hrange].
    intros c Hc. split; [exact Hc|].
    unfold page_rows.
    assert (Hcp : 0 <= c * pagesize /\ c * pagesize < numscores) by nia.
    assert (Hmul : int_mul c pagesize = c * pagesize).
    { unfold int_mul. apply to_int_id.
      unfold in_int, INT_MIN, INT_MAX. lia. }
    rewrite Hmul.
    assert (Hadd : int_add (c * pagesize) pagesize = (c + 1) * pagesize).
    { unfold int_add. rewrite to_int_id
        by (unfold in_int, INT_MIN, INT_MAX; lia). lia. }
    rewrite Hadd.
    destruct (page_rows_from_spec numscores ((c + 1) * pagesize)
                ltac:(unfold INT_MAX; lia) ltac:(unfold INT_MAX; lia)
                (Z.to_nat pagesize) (c * pagesize) ltac:(lia) ltac:(lia))
      as (rows & Hr & Hin).
    exists rows. split; [exact Hr|]. split; [|exact Hin].
    intros Hnil. subst rows.
    destruct (Hin (c * pagesize)) as [_ Hx]. apply Hx. lia.
Qed.

Lemma score_sheet_pages_in_range_witness :
  exists pages,
    sheet_pages 25 24 = Some pages /\ 1 <= pages /\
    (pages - 1) * sheet_pagesize 24 < 25 <= pages * sheet_pagesize 24.
Proof.
  destruct (score_sheet_pages_in_range 25 24 [110; 110; 112; 113])
    as (pages & H1 & H2 & H3 & _).
  - unfold MAXLOG. lia.
  - unfold EXTRALINES. lia.
  - exists pages. split; [exact H1|]. split; [exact H2 | exact H3].
Defined.
